(** * Bootstrap / Monte Carlo / Newton-Raphson pipeline

    Shallow embedding of [functions_optimized.c], which exists in two
    copies: [deadline/mbb] (terminal prices only) and
    [deadline/texto_trabalho_cribari/codes] (terminal prices and full
    paths).  The two files differ only in [monte_carlo_simulation]; every
    other function is modelled once.

    Conventions of the embedding.
    - A C [double] is a real number ([R]): arithmetic is exact, [exp] and
      [sqrt] are the real functions, [fmax] is [Rmax].  Rounding, infinities
      and NaN are outside the model.  What is proved is therefore proved of
      the formulas the code evaluates.  It carries over to the doubles up
      to rounding where the code adds, multiplies and divides; it does not
      carry over where a result rests on an exact cancellation: in
      [calculate_sharpe_ratio] the variance of equal values is a rounding
      residue in the doubles, of either sign, and nothing is stated here
      about the branch [std_dev == 0.0] on such values.
    - A C [int] is a 32-bit integer, read as a value in [Z].  The size
      expressions handed to [allocate_array]
      ([n_bootstrap * sample_size],
      [iterations + iterations * sample_size]) are evaluated as [int]
      expressions: when a value is not representable the call has
      undefined behaviour (signed overflow) and the model stops it there.
      The index expressions stay within these sizes when the loops run,
      and the others are read as their mathematical values.
    - A C array is a list; [load] and [store] are the indexed accesses.
      An access outside the array is undefined behaviour in C; in the
      model such a [load] yields [0] and such a [store] leaves the array
      as it is.
    - The C library ([rand], [srand], [malloc]) is not part of the
      repository and is taken as a parameter (class [Libc]).
    - The process state (the [static] flag of [moving_block_bootstrap], the
      generator state, the text printed) is threaded explicitly through a
      small state monad whose outcomes also record undefined behaviour
      (division by zero in [rand() % 0], signed overflow of a size
      expression) and the exhaustion of the fuel that bounds the one
      [while] loop of the program. *)

From Stdlib Require Import ZArith List Reals Lia Lra Bool.
Import ListNotations.

Open Scope Z_scope.

(** ** Arrays *)

Section Arrays.
Context {A : Type}.

Fixpoint upd (n : nat) (v : A) (a : list A) : list A :=
  match a with
  | [] => []
  | x :: t => match n with
              | O => v :: t
              | S n' => x :: upd n' v t
              end
  end.

(** [a[i]] read as an rvalue; [d] stands for what an access outside
    the array finds. *)
Definition load (d : A) (a : list A) (i : Z) : A :=
  if i <? 0 then d else nth (Z.to_nat i) a d.

(** [a[i] = v;] *)
Definition store (a : list A) (i : Z) (v : A) : list A :=
  if i <? 0 then a else upd (Z.to_nat i) v a.
End Arrays.

(** Arrays of [double]. *)
Definition rd (a : list R) (i : Z) : R := load 0%R a i.

(** [double**] matrices, as [allocate_matrix] builds them: one array per
    row. *)
Definition mrd (m : list (list R)) (i j : Z) : R := rd (load [] m i) j.
Definition mwr (m : list (list R)) (i j : Z) (v : R) : list (list R) :=
  store m i (store (load [] m i) j v).

(** ** Loops *)

(** [for (i = i0; i < i0 + n; i++) s = body i s;] *)
Fixpoint for_loop {S : Type} (n : nat) (i : Z) (body : Z -> S -> S) (s : S) : S :=
  match n with
  | O => s
  | S n' => for_loop n' (i + 1) body (body i s)
  end.

Definition for_range {S : Type} (lo hi : Z) (body : Z -> S -> S) (s : S) : S :=
  for_loop (Z.to_nat (hi - lo)) lo body s.

(** [for (i = i0; i < i0 + n && cond; i++) s = body i s;] *)
Fixpoint for_loop_cond {S : Type} (n : nat) (i : Z) (cond : S -> bool)
    (body : Z -> S -> S) (s : S) : S :=
  match n with
  | O => s
  | S n' => if cond s then for_loop_cond n' (i + 1) cond body (body i s) else s
  end.

Definition for_range_cond {S : Type} (lo hi : Z) (cond : S -> bool)
    (body : Z -> S -> S) (s : S) : S :=
  for_loop_cond (Z.to_nat (hi - lo)) lo cond body s.

(** A [for] loop whose body may leave it: [inl] is the state carried to the
    next iteration, [inr] the value the loop is left with ([break] or
    [return]). *)
Fixpoint for_loop_exit {S E : Type} (n : nat) (i : Z) (body : Z -> S -> S + E)
    (s : S) : S + E :=
  match n with
  | O => inl s
  | S n' => match body i s with
            | inl s' => for_loop_exit n' (i + 1) body s'
            | inr e => inr e
            end
  end.

Definition for_range_exit {S E : Type} (lo hi : Z) (body : Z -> S -> S + E)
    (s : S) : S + E :=
  for_loop_exit (Z.to_nat (hi - lo)) lo body s.

(** ** The C library *)

Class Libc : Type := {
  (** state of the generator behind [rand] *)
  rng : Type;
  (** [srand(seed)]: the generator state a seed determines *)
  srand : Z -> rng;
  (** [rand()]: a value in [[0, RAND_MAX]] and the next state *)
  rand : rng -> N * rng;
  (** whether [malloc] grants a request of that many bytes *)
  malloc_ok : Z -> bool
}.

(** A concrete C library: the linear congruential generator of the C
    standard's example, and an allocator that grants what fits in
    [2^32] bytes. *)
Definition lcg_next (s : Z) : Z := (s * 1103515245 + 12345) mod 2147483648.

#[export] Instance lcg_libc : Libc := {|
  rng := Z;
  srand := fun seed => seed;
  rand := fun s => (Z.to_N ((lcg_next s / 65536) mod 32768), lcg_next s);
  malloc_ok := fun bytes => bytes <=? 4294967296
|}.

(** What the program prints. *)
Inductive message : Type :=
| InvalidInput (n_returns block_size : Z)
    (* "ERROR: Time series length (%d) must be >= block size (%d)\n" *)
| AllocationError
    (* "ERROR: Memory allocation failed\n" *)
| Warning (iterations n_bootstrap : Z).
    (* "WARNING: More iterations (%d) than bootstrap samples (%d)\n" *)

(** How a call ends: it returns, it runs into undefined behaviour
    ([Crashed]: the C standard gives the rest of the call no meaning, and
    an implementation typically faults), or the fuel given to its [while]
    loop runs out. *)
Inductive outcome (A : Type) : Type :=
| Done (a : A)
| Crashed
| Timeout.
Arguments Done {A} a.
Arguments Crashed {A}.
Arguments Timeout {A}.

Section Model.
Context `{Libc}.

(** ** Process state *)

Record process : Type := {
  seed_set : bool;        (* [static int seed_set] of [moving_block_bootstrap] *)
  gen : rng;              (* state of the generator *)
  srand_log : list Z;     (* arguments of the calls of [srand], oldest first *)
  stdout : list message   (* what was printed, oldest first *)
}.

(** A fresh process: the flag is [0], and [rand] behaves as if
    [srand(1)] had been called. *)
Definition initial_process : process :=
  {| seed_set := false; gen := srand 1; srand_log := []; stdout := [] |}.

Definition M (A : Type) : Type := process -> outcome A * process.

Definition ret {A : Type} (a : A) : M A := fun st => (Done a, st).

Definition bind {A B : Type} (m : M A) (k : A -> M B) : M B :=
  fun st =>
    match m st with
    | (Done a, st') => k a st'
    | (Crashed, st') => (Crashed, st')
    | (Timeout, st') => (Timeout, st')
    end.

Definition crash {A : Type} : M A := fun st => (Crashed, st).
Definition timeout {A : Type} : M A := fun st => (Timeout, st).

Definition printf (m : message) : M unit :=
  fun st => (Done tt,
             {| seed_set := seed_set st; gen := gen st;
                srand_log := srand_log st; stdout := stdout st ++ [m] |}).

(** ** Utility functions *)

Definition sizeof_double : Z := 8.
Definition sizeof_pointer : Z := 8.

(** The [int] to [size_t] conversion of a [malloc] argument. *)
Definition size_t (n : Z) : Z := n mod 2 ^ 64.

(** [allocate_array]: [NULL] is [None].  The cells of a fresh array are
    indeterminate in C; the program writes each cell before it reads
    it, and the model fills them with [0]. *)
Definition allocate_array (size : Z) : option (list R) :=
  if malloc_ok (size_t (size_t size * sizeof_double))
  then Some (repeat 0%R (Z.to_nat size))
  else None.

(** [allocate_matrix]: the rows are allocated one by one, and the first
    refusal frees what was allocated and gives [NULL]. *)
Definition allocate_matrix (rows cols : Z) : option (list (list R)) :=
  if malloc_ok (size_t (size_t rows * sizeof_pointer))
  then
    match
      for_range_exit 0 rows
        (fun i matrix =>
           match allocate_array cols with
           | Some r => inl (store matrix i r)
           | None => inr tt
           end)
        (repeat [] (Z.to_nat rows))
    with
    | inl matrix => Some matrix
    | inr _ => None
    end
  else None.

(** The range of [int]. *)
Definition INT_MIN : Z := - 2147483648.
Definition INT_MAX : Z := 2147483647.

Definition in_int (z : Z) : bool := (INT_MIN <=? z) && (z <=? INT_MAX).

(** An [int] expression whose mathematical value is [z]: that value
    when it is representable, undefined behaviour when it is not. *)
Definition int_value (z : Z) : M Z :=
  fun st => if in_int z then (Done z, st) else (Crashed, st).

(** [random_int]: [rand() % max_val].  [%] truncates towards zero
    ([Z.rem]); a zero divisor is undefined behaviour and crashes. *)
Definition random_int (max_val : Z) : M Z :=
  fun st =>
    let (r, g) := rand (gen st) in
    let st' := {| seed_set := seed_set st; gen := g;
                  srand_log := srand_log st; stdout := stdout st |} in
    if max_val =? 0 then (Crashed, st')
    else (Done (Z.rem (Z.of_N r) max_val), st').

End Model.

Declare Scope m_scope.
Delimit Scope m_scope with M.
Notation "x <- m ;; k" := (bind m (fun x => k))
  (at level 61, m at next level, right associativity) : m_scope.
Notation "m ;;; k" := (bind m (fun _ => k))
  (at level 61, right associativity) : m_scope.

Open Scope m_scope.

Section Pipeline.
Context `{Libc}.

(** ** Loops with effects *)

Fixpoint for_loop_m {S : Type} (n : nat) (i : Z) (body : Z -> S -> M S)
    (s : S) : M S :=
  match n with
  | O => ret s
  | S n' => s' <- body i s ;; for_loop_m n' (i + 1) body s'
  end.

Definition for_range_m {S : Type} (lo hi : Z) (body : Z -> S -> M S)
    (s : S) : M S :=
  for_loop_m (Z.to_nat (hi - lo)) lo body s.

(** [while (cond) s = body s;] with at most [fuel] iterations of the
    body: the loop is the only one of the program without a bound of its
    own. *)
Fixpoint while_m {S : Type} (fuel : nat) (cond : S -> bool) (body : S -> M S)
    (s : S) : M S :=
  match fuel with
  | O => if cond s then timeout else ret s
  | S fuel' => if cond s then s' <- body s ;; while_m fuel' cond body s'
               else ret s
  end.

(** ** [moving_block_bootstrap] *)

(** [if (seed > 0 && !seed_set) { srand(seed); seed_set = 1; }] *)
Definition seed_once (seed : Z) : M unit :=
  fun st =>
    if (0 <? seed) && negb (seed_set st)
    then (Done tt,
          {| seed_set := true; gen := srand seed;
             srand_log := srand_log st ++ [seed]; stdout := stdout st |})
    else (Done tt, st).

(** The inner [for] of the bootstrap: copy the block that starts at
    [block_start] into row [bootstrap_idx], from column [sample_idx] on,
    until the block or the row ends.  The state is
    [(sample_idx, bootstrap_samples)]. *)
Definition copy_block (log_returns : list R) (sample_size block_size : Z)
    (bootstrap_idx block_start : Z) (s : Z * list R) : Z * list R :=
  for_range_cond 0 block_size
    (fun '(sample_idx, _) => sample_idx <? sample_size)
    (fun i '(sample_idx, bootstrap_samples) =>
       (sample_idx + 1,
        store bootstrap_samples (bootstrap_idx * sample_size + sample_idx)
              (rd log_returns (block_start + i))))
    s.

(** The [while] of the bootstrap: fill row [bootstrap_idx]. *)
Definition fill_row (fuel : nat) (log_returns : list R)
    (sample_size block_size n_blocks : Z) (bootstrap_idx : Z)
    (bootstrap_samples : list R) : M (Z * list R) :=
  while_m fuel
    (fun '(sample_idx, _) => sample_idx <? sample_size)
    (fun s =>
       block_start <- random_int n_blocks ;;
       ret (copy_block log_returns sample_size block_size
                       bootstrap_idx block_start s))
    (0, bootstrap_samples).

(** The body of the loop over the rows. *)
Definition row_iteration (fuel : nat) (log_returns : list R)
    (sample_size block_size n_blocks : Z)
    : Z -> list R -> M (list R) :=
  fun bootstrap_idx bootstrap_samples =>
    r <- fill_row fuel log_returns sample_size block_size n_blocks
                  bootstrap_idx bootstrap_samples ;;
    ret (snd r).

(** [None] is the [NULL] result.  [fuel] bounds the iterations of the
    [while] loop of each row. *)
Definition moving_block_bootstrap (fuel : nat) (log_returns : list R)
    (n_returns n_bootstrap sample_size block_size seed : Z)
    : M (option (list R)) :=
  seed_once seed ;;;
  if n_returns <? block_size then
    printf (InvalidInput n_returns block_size) ;;; ret None
  else
    let n_blocks := n_returns - block_size + 1 in
    size <- int_value (n_bootstrap * sample_size) ;;
    match allocate_array size with
    | None => printf AllocationError ;;; ret None
    | Some bootstrap_samples =>
        bootstrap_samples <-
          for_range_m 0 n_bootstrap
            (row_iteration fuel log_returns sample_size block_size n_blocks)
            bootstrap_samples ;;
        ret (Some bootstrap_samples)
    end.

(** ** [monte_carlo_simulation] *)

(** [if (iterations > n_bootstrap) printf("WARNING: ...");] *)
Definition warn_iterations (iterations n_bootstrap : Z) : M unit :=
  if n_bootstrap <? iterations then printf (Warning iterations n_bootstrap)
  else ret tt.

End Pipeline.

(** The version of [deadline/mbb]: terminal prices only. *)
Module Mbb.
Section Mbb.
Context `{Libc}.

(** The body of the loop over the iterations. *)
Definition iteration (S0 : R) (bootstrap_samples : list R)
    (n_bootstrap sample_size : Z) : Z -> list R -> M (list R) :=
  fun iter final_prices =>
    bootstrap_idx <- random_int n_bootstrap ;;
    let current_price :=
      for_range 0 sample_size
        (fun t current_price =>
           let log_return :=
             rd bootstrap_samples (bootstrap_idx * sample_size + t) in
           (current_price * exp log_return)%R)
        S0 in
    ret (store final_prices iter current_price).

Definition monte_carlo_simulation (S0 : R) (bootstrap_samples : list R)
    (n_bootstrap sample_size iterations : Z) : M (option (list R)) :=
  warn_iterations iterations n_bootstrap ;;;
  match allocate_array iterations with
  | None => printf AllocationError ;;; ret None
  | Some final_prices =>
      final_prices <-
        for_range_m 0 iterations
          (iteration S0 bootstrap_samples n_bootstrap sample_size)
          final_prices ;;
      ret (Some final_prices)
  end.
End Mbb.
End Mbb.

(** The version of [deadline/texto_trabalho_cribari/codes]: the result
    holds the [iterations] terminal prices, then the [iterations] paths of
    [sample_size] prices each.  The [seed] argument is not used. *)
Module Cribari.
Section Cribari.
Context `{Libc}.

(** What an iteration does to the result once its row is drawn. *)
Definition record_path (S0 : R) (bootstrap_samples : list R)
    (sample_size iterations : Z) (iter bootstrap_idx : Z) (results : list R)
    : list R :=
  (* Store initial price *)
  let results := store results (iterations + iter * sample_size) S0 in
  let '(current_price, results) :=
    for_range 0 sample_size
      (fun t '(current_price, results) =>
         let log_return :=
           rd bootstrap_samples (bootstrap_idx * sample_size + t) in
         let current_price := (current_price * exp log_return)%R in
         (* Store price at each time step *)
         (current_price,
          store results (iterations + iter * sample_size + t) current_price))
      (S0, results) in
  (* Store final price *)
  store results iter current_price.

(** The body of the loop over the iterations. *)
Definition iteration (S0 : R) (bootstrap_samples : list R)
    (n_bootstrap sample_size iterations : Z) : Z -> list R -> M (list R) :=
  fun iter results =>
    bootstrap_idx <- random_int n_bootstrap ;;
    ret (record_path S0 bootstrap_samples sample_size iterations
                     iter bootstrap_idx results).

Definition monte_carlo_simulation (S0 : R) (bootstrap_samples : list R)
    (n_bootstrap sample_size iterations seed : Z) : M (option (list R)) :=
  warn_iterations iterations n_bootstrap ;;;
  paths <- int_value (iterations * sample_size) ;;
  size <- int_value (iterations + paths) ;;
  match allocate_array size with
  | None => printf AllocationError ;;; ret None
  | Some results =>
      results <-
        for_range_m 0 iterations
          (iteration S0 bootstrap_samples n_bootstrap sample_size iterations)
          results ;;
      ret (Some results)
  end.

(** The two parts of the result. *)
Definition final_price (results : list R) (iter : Z) : R := rd results iter.
Definition path_price (results : list R) (iterations sample_size iter t : Z) : R :=
  rd results (iterations + iter * sample_size + t).
End Cribari.
End Cribari.

(** ** Portfolio evaluation and optimisation *)

Section Optimizer.
Context `{Libc}.
Open Scope R_scope.

Definition calculate_portfolio_returns (weights arrival_values : list R)
    (n_assets n_simulations : Z) : option (list R) :=
  match allocate_array n_simulations with
  | None => None
  | Some portfolio_values =>
      Some (for_range 0 n_simulations
              (fun sim portfolio_values =>
                 let value :=
                   for_range 0 n_assets
                     (fun asset value =>
                        value + rd weights asset
                                * rd arrival_values (sim * n_assets + asset))
                     0 in
                 store portfolio_values sim value)
              portfolio_values)
  end.

Definition calculate_sharpe_ratio (portfolio_values : list R) (n_values : Z)
    (risk_free_rate : R) : R :=
  if (n_values <=? 1)%Z then 0
  else
    let '(sum, sum_sq) :=
      for_range 0 n_values
        (fun i '(sum, sum_sq) =>
           (sum + rd portfolio_values i,
            sum_sq + rd portfolio_values i * rd portfolio_values i))
        (0, 0) in
    let mean := sum / IZR n_values in
    let variance := sum_sq / IZR n_values - mean * mean in
    let std_dev := sqrt variance in
    if Req_dec_T std_dev 0 then 0
    else (mean - risk_free_rate) / std_dev.

Definition negative_sharpe_ratio (weights arrival_values : list R)
    (n_assets n_simulations : Z) (risk_free_rate : R) : R :=
  match calculate_portfolio_returns weights arrival_values
                                    n_assets n_simulations with
  | None => 1e6
  | Some portfolio_values =>
      - calculate_sharpe_ratio portfolio_values n_simulations risk_free_rate
  end.

(** The parts of one round of [optimize_portfolio_newton_raphson], in
    the order of the source. *)
Section Round.
Variables (arrival_values : list R) (n_assets n_simulations : Z)
          (risk_free_rate tolerance : R).

(** [double h = 1e-6;] *)
Definition h : R := 1e-6.

(** Gradient and diagonal of the Hessian by finite differences.  The
    state is [(weights, gradient, hessian)]. *)
Definition differentiate (s : list R * list R * list (list R))
    : list R * list R * list (list R) :=
  for_range 0 n_assets
    (fun i '(weights, gradient, hessian) =>
       (* f(x+h) *)
       let weights := store weights i (rd weights i + h) in
       let f_forward :=
         negative_sharpe_ratio weights arrival_values n_assets
                               n_simulations risk_free_rate in
       (* f(x-h) *)
       let weights := store weights i (rd weights i - 2 * h) in
       let f_backward :=
         negative_sharpe_ratio weights arrival_values n_assets
                               n_simulations risk_free_rate in
       (* restore *)
       let weights := store weights i (rd weights i + h) in
       let gradient :=
         store gradient i ((f_forward - f_backward) / (2 * h)) in
       let hessian :=
         mwr hessian i i
             ((f_forward + f_backward
               - 2 * negative_sharpe_ratio weights arrival_values n_assets
                                           n_simulations risk_free_rate)
              / (h * h)) in
       let hessian := mwr hessian i i (mrd hessian i i + 1e-6) in
       (weights, gradient, hessian))
    s.

(** [if (i != j) hessian[i][j] = 0.0;] for all [i], [j]. *)
Definition zero_off_diagonal (hessian : list (list R)) : list (list R) :=
  for_range 0 n_assets
    (fun i hessian =>
       for_range 0 n_assets
         (fun j hessian =>
            if (i =? j)%Z then hessian else mwr hessian i j 0)
         hessian)
    hessian.

(** [delta[i] = -gradient[i] / hessian[i][i];] *)
Definition solve_diagonal (gradient : list R) (hessian : list (list R))
    (delta : list R) : list R :=
  for_range 0 n_assets
    (fun i delta =>
       store delta i ((- rd gradient i) / mrd hessian i i))
    delta.

(** [weights[i] += alpha * delta[i];] *)
Definition update_weights (alpha : R) (delta weights : list R) : list R :=
  for_range 0 n_assets
    (fun i weights => store weights i (rd weights i + alpha * rd delta i))
    weights.

(** Clamp at zero while summing, then divide by the sum when it is
    positive. *)
Definition project_simplex (weights : list R) : list R :=
  let '(weights, sum_weights) :=
    for_range 0 n_assets
      (fun i '(weights, sum_weights) =>
         let weights := store weights i (Rmax (rd weights i) 0) in
         (weights, sum_weights + rd weights i))
      (weights, 0) in
  if Rlt_dec 0 sum_weights
  then for_range 0 n_assets
         (fun i weights => store weights i (rd weights i / sum_weights))
         weights
  else weights.

(** One attempt of the line search: the body of the loop up to the
    evaluation of [f_new]. *)
Definition ls_attempt (alpha : R) (delta weights : list R) : list R :=
  project_simplex (update_weights alpha delta weights).

(** The backtracking loop; the state is [(weights, alpha)], and the
    loop is left ([inr]) when a step is accepted. *)
Definition line_search (f_current : R) (delta weights : list R) : list R :=
  match
    for_range_exit 0 10
      (fun ls_iter '(weights, alpha) =>
         let weights := ls_attempt alpha delta weights in
         let f_new :=
           negative_sharpe_ratio weights arrival_values n_assets
                                 n_simulations risk_free_rate in
         if Rlt_dec f_new f_current then inr weights
         else inl (weights, alpha * 0.5))
      (weights, 1)
  with
  | inl (weights, _) => weights
  | inr weights => weights
  end.

(** [sqrt] of the sum of the squares of the gradient. *)
Definition grad_norm (gradient : list R) : R :=
  sqrt (for_range 0 n_assets
          (fun i grad_norm => grad_norm + rd gradient i * rd gradient i)
          0).

(** The first half of a round: scratch allocation, derivatives and
    Newton direction.  [None] is the [return NULL] of a failed
    allocation; otherwise the weights as they are when [f_current] is
    evaluated, the gradient and [delta]. *)
Definition newton_direction (weights : list R)
    : option (list R * list R * list R) :=
  match allocate_matrix n_assets n_assets, allocate_array n_assets with
  | Some hessian, Some gradient =>
      let '(weights, gradient, hessian) :=
        differentiate (weights, gradient, hessian) in
      let hessian := zero_off_diagonal hessian in
      match allocate_array n_assets with
      | None => None
      | Some delta =>
          Some (weights, gradient, solve_diagonal gradient hessian delta)
      end
  | _, _ => None
  end.

(** One round: [inl] carries the weights to the next round,
    [inr (Some weights)] is the [break] of the convergence test,
    [inr None] the [return NULL]. *)
Definition newton_round (iter : Z) (weights : list R)
    : list R + option (list R) :=
  match newton_direction weights with
  | None => inr None
  | Some (weights, gradient, delta) =>
      let f_current :=
        negative_sharpe_ratio weights arrival_values n_assets
                              n_simulations risk_free_rate in
      let weights := line_search f_current delta weights in
      if Rlt_dec (grad_norm gradient) tolerance
      then inr (Some weights)
      else inl weights
  end.
End Round.

Definition optimize_portfolio_newton_raphson (arrival_values : list R)
    (n_assets n_simulations : Z) (initial_weights : list R)
    (risk_free_rate : R) (max_iterations : Z) (tolerance : R)
    : option (list R) :=
  match allocate_array n_assets with
  | None => None
  | Some weights =>
      let weights :=
        for_range 0 n_assets
          (fun i weights => store weights i (rd initial_weights i))
          weights in
      match
        for_range_exit 0 max_iterations
          (newton_round arrival_values n_assets n_simulations
                        risk_free_rate tolerance)
          weights
      with
      | inl weights => Some weights
      | inr r => r
      end
  end.

(** *** The line search in the words of the specification

    Attempt [k] (from [0]) applies the step [alpha * delta], with
    [alpha = 0.5 ^ k], to the weights the previous attempt left. *)
Fixpoint cumulative_attempt (n_assets : Z) (k : nat) (delta weights : list R)
    : list R :=
  match k with
  | O => ls_attempt n_assets 1 delta weights
  | S k' =>
      ls_attempt n_assets (0.5 ^ k) delta
                 (cumulative_attempt n_assets k' delta weights)
  end.

(** The weights attempt [k] starts from. *)
Definition attempt_start (n_assets : Z) (k : nat) (delta weights : list R)
    : list R :=
  match k with
  | O => weights
  | S k' => cumulative_attempt n_assets k' delta weights
  end.

(** What a line search that went back to the weights of the start of
    the round before each retry would try at attempt [k]. *)
Definition rolled_back_attempt (n_assets : Z) (k : nat) (delta weights : list R)
    : list R :=
  ls_attempt n_assets (0.5 ^ k) delta weights.

(** The sum of the first [n] cells. *)
Fixpoint vsum (n : nat) (a : list R) : R :=
  match n with
  | O => 0
  | S n' => vsum n' a + rd a (Z.of_nat n')
  end.

(** What the projection guarantees: no negative cell, and cells that
    sum to one unless all of them are zero. *)
Definition simplex_or_zero (n_assets : Z) (weights : list R) : Prop :=
  (forall i, (0 <= i < n_assets)%Z -> 0 <= rd weights i) /\
  (vsum (Z.to_nat n_assets) weights = 1 \/
   forall i, (0 <= i < n_assets)%Z -> rd weights i = 0).

(** The weights a round ends with, when it does not fail. *)
Definition round_weights (r : list R + option (list R)) : option (list R) :=
  match r with
  | inl weights => Some weights
  | inr r => r
  end.

End Optimizer.

(** ** The prices along a row and the rows drawn *)

(** The price reached after [t] steps along row [bootstrap_idx]: the
    inner loop of [monte_carlo_simulation], stopped at [t]. *)
Definition price_after (S0 : R) (bootstrap_samples : list R)
    (sample_size bootstrap_idx t : Z) : R :=
  for_range 0 t
    (fun u current_price =>
       (current_price
        * exp (rd bootstrap_samples (bootstrap_idx * sample_size + u)))%R)
    S0.

Section Draws.
Context `{Libc}.

(** The row indices that [n] successive iterations of
    [monte_carlo_simulation] draw. *)
Fixpoint draw_rows (n_bootstrap : Z) (n : nat) : M (list Z) :=
  match n with
  | O => ret []
  | S n' =>
      bootstrap_idx <- random_int n_bootstrap ;;
      rest <- draw_rows n_bootstrap n' ;;
      ret (bootstrap_idx :: rest)
  end.
End Draws.

(** ** Sequences of calls in one process *)

Section Calls.
Context `{Libc}.

(** A computation that leaves the flag and the log of [srand] alone. *)
Definition seeding_untouched {A : Type} (m : M A) : Prop :=
  forall st,
    seed_set (snd (m st)) = seed_set st /\
    srand_log (snd (m st)) = srand_log st.

(** A call of one of the functions that touch the process state, with
    its arguments. *)
Inductive call : Type :=
| CallBootstrap (fuel : nat) (log_returns : list R)
    (n_returns n_bootstrap sample_size block_size seed : Z)
| CallMonteCarlo (S0 : R) (bootstrap_samples : list R)
    (n_bootstrap sample_size iterations : Z)
| CallMonteCarloPaths (S0 : R) (bootstrap_samples : list R)
    (n_bootstrap sample_size iterations seed : Z).

Definition run_call (c : call) : M (option (list R)) :=
  match c with
  | CallBootstrap fuel log_returns n_returns n_bootstrap sample_size
                  block_size seed =>
      moving_block_bootstrap fuel log_returns n_returns n_bootstrap
                             sample_size block_size seed
  | CallMonteCarlo S0 bootstrap_samples n_bootstrap sample_size iterations =>
      Mbb.monte_carlo_simulation S0 bootstrap_samples n_bootstrap
                                 sample_size iterations
  | CallMonteCarloPaths S0 bootstrap_samples n_bootstrap sample_size
                        iterations seed =>
      Cribari.monte_carlo_simulation S0 bootstrap_samples n_bootstrap
                                     sample_size iterations seed
  end.

(** The calls one after the other; a call that crashes or does not
    end stops the process. *)
Fixpoint run_calls (cs : list call) : M unit :=
  match cs with
  | [] => ret tt
  | c :: cs' => run_call c ;;; run_calls cs'
  end.

(** The seed a call hands to [moving_block_bootstrap], when it is such
    a call and the seed is positive. *)
Definition seeding (c : call) : option Z :=
  match c with
  | CallBootstrap _ _ _ _ _ _ seed => if 0 <? seed then Some seed else None
  | _ => None
  end.

(** The seed of the first call of the sequence that has one. *)
Fixpoint first_seeding (cs : list call) : option Z :=
  match cs with
  | [] => None
  | c :: cs' => match seeding c with
                | Some seed => Some seed
                | None => first_seeding cs'
                end
  end.
End Calls.

(** ** The layout of the bootstrap samples *)

(** [0; 1; ...; n - 1] *)
Definition indices (n : Z) : list Z := map Z.of_nat (seq 0 (Z.to_nat n)).

(** Row [bootstrap_idx] of the sample set: the [sample_size] cells from
    [bootstrap_idx * sample_size] on. *)
Definition row (bootstrap_samples : list R) (sample_size bootstrap_idx : Z)
    : list R :=
  firstn (Z.to_nat sample_size)
         (skipn (Z.to_nat (bootstrap_idx * sample_size)) bootstrap_samples).

(** The block of the series that starts at [block_start]. *)
Definition block (log_returns : list R) (block_size block_start : Z) : list R :=
  map (fun i => rd log_returns (block_start + i)) (indices block_size).

(** The cells of row [j] hold a sequence of blocks that start below
    [n_blocks], all of them whole except, possibly, the last one. *)
Definition cells_of_blocks (log_returns : list R)
    (sample_size block_size n_blocks : Z) (bootstrap_samples : list R)
    (j : Z) : Prop :=
  exists starts,
    Forall (fun s => 0 <= s < n_blocks) starts /\
    (Z.of_nat (length starts) - 1) * block_size
    < sample_size <= Z.of_nat (length starts) * block_size /\
    forall u, 0 <= u < sample_size ->
      rd bootstrap_samples (j * sample_size + u)
      = nth (Z.to_nat u)
            (concat (map (block log_returns block_size) starts)) 0%R.

(** ** More of the source, and the closed forms its loops compute *)

Section MoreUtilities.
Context `{Libc}.

(** [random_double]: [(double)rand() / RAND_MAX].  [RAND_MAX] is a
    constant of the C library and is taken as a parameter. *)
Definition random_double (RAND_MAX : Z) : M R :=
  fun st =>
    let (r, g) := rand (gen st) in
    (Done (IZR (Z.of_N r) / IZR RAND_MAX)%R,
     {| seed_set := seed_set st; gen := g;
        srand_log := srand_log st; stdout := stdout st |}).

(** The generator state after [n] calls of [rand]. *)
Fixpoint rand_steps (n : nat) (g : rng) : rng :=
  match n with
  | O => g
  | S n' => rand_steps n' (snd (rand g))
  end.
End MoreUtilities.

(** The sum of [g 0], ..., [g (n - 1)]. *)
Fixpoint sum_upto (n : nat) (g : Z -> R) : R :=
  match n with
  | O => 0%R
  | S n' => (sum_upto n' g + g (Z.of_nat n'))%R
  end.

(** The sum of the positive parts of the first [n] cells: what the
    projection divides by. *)
Definition positive_sum (n : nat) (weights : list R) : R :=
  sum_upto n (fun j => Rmax (rd weights j) 0).

(** The value of the portfolio in simulation [sim]. *)
Definition portfolio_value (weights arrival_values : list R) (n_assets sim : Z)
    : R :=
  sum_upto (Z.to_nat n_assets)
           (fun asset =>
              (rd weights asset * rd arrival_values (sim * n_assets + asset))%R).

(** Mean and population variance of the first [n] cells, as
    [calculate_sharpe_ratio] computes them. *)
Definition mean_of (values : list R) (n : Z) : R :=
  (sum_upto (Z.to_nat n) (rd values) / IZR n)%R.

Definition variance_of (values : list R) (n : Z) : R :=
  (sum_upto (Z.to_nat n) (fun i => rd values i * rd values i) / IZR n
   - mean_of values n * mean_of values n)%R.

(** The sum of the [t] first log-returns of row [bootstrap_idx]. *)
Definition log_return_sum (bootstrap_samples : list R)
    (sample_size bootstrap_idx t : Z) : R :=
  sum_upto (Z.to_nat t)
           (fun u => rd bootstrap_samples (bootstrap_idx * sample_size + u)).

(** Row [i] of a matrix times a vector, over [n] columns. *)
Definition row_times (m : list (list R)) (v : list R) (n i : Z) : R :=
  sum_upto (Z.to_nat n) (fun j => (mrd m i j * rd v j)%R).

(** An [n] by [n] matrix, as [allocate_matrix(n, n)] lays it out. *)
Definition square (n : Z) (m : list (list R)) : Prop :=
  length m = Z.to_nat n /\
  forall i, 0 <= i < n -> length (load [] m i) = Z.to_nat n.

(** The weights with [d] added to weight [i]. *)
Definition shifted (weights : list R) (i : Z) (d : R) : list R :=
  store weights i (rd weights i + d)%R.

Section Output.
Context `{Libc}.

(** A computation that prints nothing. *)
Definition silent {A : Type} (m : M A) : Prop :=
  forall st, stdout (snd (m st)) = stdout st.
End Output.
(** * Properties *)

(** ** Arrays *)

Section ArrayFacts.
Context {A : Type}.
Implicit Types (a : list A) (v d : A).

Lemma length_upd n v a : length (upd n v a) = length a.
Proof.
  revert n; induction a as [|x t IH]; intros [|n]; simpl; auto.
Qed.

Lemma nth_upd_same n v a d : (n < length a)%nat -> nth n (upd n v a) d = v.
Proof.
  revert n; induction a as [|x t IH]; intros [|n]; simpl; intros Hn;
    try lia; auto.
  apply IH; lia.
Qed.

Lemma nth_upd_other n m v a d : n <> m -> nth m (upd n v a) d = nth m a d.
Proof.
  revert n m; induction a as [|x t IH]; intros [|n] [|m]; simpl; intros Hnm;
    try congruence; auto.
Qed.

Lemma length_store a i v : length (store a i v) = length a.
Proof.
  unfold store; destruct (i <? 0); auto using length_upd.
Qed.

Lemma load_store_same d a i v :
  0 <= i < Z.of_nat (length a) -> load d (store a i v) i = v.
Proof.
  intros Hi; unfold load, store.
  destruct (Z.ltb_spec i 0); [lia|].
  apply nth_upd_same; lia.
Qed.

Lemma load_store_other d a i j v :
  i <> j -> load d (store a i v) j = load d a j.
Proof.
  intros Hij; unfold load, store.
  destruct (Z.ltb_spec j 0); auto.
  destruct (Z.ltb_spec i 0); auto.
  apply nth_upd_other; lia.
Qed.

Lemma load_outside d a i :
  i < 0 \/ Z.of_nat (length a) <= i -> load d a i = d.
Proof.
  intros Hi; unfold load.
  destruct (Z.ltb_spec i 0); auto.
  apply nth_overflow; lia.
Qed.

Lemma store_outside a i v :
  i < 0 \/ Z.of_nat (length a) <= i -> store a i v = a.
Proof.
  intros Hi; unfold store.
  destruct (Z.ltb_spec i 0); auto.
  assert (Hn : (length a <= Z.to_nat i)%nat) by lia.
  revert Hn; generalize (Z.to_nat i); clear.
  induction a as [|x t IH]; intros [|n]; simpl; intros Hn; auto; try lia.
  f_equal; apply IH; lia.
Qed.
End ArrayFacts.

Lemma rd_store_same a i v :
  0 <= i < Z.of_nat (length a) -> rd (store a i v) i = v.
Proof. apply load_store_same. Qed.

Lemma rd_store_other a i j v : i <> j -> rd (store a i v) j = rd a j.
Proof. apply load_store_other. Qed.

(** ** Loops *)

Section LoopFacts.
Context {S : Type}.

(** Invariant rule for the counted loop. *)
Lemma for_loop_inv (P : Z -> S -> Prop) (body : Z -> S -> S) :
  forall n i s,
    P i s ->
    (forall j t, i <= j < i + Z.of_nat n -> P j t -> P (j + 1) (body j t)) ->
    P (i + Z.of_nat n) (for_loop n i body s).
Proof.
  induction n as [|n IH]; intros i s Hs Hstep.
  - simpl. replace (i + 0) with i by lia. exact Hs.
  - cbn [for_loop].
    replace (i + Z.of_nat (Datatypes.S n)) with ((i + 1) + Z.of_nat n) by lia.
    apply IH.
    + apply Hstep; [lia | exact Hs].
    + intros j t Hj. apply Hstep. lia.
Qed.

Lemma for_range_inv (P : Z -> S -> Prop) (body : Z -> S -> S) lo hi s :
  lo <= hi ->
  P lo s ->
  (forall j t, lo <= j < hi -> P j t -> P (j + 1) (body j t)) ->
  P hi (for_range lo hi body s).
Proof.
  intros Hle Hs Hstep. unfold for_range.
  replace hi with (lo + Z.of_nat (Z.to_nat (hi - lo))) at 1 by lia.
  apply for_loop_inv; auto.
  intros j t Hj. apply Hstep. lia.
Qed.

Lemma for_range_empty (body : Z -> S -> S) lo hi s :
  hi <= lo -> for_range lo hi body s = s.
Proof.
  intros Hle. unfold for_range.
  replace (Z.to_nat (hi - lo)) with O by lia. reflexivity.
Qed.

(** A property every iteration keeps holds after the loop, whatever
    its bounds. *)
Lemma for_range_keeps (P : S -> Prop) (body : Z -> S -> S) lo hi s :
  P s -> (forall j t, P t -> P (body j t)) -> P (for_range lo hi body s).
Proof.
  intros Hs Hstep. unfold for_range.
  generalize (Z.to_nat (hi - lo)) as n. intros n; revert lo s Hs.
  induction n as [|n IH]; intros lo s Hs; simpl; auto.
Qed.

(** A loop left early or run to its end, when it runs at least once:
    the state it ends with comes out of an iteration started in a state
    of the invariant. *)
Lemma for_loop_exit_last {E : Type} (I : S -> Prop) (body : Z -> S -> S + E) :
  (forall j s s', I s -> body j s = inl s' -> I s') ->
  forall n i s,
    I s -> (0 < n)%nat ->
    exists j s0, I s0 /\ body j s0 = for_loop_exit n i body s.
Proof.
  intros Hkeep. induction n as [|n IH]; intros i s Hs Hn; [lia|].
  cbn [for_loop_exit].
  destruct (body i s) as [s'|e] eqn:Hb.
  - destruct n as [|n].
    + simpl. exists i, s. auto.
    + apply IH; [eapply Hkeep; eauto | lia].
  - exists i, s. auto.
Qed.
End LoopFacts.

(** ** The projection onto the simplex *)

Section SimplexFacts.
Context `{Libc}.
Open Scope R_scope.

Lemma vsum_ext n a b :
  (forall j, (0 <= j < Z.of_nat n)%Z -> rd a j = rd b j) ->
  vsum n a = vsum n b.
Proof.
  induction n as [|n IH]; intros Hab; simpl; auto.
  rewrite IH, (Hab (Z.of_nat n)); auto; try lia.
  intros j Hj. apply Hab. lia.
Qed.

Lemma vsum_nonneg n a :
  (forall j, (0 <= j < Z.of_nat n)%Z -> 0 <= rd a j) -> 0 <= vsum n a.
Proof.
  induction n as [|n IH]; intros Ha; simpl; [lra|].
  assert (0 <= vsum n a) by (apply IH; intros j Hj; apply Ha; lia).
  assert (0 <= rd a (Z.of_nat n)) by (apply Ha; lia).
  lra.
Qed.

Lemma vsum_zero n a :
  (forall j, (0 <= j < Z.of_nat n)%Z -> 0 <= rd a j) ->
  vsum n a <= 0 ->
  forall j, (0 <= j < Z.of_nat n)%Z -> rd a j = 0.
Proof.
  induction n as [|n IH]; intros Ha Hsum j Hj; [lia|].
  simpl in Hsum.
  assert (0 <= vsum n a) by (apply vsum_nonneg; intros k Hk; apply Ha; lia).
  assert (0 <= rd a (Z.of_nat n)) by (apply Ha; lia).
  destruct (Z.eq_dec j (Z.of_nat n)) as [->|Hne]; [lra|].
  apply IH; auto; try lra; try lia.
  intros k Hk. apply Ha. lia.
Qed.

Lemma vsum_div n a b c :
  (forall j, (0 <= j < Z.of_nat n)%Z -> rd b j = rd a j / c) ->
  vsum n b = vsum n a / c.
Proof.
  induction n as [|n IH]; intros Hab; simpl.
  - unfold Rdiv. lra.
  - rewrite IH, (Hab (Z.of_nat n)); try lia.
    + unfold Rdiv. lra.
    + intros j Hj. apply Hab. lia.
Qed.

Lemma length_update_weights n_assets alpha delta weights :
  length (update_weights n_assets alpha delta weights) = length weights.
Proof.
  unfold update_weights.
  apply (for_range_keeps (fun w => length w = length weights)); auto.
  intros j t Ht. now rewrite length_store.
Qed.

(** The clamping loop: every cell becomes its positive part, and the
    running sum is the sum of the clamped cells. *)
Lemma clamp_sum_spec n_assets weights :
  length weights = Z.to_nat n_assets ->
  forall w s,
    for_range 0 n_assets
      (fun i '(weights, sum_weights) =>
         let weights := store weights i (Rmax (rd weights i) 0) in
         (weights, sum_weights + rd weights i))
      (weights, 0) = (w, s) ->
    length w = length weights /\
    (forall j, (0 <= j < n_assets)%Z -> rd w j = Rmax (rd weights j) 0) /\
    s = vsum (Z.to_nat n_assets) w.
Proof.
  intros Hlen w s.
  destruct (Z.le_gt_cases 0 n_assets) as [Hn|Hn].
  - set (body := fun (i : Z) '(weights, sum_weights) =>
         let weights : list R := store weights i (Rmax (rd weights i) 0) in
         (weights, sum_weights + rd weights i)).
    pose (P := fun (i : Z) (st : list R * R) =>
                 length (fst st) = length weights /\
                 (forall j, (0 <= j < i)%Z ->
                            rd (fst st) j = Rmax (rd weights j) 0) /\
                 (forall j, (i <= j)%Z -> rd (fst st) j = rd weights j) /\
                 snd st = vsum (Z.to_nat i) (fst st)).
    assert (HP : P n_assets (for_range 0 n_assets body (weights, 0))).
    { apply for_range_inv; auto.
      - unfold P; simpl. repeat split; auto. intros j Hj. lia.
      - intros j [w' s'] Hj (Hl & Hlo & Hhi & Hs). unfold P, body; simpl in *.
        assert (Hin : (0 <= j < Z.of_nat (length w'))%Z) by lia.
        repeat split.
        + now rewrite length_store.
        + intros k Hk. destruct (Z.eq_dec k j) as [->|Hne].
          * rewrite rd_store_same by auto. now rewrite Hhi by lia.
          * rewrite rd_store_other by auto. apply Hlo. lia.
        + intros k Hk. rewrite rd_store_other by lia. apply Hhi. lia.
        + replace (Z.to_nat (j + 1)) with (Datatypes.S (Z.to_nat j)) by lia.
          simpl. rewrite Z2Nat.id by lia. rewrite Hs. f_equal.
          apply vsum_ext. intros k Hk. rewrite rd_store_other by lia. auto. }
    intros Heq. fold body in Heq. rewrite Heq in HP.
    destruct HP as (Hl & Hlo & _ & Hs). simpl in *. auto.
  - rewrite for_range_empty by lia. intros Heq; inversion Heq; subst.
    replace (Z.to_nat n_assets) with O by lia. simpl.
    repeat split; auto. intros j Hj. lia.
Qed.

(** The normalising loop divides every cell by the sum. *)
Lemma normalize_spec n_assets (s : R) weights :
  length weights = Z.to_nat n_assets ->
  let w := for_range 0 n_assets
             (fun i weights => store weights i (rd weights i / s)) weights in
  length w = length weights /\
  (forall j, (0 <= j < n_assets)%Z -> rd w j = rd weights j / s).
Proof.
  intros Hlen.
  destruct (Z.le_gt_cases 0 n_assets) as [Hn|Hn].
  - pose (P := fun (i : Z) (w : list R) =>
                 length w = length weights /\
                 (forall j, (0 <= j < i)%Z -> rd w j = rd weights j / s) /\
                 (forall j, (i <= j)%Z -> rd w j = rd weights j)).
    cut (P n_assets (for_range 0 n_assets
                       (fun i weights => store weights i (rd weights i / s))
                       weights)).
    { intros (Hl & Hlo & _). auto. }
    apply for_range_inv; auto.
    + unfold P. repeat split; auto. intros j Hj. lia.
    + intros j w' Hj (Hl & Hlo & Hhi). unfold P.
      assert (Hin : (0 <= j < Z.of_nat (length w'))%Z) by lia.
      repeat split.
      * now rewrite length_store.
      * intros k Hk. destruct (Z.eq_dec k j) as [->|Hne].
        -- rewrite rd_store_same by auto. now rewrite Hhi by lia.
        -- rewrite rd_store_other by auto. apply Hlo. lia.
      * intros k Hk. rewrite rd_store_other by lia. apply Hhi. lia.
  - rewrite for_range_empty by lia. split; auto. intros j Hj. lia.
Qed.

Lemma project_simplex_spec n_assets weights :
  length weights = Z.to_nat n_assets ->
  length (project_simplex n_assets weights) = length weights /\
  simplex_or_zero n_assets (project_simplex n_assets weights).
Proof.
  intros Hlen. unfold project_simplex.
  destruct (for_range 0 n_assets _ (weights, 0)) as [w s] eqn:Hclamp.
  apply clamp_sum_spec in Hclamp; auto.
  destruct Hclamp as (Hl & Hw & Hs).
  assert (Hpos : forall j, (0 <= j < n_assets)%Z -> 0 <= rd w j).
  { intros j Hj. rewrite Hw by auto. apply Rmax_r. }
  destruct (Rlt_dec 0 s) as [Hs0|Hs0].
  - destruct (normalize_spec n_assets s w) as (Hl' & Hw'); [lia|].
    split; [lia|]. split.
    + intros i Hi. rewrite Hw' by auto.
      apply Rmult_le_pos; auto.
      left. now apply Rinv_0_lt_compat.
    + left. rewrite (vsum_div _ w _ s).
      * rewrite <- Hs. field. lra.
      * intros j Hj. apply Hw'. lia.
  - split; auto. split; auto. right.
    intros i Hi. apply (vsum_zero (Z.to_nat n_assets)); try lia.
    + intros j Hj. apply Hpos. lia.
    + lra.
Qed.
End SimplexFacts.

(** ** The line search *)

Section LineSearchFacts.
Context `{Libc}.
Open Scope R_scope.

Variables (arrival_values : list R) (n_assets n_simulations : Z)
          (risk_free_rate : R).

Local Abbreviation f weights :=
  (negative_sharpe_ratio weights arrival_values n_assets n_simulations
                         risk_free_rate).

Local Abbreviation before := (attempt_start n_assets).

Lemma cumulative_attempt_before k delta weights :
  cumulative_attempt n_assets k delta weights =
  ls_attempt n_assets (0.5 ^ k) delta (before k delta weights).
Proof. destruct k; reflexivity. Qed.

Lemma length_ls_attempt alpha delta weights :
  length weights = Z.to_nat n_assets ->
  length (ls_attempt n_assets alpha delta weights) = length weights.
Proof.
  intros Hlen. unfold ls_attempt.
  destruct (project_simplex_spec n_assets
              (update_weights n_assets alpha delta weights)) as [Hl _].
  - now rewrite length_update_weights.
  - now rewrite Hl, length_update_weights.
Qed.

Lemma ls_attempt_simplex alpha delta weights :
  length weights = Z.to_nat n_assets ->
  simplex_or_zero n_assets (ls_attempt n_assets alpha delta weights).
Proof.
  intros Hlen. unfold ls_attempt.
  apply project_simplex_spec. now rewrite length_update_weights.
Qed.

(** The loop of the line search, entered at attempt [k] with [n]
    attempts left. *)
Lemma line_search_loop f_current delta weights :
  forall n k i,
    match
      for_loop_exit n i
        (fun (ls_iter : Z) '(weights, alpha) =>
           let weights := ls_attempt n_assets alpha delta weights in
           let f_new := f weights in
           if Rlt_dec f_new f_current then inr weights
           else inl (weights, alpha * 0.5))
        (before k delta weights, 0.5 ^ k)
    with
    | inr w =>
        exists j, (k <= j < k + n)%nat /\
                  w = cumulative_attempt n_assets j delta weights /\
                  f w < f_current /\
                  forall j', (k <= j' < j)%nat ->
                    ~ f (cumulative_attempt n_assets j' delta weights)
                      < f_current
    | inl (w, alpha) =>
        w = before (k + n) delta weights /\ alpha = 0.5 ^ (k + n) /\
        forall j', (k <= j' < k + n)%nat ->
          ~ f (cumulative_attempt n_assets j' delta weights) < f_current
    end.
Proof.
  induction n as [|n IH]; intros k i.
  - simpl. rewrite Nat.add_0_r. repeat split; auto. intros j' Hj'. lia.
  - cbn [for_loop_exit].
    rewrite <- cumulative_attempt_before.
    destruct (Rlt_dec _ f_current) as [Hacc|Hrej].
    + exists k. split; [lia|]. split; [reflexivity|]. split; [exact Hacc|].
      intros j' Hj'. lia.
    + replace (0.5 ^ k * 0.5) with (0.5 ^ S k) by (simpl; lra).
      change (cumulative_attempt n_assets k delta weights)
        with (before (S k) delta weights).
      specialize (IH (S k) (i + 1)%Z).
      destruct (for_loop_exit n (i + 1) _ _) as [[w alpha]|w].
      * destruct IH as (Hw & Ha & Hno).
        replace (k + S n)%nat with (S k + n)%nat by lia.
        repeat split; auto.
        intros j' Hj'. destruct (Nat.eq_dec j' k) as [->|Hne]; auto.
        apply Hno. lia.
      * destruct IH as (j & Hj & Hw & Hlt & Hno).
        exists j. repeat split; auto; try lia.
        intros j' Hj'. destruct (Nat.eq_dec j' k) as [->|Hne]; auto.
        apply Hno. lia.
Qed.

(** The line search ends with the weights of the first attempt that
    improves on [f_current], or with those of the tenth attempt when
    none does. *)
Lemma line_search_spec f_current delta weights :
  exists k, (k < 10)%nat /\
    line_search arrival_values n_assets n_simulations risk_free_rate
                f_current delta weights
    = cumulative_attempt n_assets k delta weights /\
    (forall j, (j < k)%nat ->
       ~ f (cumulative_attempt n_assets j delta weights) < f_current) /\
    (f (cumulative_attempt n_assets k delta weights) < f_current \/
     (k = 9%nat /\
      ~ f (cumulative_attempt n_assets k delta weights) < f_current)).
Proof.
  unfold line_search, for_range_exit. change (Z.to_nat (10 - 0)) with 10%nat.
  pose proof (line_search_loop f_current delta weights 10 0 0%Z) as Hloop.
  change (before 0 delta weights, 0.5 ^ 0) with (weights, 1) in Hloop.
  destruct (for_loop_exit 10 0 _ (weights, 1)) as [[w alpha]|w].
  - destruct Hloop as (Hw & _ & Hno).
    exists 9%nat. split; [lia|]. split; [exact Hw|]. split.
    + intros j Hj. apply Hno. lia.
    + right. split; auto. apply Hno. lia.
  - destruct Hloop as (j & Hj & Hw & Hlt & Hno).
    exists j. subst w. split; [lia|]. split; [reflexivity|]. split.
    + intros j' Hj'. apply Hno. lia.
    + left. exact Hlt.
Qed.

Lemma length_cumulative_attempt k delta weights :
  length weights = Z.to_nat n_assets ->
  length (cumulative_attempt n_assets k delta weights) = length weights.
Proof.
  intros Hlen. induction k as [|k IH]; simpl.
  - now apply length_ls_attempt.
  - rewrite length_ls_attempt; auto. lia.
Qed.

Lemma cumulative_attempt_simplex k delta weights :
  length weights = Z.to_nat n_assets ->
  simplex_or_zero n_assets (cumulative_attempt n_assets k delta weights).
Proof.
  intros Hlen. rewrite cumulative_attempt_before.
  apply ls_attempt_simplex.
  destruct k; simpl; auto.
  rewrite length_cumulative_attempt; auto.
Qed.
End LineSearchFacts.

(** ** The optimizer *)

Section OptimizerFacts.
Context `{Libc}.
Open Scope R_scope.

Lemma for_loop_exit_inr {S E : Type} (Q : E -> Prop) (body : Z -> S -> S + E) :
  (forall j s e, body j s = inr e -> Q e) ->
  forall n i s e, for_loop_exit n i body s = inr e -> Q e.
Proof.
  intros Hbody. induction n as [|n IH]; intros i s e; simpl; [discriminate|].
  destruct (body i s) as [s'|e'] eqn:Hb.
  - apply IH.
  - intros Heq; inversion Heq; subst. eapply Hbody; eauto.
Qed.

Lemma allocate_array_length size a :
  allocate_array size = Some a -> length a = Z.to_nat size.
Proof.
  unfold allocate_array. destruct (malloc_ok _); [|discriminate].
  intros Heq; inversion Heq. apply repeat_length.
Qed.

Lemma allocate_array_granted size :
  malloc_ok (size_t (size_t size * sizeof_double)) = true ->
  allocate_array size = Some (repeat 0 (Z.to_nat size)).
Proof. unfold allocate_array. now intros ->. Qed.

Lemma allocate_matrix_granted rows cols :
  malloc_ok (size_t (size_t rows * sizeof_pointer)) = true ->
  malloc_ok (size_t (size_t cols * sizeof_double)) = true ->
  exists m, allocate_matrix rows cols = Some m.
Proof.
  intros Hrows Hcols. unfold allocate_matrix. rewrite Hrows.
  destruct (for_range_exit 0 rows _ _) as [m|[]] eqn:Hloop; eauto.
  exfalso. unfold for_range_exit in Hloop.
  apply (for_loop_exit_inr (fun _ => False)) in Hloop; auto.
  intros j s e. rewrite (allocate_array_granted cols Hcols). discriminate.
Qed.

Section Round.
Variables (arrival_values : list R) (n_assets n_simulations : Z)
          (risk_free_rate tolerance : R).

Lemma differentiate_length weights gradient hessian :
  length (fst (fst (differentiate arrival_values n_assets n_simulations
                                  risk_free_rate
                                  (weights, gradient, hessian))))
  = length weights.
Proof.
  unfold differentiate.
  apply (for_range_keeps
           (fun s : list R * list R * list (list R) =>
              length (fst (fst s)) = length weights)); auto.
  intros j [[w g] hs] Hw. simpl in *. now rewrite !length_store.
Qed.

(** In exact arithmetic the finite differences put every weight back
    where it was. *)
Lemma differentiate_weights weights gradient hessian :
  forall j,
    rd (fst (fst (differentiate arrival_values n_assets n_simulations
                                risk_free_rate
                                (weights, gradient, hessian)))) j
    = rd weights j.
Proof.
  unfold differentiate.
  apply (for_range_keeps
           (fun s : list R * list R * list (list R) =>
              forall j, rd (fst (fst s)) j = rd weights j)); auto.
  intros i [[w g] hs] Hw j. simpl in *.
  destruct (Z.eq_dec i j) as [<-|Hne].
  - destruct (Z.lt_ge_cases i 0) as [Hneg|Hpos];
      [|destruct (Z.lt_ge_cases i (Z.of_nat (length w))) as [Hin|Hout]].
    + rewrite !(store_outside _ i) by (rewrite ?length_store; lia).
      apply Hw.
    + rewrite !rd_store_same by (rewrite ?length_store; lia).
      rewrite <- Hw. lra.
    + rewrite !(store_outside _ i) by (rewrite ?length_store; lia).
      apply Hw.
  - rewrite !rd_store_other by auto. apply Hw.
Qed.

Lemma newton_direction_weights weights w gradient delta :
  newton_direction arrival_values n_assets n_simulations risk_free_rate
                   weights = Some (w, gradient, delta) ->
  forall j, rd w j = rd weights j.
Proof.
  unfold newton_direction.
  destruct (allocate_matrix n_assets n_assets) as [hs|]; [|discriminate].
  destruct (allocate_array n_assets) as [g|]; [|discriminate].
  pose proof (differentiate_weights weights g hs) as Hw.
  destruct (differentiate _ _ _ _ _) as [[w1 g1] hs1]. simpl in Hw.
  intros Heq; inversion Heq; subst. exact Hw.
Qed.

Lemma newton_direction_length weights w gradient delta :
  newton_direction arrival_values n_assets n_simulations risk_free_rate
                   weights = Some (w, gradient, delta) ->
  length w = length weights.
Proof.
  unfold newton_direction.
  destruct (allocate_matrix n_assets n_assets) as [hs|]; [|discriminate].
  destruct (allocate_array n_assets) as [g|]; [|discriminate].
  pose proof (differentiate_length weights g hs) as Hlen.
  destruct (differentiate _ _ _ _ _) as [[w1 g1] hs1]. simpl in Hlen.
  intros Heq; inversion Heq; subst. exact Hlen.
Qed.

Lemma newton_direction_granted weights :
  malloc_ok (size_t (size_t n_assets * sizeof_double)) = true ->
  newton_direction arrival_values n_assets n_simulations risk_free_rate
                   weights <> None.
Proof.
  intros Hok. unfold newton_direction.
  destruct (allocate_matrix_granted n_assets n_assets Hok Hok) as [m ->].
  rewrite (allocate_array_granted n_assets Hok).
  destruct (differentiate _ _ _ _ _) as [[w1 g1] hs1]. discriminate.
Qed.

(** A round that does not fail leaves weights that came out of the
    projection. *)
Lemma newton_round_simplex iter weights r :
  length weights = Z.to_nat n_assets ->
  newton_round arrival_values n_assets n_simulations risk_free_rate
               tolerance iter weights = r ->
  match r with
  | inl w | inr (Some w) =>
      length w = Z.to_nat n_assets /\ simplex_or_zero n_assets w
  | inr None => True
  end.
Proof.
  intros Hlen <-. unfold newton_round.
  destruct (newton_direction _ _ _ _ _) as [[[w g] d]|] eqn:Hdir; auto.
  apply newton_direction_length in Hdir.
  destruct (line_search_spec arrival_values n_assets n_simulations
              risk_free_rate
              (negative_sharpe_ratio w arrival_values n_assets
                                     n_simulations risk_free_rate) d w)
    as (k & _ & -> & _).
  assert (Hw : length w = Z.to_nat n_assets) by lia.
  destruct (Rlt_dec _ tolerance); split;
    try (rewrite length_cumulative_attempt; auto);
    apply cumulative_attempt_simplex; auto.
Qed.

Lemma newton_round_granted iter weights :
  malloc_ok (size_t (size_t n_assets * sizeof_double)) = true ->
  newton_round arrival_values n_assets n_simulations risk_free_rate
               tolerance iter weights <> inr None.
Proof.
  intros Hok. unfold newton_round.
  pose proof (newton_direction_granted weights Hok) as Hdir.
  destruct (newton_direction _ _ _ _ _) as [[[w g] d]|]; [|congruence].
  destruct (Rlt_dec _ tolerance); discriminate.
Qed.
End Round.

(** The weights the optimizer starts from: a fresh array of [n_assets]
    cells holding the initial weights. *)
Lemma initial_copy_length n_assets initial_weights weights :
  length weights = Z.to_nat n_assets ->
  length (for_range 0 n_assets
            (fun i weights => store weights i (rd initial_weights i))
            weights) = Z.to_nat n_assets.
Proof.
  intros Hlen.
  apply (for_range_keeps (fun w : list R => length w = Z.to_nat n_assets));
    auto.
  intros j t Ht. now rewrite length_store.
Qed.
End OptimizerFacts.

(** ** The seeding state *)

Section SeedingFacts.
Context `{Libc}.

Lemma untouched_ret {A : Type} (a : A) : seeding_untouched (ret a).
Proof. intros st. auto. Qed.

Lemma untouched_crash {A : Type} : seeding_untouched (@crash _ A).
Proof. intros st. auto. Qed.

Lemma untouched_timeout {A : Type} : seeding_untouched (@timeout _ A).
Proof. intros st. auto. Qed.

Lemma untouched_printf m : seeding_untouched (printf m).
Proof. intros st. auto. Qed.

(** A size expression that is representable is its value. *)
Lemma bind_int_value {A : Type} z (k : Z -> M A) st :
  in_int z = true -> bind (int_value z) k st = k z st.
Proof.
  intros Hz. unfold bind, int_value. now rewrite Hz.
Qed.

Lemma bind_int_overflow {A : Type} z (k : Z -> M A) st :
  in_int z = false -> bind (int_value z) k st = (Crashed, st).
Proof.
  intros Hz. unfold bind, int_value. now rewrite Hz.
Qed.

Lemma in_int_bounds z : in_int z = true <-> INT_MIN <= z <= INT_MAX.
Proof.
  unfold in_int. rewrite andb_true_iff, !Z.leb_le. reflexivity.
Qed.

Lemma untouched_int_value z : seeding_untouched (int_value z).
Proof.
  intros st. unfold int_value. destruct (in_int z); auto.
Qed.

Lemma untouched_random_int max_val : seeding_untouched (random_int max_val).
Proof.
  intros st. unfold random_int.
  destruct (rand (gen st)) as [r g]. destruct (max_val =? 0); auto.
Qed.

Lemma untouched_bind {A B : Type} (m : M A) (k : A -> M B) :
  seeding_untouched m -> (forall a, seeding_untouched (k a)) ->
  seeding_untouched (bind m k).
Proof.
  intros Hm Hk st. unfold bind.
  specialize (Hm st). destruct (m st) as [[a| |] st']; simpl in *; auto.
  destruct Hm as [Hm1 Hm2].
  destruct (Hk a st') as [Hflag Hlog]. split; congruence.
Qed.

Lemma untouched_for_loop_m {S : Type} (body : Z -> S -> M S) :
  (forall i s, seeding_untouched (body i s)) ->
  forall n i s, seeding_untouched (for_loop_m n i body s).
Proof.
  intros Hbody. induction n as [|n IH]; intros i s; simpl.
  - apply untouched_ret.
  - apply untouched_bind; auto.
Qed.

Lemma untouched_while_m {S : Type} (cond : S -> bool) (body : S -> M S) :
  (forall s, seeding_untouched (body s)) ->
  forall fuel s, seeding_untouched (while_m fuel cond body s).
Proof.
  intros Hbody. induction fuel as [|fuel IH]; intros s; simpl;
    destruct (cond s);
    auto using untouched_ret, untouched_timeout, untouched_bind.
Qed.

Lemma untouched_warn_iterations iterations n_bootstrap :
  seeding_untouched (warn_iterations iterations n_bootstrap).
Proof.
  unfold warn_iterations. destruct (n_bootstrap <? iterations);
    auto using untouched_ret, untouched_printf.
Qed.

Lemma untouched_monte_carlo S0 bootstrap_samples n_bootstrap sample_size
    iterations :
  seeding_untouched
    (Mbb.monte_carlo_simulation S0 bootstrap_samples n_bootstrap sample_size
                                iterations).
Proof.
  unfold Mbb.monte_carlo_simulation.
  apply untouched_bind; [apply untouched_warn_iterations|intros _].
  destruct (allocate_array iterations).
  - apply untouched_bind; [|intros; apply untouched_ret].
    apply untouched_for_loop_m. intros i s.
    apply untouched_bind; [apply untouched_random_int|].
    intros; apply untouched_ret.
  - apply untouched_bind; [apply untouched_printf|intros; apply untouched_ret].
Qed.

Lemma untouched_monte_carlo_paths S0 bootstrap_samples n_bootstrap sample_size
    iterations seed :
  seeding_untouched
    (Cribari.monte_carlo_simulation S0 bootstrap_samples n_bootstrap
                                    sample_size iterations seed).
Proof.
  unfold Cribari.monte_carlo_simulation.
  apply untouched_bind; [apply untouched_warn_iterations|intros _].
  apply untouched_bind; [apply untouched_int_value|intros paths].
  apply untouched_bind; [apply untouched_int_value|intros size].
  destruct (allocate_array _).
  - apply untouched_bind; [|intros; apply untouched_ret].
    apply untouched_for_loop_m. intros i s.
    apply untouched_bind; [apply untouched_random_int|].
    intros; apply untouched_ret.
  - apply untouched_bind; [apply untouched_printf|intros; apply untouched_ret].
Qed.

(** What follows the seeding in [moving_block_bootstrap]. *)
Lemma untouched_fill_row fuel log_returns sample_size block_size n_blocks
    bootstrap_idx bootstrap_samples :
  seeding_untouched
    (fill_row fuel log_returns sample_size block_size n_blocks bootstrap_idx
              bootstrap_samples).
Proof.
  unfold fill_row. apply untouched_while_m. intros s.
  apply untouched_bind; [apply untouched_random_int|].
  intros; apply untouched_ret.
Qed.

(** The effect of a call of [moving_block_bootstrap] on the seeding
    state, however the call ends. *)
Lemma bootstrap_seeding fuel log_returns n_returns n_bootstrap sample_size
    block_size seed st :
  let st' := snd (moving_block_bootstrap fuel log_returns n_returns
                    n_bootstrap sample_size block_size seed st) in
  if (0 <? seed) && negb (seed_set st)
  then seed_set st' = true /\ srand_log st' = srand_log st ++ [seed]
  else seed_set st' = seed_set st /\ srand_log st' = srand_log st.
Proof.
  intros st'. subst st'.
  unfold moving_block_bootstrap.
  match goal with
  | |- context [bind (seed_once seed) (fun _ => ?r)] => set (rest := r)
  end.
  assert (Hrest : seeding_untouched rest).
  { unfold rest. destruct (n_returns <? block_size).
    - apply untouched_bind; [apply untouched_printf|intros; apply untouched_ret].
    - apply untouched_bind; [apply untouched_int_value|intros size].
      destruct (allocate_array _).
      + apply untouched_bind; [|intros; apply untouched_ret].
        apply untouched_for_loop_m. intros i s.
        apply untouched_bind; [apply untouched_fill_row|].
        intros; apply untouched_ret.
      + apply untouched_bind; [apply untouched_printf|].
        intros; apply untouched_ret. }
  unfold bind, seed_once.
  destruct ((0 <? seed) && negb (seed_set st)).
  - match goal with
    | |- context [rest ?s] => destruct (Hrest s) as [Hflag Hlog]
    end.
    rewrite Hflag, Hlog. simpl. auto.
  - apply Hrest.
Qed.

Lemma run_call_seeding c st :
  let st' := snd (run_call c st) in
  match seeding c with
  | Some seed =>
      if seed_set st
      then seed_set st' = true /\ srand_log st' = srand_log st
      else seed_set st' = true /\ srand_log st' = srand_log st ++ [seed]
  | None => seed_set st' = seed_set st /\ srand_log st' = srand_log st
  end.
Proof.
  destruct c; simpl.
  - pose proof (bootstrap_seeding fuel log_returns n_returns n_bootstrap
                  sample_size block_size seed st) as Hb.
    cbv zeta in Hb. destruct (0 <? seed); simpl in Hb.
    + destruct (seed_set st) eqn:Hset; simpl in Hb; auto.
    + exact Hb.
  - apply untouched_monte_carlo.
  - apply untouched_monte_carlo_paths.
Qed.

(** Once the flag is set no sequence of calls seeds again. *)
Lemma run_calls_seeded cs :
  forall st, seed_set st = true ->
    seed_set (snd (run_calls cs st)) = true /\
    srand_log (snd (run_calls cs st)) = srand_log st.
Proof.
  induction cs as [|c cs IH]; intros st Hset; simpl; auto.
  unfold bind. pose proof (run_call_seeding c st) as Hc. cbv zeta in Hc.
  rewrite Hset in Hc.
  assert (Hst : seed_set (snd (run_call c st)) = true /\
                srand_log (snd (run_call c st)) = srand_log st).
  { destruct (seeding c); destruct Hc; split; congruence. }
  destruct (run_call c st) as [[a| |] st']; simpl in *; auto.
  destruct Hst as [Hs1 Hs2]. destruct (IH st' Hs1) as [IH1 IH2].
  split; congruence.
Qed.

(** From a state that was never seeded: the log gains at most the seed
    of the first call that has one, and gains exactly that when every
    call returns. *)
Lemma run_calls_unseeded cs :
  forall st, seed_set st = false ->
    let st' := snd (run_calls cs st) in
    (srand_log st' = srand_log st \/
     exists seed, first_seeding cs = Some seed /\
                  srand_log st' = srand_log st ++ [seed]) /\
    (fst (run_calls cs st) = Done tt ->
     srand_log st' = srand_log st ++ match first_seeding cs with
                                     | Some seed => [seed]
                                     | None => []
                                     end).
Proof.
  induction cs as [|c cs IH]; intros st Hset; simpl.
  - split; auto. intros _. now rewrite app_nil_r.
  - unfold bind. pose proof (run_call_seeding c st) as Hc. cbv zeta in Hc.
    rewrite Hset in Hc.
    destruct (seeding c) as [seed|] eqn:Hseed.
    + destruct Hc as [Hflag Hlog].
      destruct (run_call c st) as [[a| |] st']; simpl in *; eauto.
      destruct (run_calls_seeded cs st' Hflag) as [_ Hkeep].
      rewrite Hkeep, Hlog. eauto.
    + destruct Hc as [Hflag Hlog].
      destruct (run_call c st) as [[a| |] st']; simpl in *;
        try (split; [auto | discriminate]).
      destruct (IH st') as [IH1 IH2]; [congruence|].
      rewrite <- Hlog. split; auto.
Qed.
End SeedingFacts.

(** ** The Monte Carlo simulation *)

Section PriceFacts.
Open Scope R_scope.

Lemma for_loop_snoc {S : Type} (body : Z -> S -> S) :
  forall n i s,
    for_loop (Datatypes.S n) i body s
    = body (i + Z.of_nat n)%Z (for_loop n i body s).
Proof.
  induction n as [|n IH]; intros i s.
  - simpl. now replace (i + 0)%Z with i by lia.
  - change (for_loop (Datatypes.S (Datatypes.S n)) i body s)
      with (for_loop (Datatypes.S n) (i + 1) body (body i s)).
    rewrite IH. cbn [for_loop].
    now replace (i + 1 + Z.of_nat n)%Z
      with (i + Z.of_nat (Datatypes.S n))%Z by lia.
Qed.

Variables (S0 : R) (bootstrap_samples : list R)
          (sample_size bootstrap_idx : Z).

Lemma price_after_start t :
  (t <= 0)%Z ->
  price_after S0 bootstrap_samples sample_size bootstrap_idx t = S0.
Proof. intros Ht. unfold price_after. now rewrite for_range_empty. Qed.

Lemma price_after_step t :
  (0 <= t)%Z ->
  price_after S0 bootstrap_samples sample_size bootstrap_idx (t + 1)
  = price_after S0 bootstrap_samples sample_size bootstrap_idx t
    * exp (rd bootstrap_samples (bootstrap_idx * sample_size + t)).
Proof.
  intros Ht. unfold price_after, for_range.
  replace (Z.to_nat (t + 1 - 0)) with (Datatypes.S (Z.to_nat (t - 0))) by lia.
  rewrite for_loop_snoc. do 3 f_equal. lia.
Qed.


(** The inner loop of the version that keeps the paths: the running
    price, and the cells from [base] on. *)
Lemma path_loop_spec (base : Z) (results : list R) :
  forall current_price results',
    for_range 0 sample_size
      (fun t '(current_price, results) =>
         let log_return :=
           rd bootstrap_samples (bootstrap_idx * sample_size + t) in
         let current_price := current_price * exp log_return in
         (current_price, store results (base + t) current_price))
      (S0, results) = (current_price, results') ->
    current_price
    = price_after S0 bootstrap_samples sample_size bootstrap_idx sample_size /\
    length results' = length results /\
    (forall t, (0 <= t < sample_size)%Z ->
               (0 <= base + t < Z.of_nat (length results))%Z ->
               rd results' (base + t)
               = price_after S0 bootstrap_samples sample_size bootstrap_idx
                             (t + 1)) /\
    (forall p, ~ (base <= p < base + sample_size)%Z ->
               rd results' p = rd results p).
Proof.
  intros cp results'.
  destruct (Z.le_gt_cases 0 sample_size) as [Hss|Hss].
  - pose (P := fun (t : Z) (s : R * list R) =>
                 fst s = price_after S0 bootstrap_samples sample_size
                                     bootstrap_idx t /\
                 length (snd s) = length results /\
                 (forall u, (0 <= u < t)%Z ->
                            (0 <= base + u < Z.of_nat (length results))%Z ->
                            rd (snd s) (base + u)
                            = price_after S0 bootstrap_samples sample_size
                                          bootstrap_idx (u + 1)) /\
                 (forall p, ~ (base <= p < base + t)%Z ->
                            rd (snd s) p = rd results p)).
    intros Heq.
    match type of Heq with
    | for_range _ _ ?b _ = _ =>
        assert (HP : P sample_size (for_range 0 sample_size b (S0, results)))
    end.
    { apply for_range_inv; auto.
      - unfold P; simpl. rewrite price_after_start by lia.
        repeat split; auto. intros u Hu. lia.
      - intros t [p r] Ht (Hp & Hl & Hin & Hout). unfold P; simpl in *.
        rewrite price_after_step by lia. rewrite <- Hp.
        repeat split.
        + now rewrite length_store.
        + intros u Hu Hrange. destruct (Z.eq_dec u t) as [->|Hne].
          * rewrite rd_store_same by lia. rewrite price_after_step by lia.
            now rewrite <- Hp.
          * rewrite rd_store_other by lia. apply Hin; lia.
        + intros q Hq. rewrite rd_store_other by lia. apply Hout. lia. }
    rewrite Heq in HP. destruct HP as (Hp & Hl & Hin & Hout). simpl in *.
    auto.
  - rewrite for_range_empty by lia. intros Heq.
    injection Heq as Hcp Hres. subst cp results'.
    rewrite price_after_start by lia.
    repeat split; auto. intros t Ht. lia.
Qed.
End PriceFacts.

Section MonteCarloLoops.
Context `{Libc}.
Open Scope R_scope.

Variables (S0 : R) (bootstrap_samples : list R)
          (n_bootstrap sample_size iterations : Z).

Lemma draw_rows_step n st :
  draw_rows n_bootstrap (S n) st
  = match random_int n_bootstrap st with
    | (Done bootstrap_idx, st0) =>
        match draw_rows n_bootstrap n st0 with
        | (Done rest, st1) => (Done (bootstrap_idx :: rest), st1)
        | (Crashed, st1) => (Crashed, st1)
        | (Timeout, st1) => (Timeout, st1)
        end
    | (Crashed, st0) => (Crashed, st0)
    | (Timeout, st0) => (Timeout, st0)
    end.
Proof.
  cbn [draw_rows]. unfold bind, ret.
  destruct (random_int n_bootstrap st) as [[idx| |] st0]; auto;
    destruct (draw_rows n_bootstrap n st0) as [[rest| |] st1]; auto.
Qed.

Lemma for_loop_m_step {S : Type} (body : Z -> S -> M S) n i s st :
  for_loop_m (Datatypes.S n) i body s st
  = match body i s st with
    | (Done s', st') => for_loop_m n (i + 1) body s' st'
    | (Crashed, st') => (Crashed, st')
    | (Timeout, st') => (Timeout, st')
    end.
Proof. reflexivity. Qed.

(** The draws crash at once when there is no row to draw from, and
    succeed otherwise. *)
Lemma draw_rows_done n st :
  n_bootstrap <> 0%Z ->
  exists idxs st',
    draw_rows n_bootstrap n st = (Done idxs, st') /\ length idxs = n.
Proof.
  intros Hnb. revert st. induction n as [|n IH]; intros st.
  - exists [], st. auto.
  - rewrite draw_rows_step. unfold random_int.
    destruct (rand (gen st)) as [r g].
    destruct (Z.eqb_spec n_bootstrap 0); [contradiction|].
    match goal with
    | |- context [draw_rows n_bootstrap n ?s] =>
        destruct (IH s) as (idxs & st' & -> & Hlen)
    end.
    do 2 eexists. split; [reflexivity|]. simpl. now rewrite Hlen.
Qed.

Local Abbreviation terminal_body :=
  (Mbb.iteration S0 bootstrap_samples n_bootstrap sample_size).

Lemma terminal_body_step iter final_prices st :
  terminal_body iter final_prices st
  = match random_int n_bootstrap st with
    | (Done bootstrap_idx, st') =>
        (Done (store final_prices iter
                     (price_after S0 bootstrap_samples sample_size
                                  bootstrap_idx sample_size)), st')
    | (Crashed, st') => (Crashed, st')
    | (Timeout, st') => (Timeout, st')
    end.
Proof.
  unfold Mbb.iteration, bind, ret.
  destruct (random_int n_bootstrap st) as [[idx| |] st']; reflexivity.
Qed.

Lemma terminal_loop_spec :
  forall n iter final_prices st,
    (0 <= iter)%Z ->
    (iter + Z.of_nat n <= Z.of_nat (length final_prices))%Z ->
    match draw_rows n_bootstrap n st with
    | (Done idxs, st') =>
        exists final_prices',
          for_loop_m n iter terminal_body final_prices st
          = (Done final_prices', st') /\
          length final_prices' = length final_prices /\
          (forall j, (iter <= j < iter + Z.of_nat n)%Z ->
             rd final_prices' j
             = price_after S0 bootstrap_samples sample_size
                           (nth (Z.to_nat (j - iter)) idxs 0%Z)
                           sample_size) /\
          (forall p, (p < iter)%Z -> rd final_prices' p = rd final_prices p)
    | (Crashed, st') =>
        for_loop_m n iter terminal_body final_prices st = (Crashed, st')
    | (Timeout, st') =>
        for_loop_m n iter terminal_body final_prices st = (Timeout, st')
    end.
Proof.
  induction n as [|n IH]; intros iter final_prices st Hiter Hlen.
  - simpl. unfold ret. exists final_prices. repeat split; auto.
    intros j Hj. lia.
  - rewrite draw_rows_step, for_loop_m_step, terminal_body_step.
    destruct (random_int n_bootstrap st) as [[idx| |] st0]; auto.
    match goal with
    | |- context [for_loop_m n (iter + 1) ?b ?fp st0] =>
        specialize (IH (iter + 1)%Z fp st0)
    end.
    rewrite length_store in IH.
    destruct (draw_rows n_bootstrap n st0) as [[rest| |] st1];
      try (apply IH; lia).
    destruct IH as (fp' & Hrun & Hl & Hin & Hout); try lia.
    exists fp'. split; [exact Hrun|]. split; [now rewrite Hl|]. split.
    + intros j Hj. destruct (Z.eq_dec j iter) as [->|Hne].
      * rewrite Hout by lia. rewrite rd_store_same by lia.
        replace (Z.to_nat (iter - iter)) with O by lia. reflexivity.
      * rewrite Hin by lia.
        replace (Z.to_nat (j - iter))
          with (Datatypes.S (Z.to_nat (j - (iter + 1)))) by lia.
        reflexivity.
    + intros p Hp. rewrite Hout by lia. apply rd_store_other. lia.
Qed.

Local Abbreviation paths_update :=
  (Cribari.record_path S0 bootstrap_samples sample_size iterations).
Local Abbreviation paths_body :=
  (Cribari.iteration S0 bootstrap_samples n_bootstrap sample_size
                     iterations).

Lemma paths_body_step iter results st :
  paths_body iter results st
  = match random_int n_bootstrap st with
    | (Done bootstrap_idx, st') =>
        (Done (paths_update iter bootstrap_idx results), st')
    | (Crashed, st') => (Crashed, st')
    | (Timeout, st') => (Timeout, st')
    end.
Proof.
  unfold Cribari.iteration, bind, ret.
  destruct (random_int n_bootstrap st) as [[idx| |] st']; reflexivity.
Qed.

Lemma paths_update_spec iter bootstrap_idx results :
  (0 <= sample_size)%Z ->
  (0 <= iter < iterations)%Z ->
  length results = Z.to_nat (iterations + iterations * sample_size) ->
  let results' := paths_update iter bootstrap_idx results in
  length results' = length results /\
  rd results' iter
  = price_after S0 bootstrap_samples sample_size bootstrap_idx sample_size /\
  (forall t, (0 <= t < sample_size)%Z ->
     rd results' (iterations + iter * sample_size + t)
     = price_after S0 bootstrap_samples sample_size bootstrap_idx (t + 1)) /\
  (forall p, p <> iter -> (p < iterations + iter * sample_size)%Z ->
     rd results' p = rd results p).
Proof.
  intros Hss Hiter Hlen. unfold Cribari.record_path.
  destruct (for_range 0 sample_size _ _) as [cp r] eqn:Hloop.
  apply path_loop_spec in Hloop.
  destruct Hloop as (Hcp & Hl & Hin & Hout).
  rewrite length_store in Hl, Hin.
  assert (Hbase : (iterations <= iterations + iter * sample_size)%Z) by nia.
  assert (Hend : (iterations + (iter + 1) * sample_size
                  <= iterations + iterations * sample_size)%Z) by nia.
  cbv zeta. repeat split.
  - now rewrite length_store.
  - rewrite rd_store_same by lia. exact Hcp.
  - intros t Ht. rewrite rd_store_other by lia. apply Hin; lia.
  - intros p Hp Hlt. rewrite rd_store_other by auto.
    rewrite Hout by lia. apply rd_store_other. lia.
Qed.

Lemma paths_loop_spec :
  (0 <= sample_size)%Z ->
  forall n iter results st,
    (0 <= iter)%Z ->
    (iter + Z.of_nat n <= iterations)%Z ->
    length results = Z.to_nat (iterations + iterations * sample_size) ->
    match draw_rows n_bootstrap n st with
    | (Done idxs, st') =>
        exists results',
          for_loop_m n iter paths_body results st = (Done results', st') /\
          length results' = length results /\
          (forall j, (iter <= j < iter + Z.of_nat n)%Z ->
             rd results' j
             = price_after S0 bootstrap_samples sample_size
                           (nth (Z.to_nat (j - iter)) idxs 0%Z)
                           sample_size /\
             forall t, (0 <= t < sample_size)%Z ->
               rd results' (iterations + j * sample_size + t)
               = price_after S0 bootstrap_samples sample_size
                             (nth (Z.to_nat (j - iter)) idxs 0%Z)
                             (t + 1)) /\
          (forall p, (p < iter)%Z \/
                     (iterations <= p < iterations + iter * sample_size)%Z ->
             rd results' p = rd results p)
    | (Crashed, st') =>
        for_loop_m n iter paths_body results st = (Crashed, st')
    | (Timeout, st') =>
        for_loop_m n iter paths_body results st = (Timeout, st')
    end.
Proof.
  intros Hss.
  induction n as [|n IH]; intros iter results st Hiter Hn Hlen.
  - simpl. unfold ret. exists results.
    split; [reflexivity|]. split; [reflexivity|].
    split; [intros j Hj; lia | reflexivity].
  - rewrite draw_rows_step, for_loop_m_step, paths_body_step.
    destruct (random_int n_bootstrap st) as [[idx| |] st0]; auto.
    destruct (paths_update_spec iter idx results)
      as (Hl1 & Hterm & Hpath & Hframe); auto; try lia.
    specialize (IH (iter + 1)%Z (paths_update iter idx results) st0).
    destruct (draw_rows n_bootstrap n st0) as [[rest| |] st1];
      try (apply IH; lia).
    destruct IH as (r' & Hrun & Hl & Hin & Hout); try lia.
    exists r'. split; [exact Hrun|]. split; [lia|]. split.
    + intros j Hj. destruct (Z.eq_dec j iter) as [->|Hne].
      * replace (Z.to_nat (iter - iter)) with O by lia. cbn [nth]. split.
        -- rewrite Hout by lia. exact Hterm.
        -- intros t Ht. rewrite Hout by nia. now apply Hpath.
      * replace (Z.to_nat (j - iter))
          with (Datatypes.S (Z.to_nat (j - (iter + 1)))) by lia.
        cbn [nth]. apply Hin. lia.
    + intros p Hp. rewrite Hout by nia. apply Hframe; nia.
Qed.
End MonteCarloLoops.

Section MonteCarloSpecs.
Context `{Libc}.
Open Scope R_scope.

Variables (S0 : R) (bootstrap_samples : list R)
          (n_bootstrap sample_size iterations : Z).


Lemma warn_iterations_done st :
  exists st0, warn_iterations iterations n_bootstrap st = (Done tt, st0).
Proof.
  unfold warn_iterations.
  destruct (n_bootstrap <? iterations); eexists; reflexivity.
Qed.

Lemma bind_run {A B : Type} (m : M A) (k : A -> M B) st :
  bind m k st
  = match m st with
    | (Done a, st') => k a st'
    | (Crashed, st') => (Crashed, st')
    | (Timeout, st') => (Timeout, st')
    end.
Proof. reflexivity. Qed.

(** Rewrite the run of a loop in the goal with an equation that states
    it up to conversion. *)
Ltac rewrite_run Hrun :=
  match type of Hrun with
  | _ = ?r =>
      match goal with
      | |- context [for_loop_m ?n ?i ?b ?s ?st] =>
          let Heq := fresh in
          assert (Heq : for_loop_m n i b s st = r) by exact Hrun;
          rewrite Heq; clear Heq
      end
  end.

(** The state in which the loop of the simulation starts. *)
Local Abbreviation warned st :=
  (snd (warn_iterations iterations n_bootstrap st)).

Lemma terminal_simulation_spec st :
  match allocate_array iterations with
  | None =>
      exists st', Mbb.monte_carlo_simulation S0 bootstrap_samples n_bootstrap
                    sample_size iterations st = (Done None, st')
  | Some _ =>
      match draw_rows n_bootstrap (Z.to_nat iterations) (warned st) with
      | (Done idxs, st') =>
          exists final_prices,
            Mbb.monte_carlo_simulation S0 bootstrap_samples n_bootstrap
              sample_size iterations st = (Done (Some final_prices), st') /\
            forall iter, (0 <= iter < iterations)%Z ->
              rd final_prices iter
              = price_after S0 bootstrap_samples sample_size
                            (nth (Z.to_nat iter) idxs 0%Z) sample_size
      | (Crashed, st') =>
          Mbb.monte_carlo_simulation S0 bootstrap_samples n_bootstrap
            sample_size iterations st = (Crashed, st')
      | (Timeout, st') =>
          Mbb.monte_carlo_simulation S0 bootstrap_samples n_bootstrap
            sample_size iterations st = (Timeout, st')
      end
  end.
Proof.
  unfold Mbb.monte_carlo_simulation. rewrite bind_run.
  destruct (warn_iterations_done st) as [st0 ->].
  cbv beta iota delta [snd].
  destruct (allocate_array iterations) as [fp|] eqn:Halloc.
  - apply allocate_array_length in Halloc.
    rewrite bind_run. unfold for_range_m.
    pose proof (terminal_loop_spec S0 bootstrap_samples n_bootstrap
                  sample_size (Z.to_nat (iterations - 0)) 0 fp st0) as Hloop.
    replace (Z.to_nat (iterations - 0)) with (Z.to_nat iterations)
      in * by lia.
    destruct (draw_rows n_bootstrap (Z.to_nat iterations) st0)
      as [[idxs| |] st1].
    + destruct Hloop as (fp' & Hrun & Hl & Hin & _); try lia.
      rewrite_run Hrun.
      exists fp'. split; [reflexivity|].
      intros iter Hiter. rewrite Hin by lia. do 2 f_equal. lia.
    + specialize (Hloop ltac:(lia) ltac:(lia)). rewrite_run Hloop.
      reflexivity.
    + specialize (Hloop ltac:(lia) ltac:(lia)). rewrite_run Hloop.
      reflexivity.
  - unfold bind, printf, ret. eexists. reflexivity.
Qed.

(** With a sample size that is not negative the product fits when the
    buffer size does. *)
Lemma paths_product_fits :
  (0 <= sample_size)%Z ->
  in_int (iterations + iterations * sample_size) = true ->
  in_int (iterations * sample_size) = true.
Proof.
  intros Hss. rewrite !in_int_bounds. unfold INT_MIN, INT_MAX. nia.
Qed.

Lemma paths_simulation_spec seed st :
  (0 <= sample_size)%Z ->
  in_int (iterations + iterations * sample_size) = true ->
  match allocate_array (iterations + iterations * sample_size) with
  | None =>
      exists st', Cribari.monte_carlo_simulation S0 bootstrap_samples
                    n_bootstrap sample_size iterations seed st
                  = (Done None, st')
  | Some _ =>
      match draw_rows n_bootstrap (Z.to_nat iterations) (warned st) with
      | (Done idxs, st') =>
          exists results,
            Cribari.monte_carlo_simulation S0 bootstrap_samples n_bootstrap
              sample_size iterations seed st = (Done (Some results), st') /\
            forall iter, (0 <= iter < iterations)%Z ->
              Cribari.final_price results iter
              = price_after S0 bootstrap_samples sample_size
                            (nth (Z.to_nat iter) idxs 0%Z) sample_size /\
              forall t, (0 <= t < sample_size)%Z ->
                Cribari.path_price results iterations sample_size iter t
                = price_after S0 bootstrap_samples sample_size
                              (nth (Z.to_nat iter) idxs 0%Z) (t + 1)
      | (Crashed, st') =>
          Cribari.monte_carlo_simulation S0 bootstrap_samples n_bootstrap
            sample_size iterations seed st = (Crashed, st')
      | (Timeout, st') =>
          Cribari.monte_carlo_simulation S0 bootstrap_samples n_bootstrap
            sample_size iterations seed st = (Timeout, st')
      end
  end.
Proof.
  intros Hss Hsize.
  pose proof (paths_product_fits Hss Hsize) as Hpaths.
  unfold Cribari.monte_carlo_simulation. rewrite bind_run.
  destruct (warn_iterations_done st) as [st0 ->].
  cbv beta iota delta [snd].
  rewrite bind_int_value by exact Hpaths.
  rewrite bind_int_value by exact Hsize.
  destruct (allocate_array _) as [res|] eqn:Halloc.
  - apply allocate_array_length in Halloc.
    rewrite bind_run. unfold for_range_m.
    pose proof (paths_loop_spec S0 bootstrap_samples n_bootstrap
                  sample_size iterations Hss
                  (Z.to_nat (iterations - 0)) 0 res st0) as Hloop.
    replace (Z.to_nat (iterations - 0)) with (Z.to_nat iterations)
      in * by lia.
    destruct (Z.le_gt_cases 0 iterations) as [Hit|Hit].
    + destruct (draw_rows n_bootstrap (Z.to_nat iterations) st0)
        as [[idxs| |] st1].
      * destruct Hloop as (res' & Hrun & Hl & Hin & _); try lia.
        rewrite_run Hrun.
        exists res'. split; [reflexivity|].
        intros iter Hiter. unfold Cribari.final_price, Cribari.path_price.
        destruct (Hin iter) as [Hterm Hpath]; [lia|].
        replace (Z.to_nat (iter - 0)) with (Z.to_nat iter) in * by lia.
        auto.
      * specialize (Hloop ltac:(lia) ltac:(lia) ltac:(lia)).
        rewrite_run Hloop. reflexivity.
      * specialize (Hloop ltac:(lia) ltac:(lia) ltac:(lia)).
        rewrite_run Hloop. reflexivity.
    + replace (Z.to_nat iterations) with O in * by lia. simpl.
      unfold ret. exists res. split; [reflexivity|]. intros iter Hiter. lia.
  - unfold bind, printf, ret. eexists. reflexivity.
Qed.
(** A run of the version that keeps the paths that does not end in
    undefined behaviour had a buffer size that is representable. *)
Lemma paths_simulation_fits seed st :
  fst (Cribari.monte_carlo_simulation S0 bootstrap_samples n_bootstrap
         sample_size iterations seed st) <> Crashed ->
  in_int (iterations * sample_size) = true /\
  in_int (iterations + iterations * sample_size) = true.
Proof.
  unfold Cribari.monte_carlo_simulation. rewrite bind_run.
  destruct (warn_iterations_done st) as [st0 ->].
  destruct (in_int (iterations * sample_size)) eqn:Hpaths.
  - rewrite bind_int_value by exact Hpaths.
    destruct (in_int (iterations + iterations * sample_size)) eqn:Hsize.
    + auto.
    + rewrite bind_int_overflow by exact Hsize. intros Hrun. now elim Hrun.
  - rewrite bind_int_overflow by exact Hpaths. intros Hrun. now elim Hrun.
Qed.
End MonteCarloSpecs.

(** ** A portfolio of one asset whose outcomes are 0 and 2 *)

Section OneAsset.
Open Scope R_scope.

Lemma sharpe_pair a b rf :
  calculate_sharpe_ratio [a; b] 2 rf =
  let mean := (0 + a + b) / 2 in
  let std_dev := sqrt ((0 + a * a + b * b) / 2 - mean * mean) in
  if Req_dec_T std_dev 0 then 0 else (mean - rf) / std_dev.
Proof. reflexivity. Qed.

Lemma returns_one_asset w :
  @calculate_portfolio_returns lcg_libc [w] [0; 2] 1 2
  = Some [0 + w * 0; 0 + w * 2].
Proof. reflexivity. Qed.

Lemma nsr_one_asset_pos rf w :
  0 < w ->
  @negative_sharpe_ratio lcg_libc [w] [0; 2] 1 2 rf = - ((w - rf) / w).
Proof.
  intros Hw. unfold negative_sharpe_ratio.
  rewrite returns_one_asset, sharpe_pair. cbv zeta.
  replace ((0 + (0 + w * 0) * (0 + w * 0) + (0 + w * 2) * (0 + w * 2)) / 2
           - (0 + (0 + w * 0) + (0 + w * 2)) / 2
             * ((0 + (0 + w * 0) + (0 + w * 2)) / 2))
    with (w * w) by field.
  rewrite sqrt_square by lra.
  destruct (Req_dec_T w 0); [lra|].
  f_equal. f_equal. lra.
Qed.

Lemma nsr_one_asset_zero rf w :
  w = 0 -> @negative_sharpe_ratio lcg_libc [w] [0; 2] 1 2 rf = 0.
Proof.
  intros ->. unfold negative_sharpe_ratio.
  rewrite returns_one_asset, sharpe_pair. cbv zeta.
  replace ((0 + (0 + 0 * 0) * (0 + 0 * 0) + (0 + 0 * 2) * (0 + 0 * 2)) / 2
           - (0 + (0 + 0 * 0) + (0 + 0 * 2)) / 2
             * ((0 + (0 + 0 * 0) + (0 + 0 * 2)) / 2))
    with 0 by field.
  rewrite sqrt_0.
  destruct (Req_dec_T 0 0); [lra|congruence].
Qed.

Lemma direction_one_asset rf x :
  let f := fun w => @negative_sharpe_ratio lcg_libc w [0; 2] 1 2 rf in
  let f_forward := f [x + h] in
  let f_backward := f [x + h - 2 * h] in
  let gradient := (f_forward - f_backward) / (2 * h) in
  let hessian :=
    (f_forward + f_backward - 2 * f [x + h - 2 * h + h]) / (h * h) + 1e-6 in
  @newton_direction lcg_libc [0; 2] 1 2 rf [x]
  = Some ([x + h - 2 * h + h], [gradient], [(- gradient) / hessian]).
Proof. reflexivity. Qed.

Lemma ls_attempt_one_asset_eq alpha d x :
  ls_attempt 1 alpha [d] [x] =
  let y := Rmax (x + alpha * d) 0 in
  if Rlt_dec 0 (0 + y) then [y / (0 + y)] else [y].
Proof. reflexivity. Qed.

Lemma ls_attempt_one_asset alpha d x :
  exists v, ls_attempt 1 alpha [d] [x] = [v] /\
            (x + alpha * d <= 0 -> v = 0) /\
            (0 < x + alpha * d -> v = 1).
Proof.
  rewrite ls_attempt_one_asset_eq. cbv zeta.
  destruct (Rle_lt_dec (x + alpha * d) 0) as [Hle|Hlt].
  - rewrite (Rmax_right _ 0 Hle).
    destruct (Rlt_dec 0 (0 + 0)); [lra|].
    exists 0. split; [reflexivity|]. split; [auto|intros; lra].
  - rewrite (Rmax_left (x + alpha * d) 0) by lra.
    destruct (Rlt_dec 0 (0 + (x + alpha * d))); [|lra].
    eexists. split; [reflexivity|]. split; [lra|].
    intros _. field. lra.
Qed.

(** Once the only weight is zero, a step in a direction that is not
    positive keeps it at zero. *)
Lemma cumulative_attempt_collapse d x k :
  x + d <= 0 -> d <= 0 ->
  exists v, cumulative_attempt 1 k [d] [x] = [v] /\ v = 0.
Proof.
  intros Hx Hd. induction k as [|k (v & Hv & Hv0)].
  - cbn [cumulative_attempt].
    destruct (ls_attempt_one_asset 1 d x) as (v & Hv & Hz & _).
    exists v. split; auto. apply Hz. lra.
  - cbn [cumulative_attempt]. rewrite Hv.
    destruct (ls_attempt_one_asset (0.5 ^ S k) d v) as (v' & Hv' & Hz & _).
    exists v'. split; auto. apply Hz. subst v.
    assert (0 < 0.5 ^ S k) by (apply pow_lt; lra).
    nra.
Qed.

Lemma neg_div_le_neg1 a b : 0 < b -> b <= a -> (- a) / b <= -1.
Proof.
  intros Hb Hab. apply Rmult_le_reg_r with (r := b); auto.
  unfold Rdiv. rewrite Rmult_assoc, Rinv_l by lra. lra.
Qed.

Lemma neg_div_pos a b : 0 < a -> b < 0 -> 0 < (- a) / b.
Proof.
  intros Ha Hb. replace ((- a) / b) with (a * / (- b)).
  - apply Rmult_lt_0_compat; auto. apply Rinv_0_lt_compat. lra.
  - field. lra.
Qed.

(** Evaluate the objective at the three points of the finite
    differences around [x], given the three reciprocals. *)
Ltac one_asset_values x r_forward r_backward r_current :=
  cbv zeta; rewrite !nsr_one_asset_pos by (unfold h; lra);
  unfold Rdiv;
  replace (/ (x + h)) with r_forward by (unfold h; field);
  replace (/ (x + h - 2 * h)) with r_backward by (unfold h; field);
  replace (/ (x + h - 2 * h + h)) with r_current by (unfold h; field);
  unfold h; lra.

Lemma direction_collapse_values :
  let rf := - 4e-7 in
  let f := fun w => @negative_sharpe_ratio lcg_libc w [0; 2] 1 2 rf in
  let f_forward := f [1 + h] in
  let f_backward := f [1 + h - 2 * h] in
  let gradient := (f_forward - f_backward) / (2 * h) in
  let hessian :=
    (f_forward + f_backward - 2 * f [1 + h - 2 * h + h]) / (h * h) + 1e-6 in
  (- gradient) / hessian <= -1.
Proof.
  cbv zeta.
  apply neg_div_le_neg1;
    one_asset_values 1 (1000000 / 1000001) (1000000 / 999999) 1.
Qed.


Lemma optimize_one_round arrival_values n_simulations x rf tol :
  @optimize_portfolio_newton_raphson lcg_libc arrival_values 1 n_simulations
    [x] rf 1 tol
  = round_weights
      (@newton_round lcg_libc arrival_values 1 n_simulations rf tol 0 [x]).
Proof.
  unfold optimize_portfolio_newton_raphson, for_range_exit, round_weights.
  change (@allocate_array lcg_libc 1) with (Some [0]).
  cbv beta iota.
  change (for_range 0 1 (fun i weights => store weights i (rd [x] i)) [0])
    with [x].
  change (Z.to_nat (1 - 0)) with 1%nat. cbn [for_loop_exit].
  destruct (newton_round _ _ _ _ _ _ _) as [w|[w|]]; reflexivity.
Qed.

Lemma round_one_asset rf tol iter x :
  let f := fun w => @negative_sharpe_ratio lcg_libc w [0; 2] 1 2 rf in
  let f_forward := f [x + h] in
  let f_backward := f [x + h - 2 * h] in
  let gradient := (f_forward - f_backward) / (2 * h) in
  let hessian :=
    (f_forward + f_backward - 2 * f [x + h - 2 * h + h]) / (h * h) + 1e-6 in
  round_weights (@newton_round lcg_libc [0; 2] 1 2 rf tol iter [x])
  = Some (@line_search lcg_libc [0; 2] 1 2 rf (f [x + h - 2 * h + h])
            [(- gradient) / hessian] [x + h - 2 * h + h]).
Proof.
  cbv zeta. unfold newton_round.
  change (@newton_direction lcg_libc [0; 2] 1 2 rf [x])
    with (Some ([x + h - 2 * h + h],
                [(@negative_sharpe_ratio lcg_libc [x + h] [0; 2] 1 2 rf
                  - @negative_sharpe_ratio lcg_libc [x + h - 2 * h] [0; 2] 1 2 rf)
                 / (2 * h)],
                [(- ((@negative_sharpe_ratio lcg_libc [x + h] [0; 2] 1 2 rf
                      - @negative_sharpe_ratio lcg_libc [x + h - 2 * h] [0; 2] 1 2 rf)
                     / (2 * h)))
                 / ((@negative_sharpe_ratio lcg_libc [x + h] [0; 2] 1 2 rf
                     + @negative_sharpe_ratio lcg_libc [x + h - 2 * h] [0; 2] 1 2 rf
                     - 2 * @negative_sharpe_ratio lcg_libc [x + h - 2 * h + h] [0; 2] 1 2 rf)
                    / (h * h) + 1e-6)])).
  cbv beta iota zeta.
  destruct (Rlt_dec _ tol); reflexivity.
Qed.

(** With the risk-free rate [-4e-7] the Newton step from the weight 1
    is about [-2]: the weight is clamped to zero, the sum is zero,
    nothing is renormalized, and the optimizer returns the zero
    vector. *)
Lemma optimize_all_zero_example :
  exists weights,
    @optimize_portfolio_newton_raphson lcg_libc [0; 2] 1 2 [1] (- 4e-7) 1 1e-4
    = Some weights /\
    rd weights 0 = 0 /\ vsum 1 weights = 0.
Proof.
  pose proof direction_collapse_values as Hd. cbv zeta in Hd.
  pose proof (optimize_one_round [0; 2] 2 1 (- 4e-7) 1e-4) as Hrun.
  pose proof (round_one_asset (- 4e-7) 1e-4 0 1) as Hround.
  cbv zeta in Hround.
  eexists. split; [exact (eq_trans Hrun Hround)|].
  match goal with
  | |- context [line_search ?a ?n ?s ?r ?fc ?d ?w] =>
      destruct (line_search_spec a n s r fc d w) as (k & _ & -> & _)
  end.
  match goal with
  | |- context [cumulative_attempt 1 k [?d] [?x]] =>
      destruct (cumulative_attempt_collapse d x k) as (v & -> & ->);
        [unfold h in *; lra | lra |]
  end.
  split; [reflexivity|]. cbn [vsum]. change (rd [0] (Z.of_nat 0)) with 0.
  lra.
Qed.

(** With the risk-free rate [-1] the Newton step from the weight 2 is
    positive. *)
Lemma direction_accept_values :
  let rf := - 1 in
  let f := fun w => @negative_sharpe_ratio lcg_libc w [0; 2] 1 2 rf in
  let f_forward := f [2 + h] in
  let f_backward := f [2 + h - 2 * h] in
  let gradient := (f_forward - f_backward) / (2 * h) in
  let hessian :=
    (f_forward + f_backward - 2 * f [2 + h - 2 * h + h]) / (h * h) + 1e-6 in
  0 < (- gradient) / hessian.
Proof.
  cbv zeta.
  apply neg_div_pos;
    one_asset_values 2 (1000000 / 2000001) (1000000 / 1999999) (1 / 2).
Qed.
End OneAsset.

(** ** The bootstrap *)

Section BootstrapFacts.
Context `{Libc}.

Variables (log_returns : list R) (sample_size block_size n_blocks : Z)
          (bootstrap_idx : Z).

(** [rand() % max_val] for a positive [max_val]. *)
Lemma random_int_bounds max_val st :
  0 < max_val ->
  exists v st', random_int max_val st = (Done v, st') /\ 0 <= v < max_val.
Proof.
  intros Hmax. unfold random_int.
  destruct (rand (gen st)) as [r g].
  destruct (Z.eqb_spec max_val 0); [lia|].
  do 2 eexists. split; [reflexivity|].
  apply Z.rem_bound_pos; lia.
Qed.

(** The copy of one block: [m] cells are written, where [m] is what is
    left of the block or of the row, whichever is less. *)
Lemma copy_loop_spec (block_start : Z) :
  forall n i sample_idx bootstrap_samples,
    let m := Z.max 0 (Z.min (Z.of_nat n) (sample_size - sample_idx)) in
    let r := for_loop_cond n i
               (fun '(sample_idx, _) => sample_idx <? sample_size)
               (fun i '(sample_idx, bootstrap_samples) =>
                  (sample_idx + 1,
                   store bootstrap_samples
                         (bootstrap_idx * sample_size + sample_idx)
                         (rd log_returns (block_start + i))))
               (sample_idx, bootstrap_samples) in
    fst r = sample_idx + m /\
    length (snd r) = length bootstrap_samples /\
    (forall u, 0 <= u < m ->
       0 <= bootstrap_idx * sample_size + sample_idx /\
       bootstrap_idx * sample_size + sample_idx + m
       <= Z.of_nat (length bootstrap_samples) ->
       rd (snd r) (bootstrap_idx * sample_size + sample_idx + u)
       = rd log_returns (block_start + i + u)) /\
    (forall p, ~ (bootstrap_idx * sample_size + sample_idx <= p
                  < bootstrap_idx * sample_size + sample_idx + m) ->
       rd (snd r) p = rd bootstrap_samples p).
Proof.
  induction n as [|n IH]; intros i sample_idx bootstrap_samples.
  - cbv zeta. cbn [for_loop_cond fst snd].
    replace (Z.max 0 (Z.min (Z.of_nat 0) (sample_size - sample_idx)))
      with 0 by lia.
    repeat split; auto; intros; lia.
  - cbv zeta. cbn [for_loop_cond].
    destruct (Z.ltb_spec sample_idx sample_size) as [Hlt|Hge].
    + specialize (IH (i + 1) (sample_idx + 1)
                     (store bootstrap_samples
                            (bootstrap_idx * sample_size + sample_idx)
                            (rd log_returns (block_start + i)))).
      cbv zeta in IH. destruct IH as (Hidx & Hlen & Hin & Hout).
      rewrite length_store in Hlen, Hin.
      set (m' := Z.max 0 (Z.min (Z.of_nat n)
                                (sample_size - (sample_idx + 1)))) in *.
      replace (Z.max 0 (Z.min (Z.of_nat (Datatypes.S n))
                              (sample_size - sample_idx)))
        with (1 + m') by lia.
      split; [lia|]. split; [exact Hlen|]. split.
      * intros u Hu Hrange. destruct (Z.eq_dec u 0) as [->|Hne].
        -- rewrite Hout by lia. rewrite !Z.add_0_r.
           rewrite rd_store_same by lia. reflexivity.
        -- replace (bootstrap_idx * sample_size + sample_idx + u)
             with (bootstrap_idx * sample_size + (sample_idx + 1) + (u - 1))
             by lia.
           rewrite Hin by lia. f_equal. lia.
      * intros p Hp. rewrite Hout by lia. apply rd_store_other. lia.
    + cbn [fst snd].
      replace (Z.max 0 (Z.min (Z.of_nat (Datatypes.S n))
                              (sample_size - sample_idx)))
        with 0 by lia.
      repeat split; auto; intros; lia.
Qed.

Lemma copy_block_spec block_start sample_idx bootstrap_samples :
  0 <= block_size ->
  let m := Z.max 0 (Z.min block_size (sample_size - sample_idx)) in
  let r := copy_block log_returns sample_size block_size bootstrap_idx
                      block_start (sample_idx, bootstrap_samples) in
  fst r = sample_idx + m /\
  length (snd r) = length bootstrap_samples /\
  (forall u, 0 <= u < m ->
     0 <= bootstrap_idx * sample_size + sample_idx /\
     bootstrap_idx * sample_size + sample_idx + m
     <= Z.of_nat (length bootstrap_samples) ->
     rd (snd r) (bootstrap_idx * sample_size + sample_idx + u)
     = rd log_returns (block_start + u)) /\
  (forall p, ~ (bootstrap_idx * sample_size + sample_idx <= p
                < bootstrap_idx * sample_size + sample_idx + m) ->
     rd (snd r) p = rd bootstrap_samples p).
Proof.
  intros Hbs. cbv zeta. unfold copy_block, for_range_cond.
  pose proof (copy_loop_spec block_start (Z.to_nat (block_size - 0)) 0
                sample_idx bootstrap_samples) as Hloop.
  cbv zeta in Hloop.
  replace (Z.of_nat (Z.to_nat (block_size - 0))) with block_size in Hloop
    by lia.
  destruct Hloop as (Hidx & Hlen & Hin & Hout).
  repeat split; auto.
  intros u Hu Hrange. rewrite Hin by auto. f_equal. lia.
Qed.

Lemma indices_length n : length (indices n) = Z.to_nat n.
Proof. unfold indices. now rewrite length_map, length_seq. Qed.

Lemma indices_nth n u :
  0 <= u < n -> nth (Z.to_nat u) (indices n) 0 = u.
Proof.
  intros Hu. unfold indices.
  rewrite nth_indep with (d' := Z.of_nat 0)
    by (rewrite length_map, length_seq; lia).
  rewrite map_nth, seq_nth by lia. lia.
Qed.

Lemma block_length block_start :
  length (block log_returns block_size block_start) = Z.to_nat block_size.
Proof. unfold block. now rewrite length_map, indices_length. Qed.

Lemma block_nth block_start u :
  0 <= u < block_size ->
  nth (Z.to_nat u) (block log_returns block_size block_start) 0%R
  = rd log_returns (block_start + u).
Proof.
  intros Hu. unfold block.
  rewrite nth_indep with (d' := rd log_returns (block_start + 0))
    by (rewrite length_map, indices_length; lia).
  rewrite (map_nth (fun i => rd log_returns (block_start + i))).
  now rewrite indices_nth.
Qed.

(** Every value of a block is a value of the series, at an index the
    block covers. *)
Lemma block_in block_start x :
  In x (block log_returns block_size block_start) ->
  exists i, 0 <= i < block_size /\ x = rd log_returns (block_start + i).
Proof.
  unfold block, indices. rewrite map_map, in_map_iff.
  intros (k & Hx & Hk). apply in_seq in Hk.
  exists (Z.of_nat k). split; [lia | auto].
Qed.

(** The [while] loop that fills a row, entered at column [sample_idx]:
    it does not crash; it ends when the fuel covers the columns that
    are left; and the columns it fills hold a sequence of blocks, all
    of them whole except, possibly, the last one. *)
Lemma fill_loop_spec :
  1 <= block_size ->
  1 <= n_blocks ->
  0 <= bootstrap_idx * sample_size ->
  forall fuel sample_idx bootstrap_samples st,
    0 <= sample_idx <= sample_size ->
    bootstrap_idx * sample_size + sample_size
    <= Z.of_nat (length bootstrap_samples) ->
    match
      while_m fuel
        (fun '(sample_idx, _) => sample_idx <? sample_size)
        (fun s =>
           block_start <- random_int n_blocks ;;
           ret (copy_block log_returns sample_size block_size
                           bootstrap_idx block_start s))
        (sample_idx, bootstrap_samples) st
    with
    | (Done (_, bootstrap_samples'), _) =>
        length bootstrap_samples' = length bootstrap_samples /\
        (exists starts,
           Forall (fun s => 0 <= s < n_blocks) starts /\
           (Z.of_nat (length starts) - 1) * block_size
           < sample_size - sample_idx
           <= Z.of_nat (length starts) * block_size /\
           forall u, 0 <= u < sample_size - sample_idx ->
             rd bootstrap_samples'
                (bootstrap_idx * sample_size + sample_idx + u)
             = nth (Z.to_nat u)
                   (concat (map (block log_returns block_size) starts))
                   0%R) /\
        (forall p, ~ (bootstrap_idx * sample_size + sample_idx <= p
                      < bootstrap_idx * sample_size + sample_size) ->
           rd bootstrap_samples' p = rd bootstrap_samples p)
    | (Crashed, _) => False
    | (Timeout, _) => Z.of_nat fuel < sample_size - sample_idx
    end.
Proof.
  intros Hbs Hnb Hbase.
  assert (Hdone : forall sample_idx bootstrap_samples,
             sample_size <= sample_idx <= sample_size ->
             length bootstrap_samples = length bootstrap_samples /\
             (exists starts,
                Forall (fun s => 0 <= s < n_blocks) starts /\
                (Z.of_nat (length starts) - 1) * block_size
                < sample_size - sample_idx
                <= Z.of_nat (length starts) * block_size /\
                forall u, 0 <= u < sample_size - sample_idx ->
                  rd bootstrap_samples
                     (bootstrap_idx * sample_size + sample_idx + u)
                  = nth (Z.to_nat u)
                        (concat (map (block log_returns block_size) starts))
                        0%R) /\
             (forall p, ~ (bootstrap_idx * sample_size + sample_idx <= p
                           < bootstrap_idx * sample_size + sample_size) ->
                rd bootstrap_samples p = rd bootstrap_samples p)).
  { intros s b Hs. split; [reflexivity|]. split; [|reflexivity].
    exists []. split; [constructor|]. cbn [length]. split; [lia|].
    intros u Hu. lia. }
  induction fuel as [|fuel IH]; intros sample_idx bootstrap_samples st Hidx Hlen.
  - cbn [while_m]. cbv beta iota.
    destruct (Z.ltb_spec sample_idx sample_size) as [Hlt|Hge].
    + unfold timeout. simpl. lia.
    + unfold ret. apply Hdone. lia.
  - cbn [while_m]. cbv beta iota.
    destruct (Z.ltb_spec sample_idx sample_size) as [Hlt|Hge];
      [|unfold ret; apply Hdone; lia].
    rewrite !bind_run.
    destruct (random_int_bounds n_blocks st ltac:(lia))
      as (block_start & st1 & -> & Hstart).
    unfold ret at 1.
    pose proof (copy_block_spec block_start sample_idx bootstrap_samples
                  ltac:(lia)) as Hcopy.
    cbv zeta in Hcopy.
    destruct (copy_block log_returns sample_size block_size bootstrap_idx
                         block_start (sample_idx, bootstrap_samples))
      as [s1 b1].
    cbn [fst snd] in Hcopy.
    set (m := Z.max 0 (Z.min block_size (sample_size - sample_idx))) in *.
    assert (Hm : m = Z.min block_size (sample_size - sample_idx)) by lia.
    destruct Hcopy as (Hs1 & Hl1 & Hin1 & Hout1).
    specialize (IH s1 b1 st1 ltac:(lia) ltac:(lia)).
    destruct (while_m fuel _ _ (s1, b1) st1) as [[[s2 b2]| |] st2];
      [|contradiction|lia].
    destruct IH as (Hl2 & (starts & Hstarts & Hcount & Hin2) & Hout2).
    split; [lia|]. split.
    + exists (block_start :: starts). split; [constructor; auto|]. split.
      * cbn [length]. rewrite Nat2Z.inj_succ.
        set (k := Z.of_nat (length starts)) in *.
        assert (Hk : 0 <= k) by lia.
        destruct (Z.min_spec block_size (sample_size - sample_idx))
          as [[Hc Hmin]|[Hc Hmin]].
        -- lia.
        -- assert (Hk0 : k = 0) by nia. rewrite Hk0. lia.
      * intros u Hu. cbn [map concat].
        destruct (Z.lt_ge_cases u m) as [Hum|Hum].
        -- rewrite app_nth1 by (rewrite block_length; lia).
           rewrite block_nth by lia.
           rewrite Hout2 by lia. apply Hin1; lia.
        -- rewrite app_nth2 by (rewrite block_length; lia).
           rewrite block_length.
           replace (Z.to_nat u - Z.to_nat block_size)%nat
             with (Z.to_nat (u - m)) by lia.
           rewrite <- Hin2 by lia. f_equal. lia.
    + intros p Hp. rewrite Hout2 by lia. apply Hout1. lia.
Qed.
End BootstrapFacts.

Section BootstrapRows.
Context `{Libc}.

Variables (fuel : nat) (log_returns : list R)
          (sample_size block_size n_blocks : Z).

Local Abbreviation row_body :=
  (row_iteration fuel log_returns sample_size block_size n_blocks).
Local Abbreviation cells_of_blocks :=
  (cells_of_blocks log_returns sample_size block_size n_blocks).

Lemma rows_loop_spec :
  1 <= block_size ->
  1 <= n_blocks ->
  0 <= sample_size ->
  forall n bootstrap_idx bootstrap_samples st,
    0 <= bootstrap_idx ->
    (bootstrap_idx + Z.of_nat n) * sample_size
    <= Z.of_nat (length bootstrap_samples) ->
    match for_loop_m n bootstrap_idx row_body bootstrap_samples st with
    | (Done bootstrap_samples', _) =>
        length bootstrap_samples' = length bootstrap_samples /\
        (forall j, bootstrap_idx <= j < bootstrap_idx + Z.of_nat n ->
           cells_of_blocks bootstrap_samples' j) /\
        (forall p, p < bootstrap_idx * sample_size ->
           rd bootstrap_samples' p = rd bootstrap_samples p)
    | (Crashed, _) => False
    | (Timeout, _) => Z.of_nat fuel < sample_size
    end.
Proof.
  intros Hbs Hnb Hss.
  induction n as [|n IH]; intros k b st Hk Hlen.
  - simpl. unfold ret. repeat split; auto. intros j Hj. lia.
  - rewrite for_loop_m_step. unfold row_iteration at 1, fill_row.
    rewrite bind_run.
    pose proof (fill_loop_spec log_returns sample_size block_size n_blocks k
                  Hbs Hnb ltac:(nia) fuel 0 b st ltac:(lia) ltac:(nia))
      as Hfill.
    destruct (while_m fuel _ _ (0, b) st) as [[[s1 b1]| |] st1];
      [|contradiction|lia].
    destruct Hfill as (Hl1 & (starts & Hstarts & Hcount & Hin1) & Hout1).
    unfold ret at 1. cbn [snd].
    specialize (IH (k + 1) b1 st1 ltac:(lia) ltac:(nia)).
    destruct (for_loop_m n (k + 1) row_body b1 st1) as [[b2| |] st2]; auto.
    destruct IH as (Hl2 & Hrows & Hout2).
    split; [lia|]. split.
    + intros j Hj. destruct (Z.eq_dec j k) as [->|Hne].
      * exists starts. split; [auto|]. split; [lia|].
        intros u Hu. rewrite Hout2 by nia.
        replace (k * sample_size + u) with (k * sample_size + 0 + u) by lia.
        apply Hin1. lia.
      * apply Hrows. lia.
    + intros p Hp. rewrite Hout2 by nia. apply Hout1. lia.
Qed.

(** With nothing to fill, the loop over the rows leaves the samples as
    they are. *)
Lemma rows_loop_empty :
  sample_size <= 0 ->
  forall n bootstrap_idx bootstrap_samples st,
    for_loop_m n bootstrap_idx row_body bootstrap_samples st
    = (Done bootstrap_samples, st).
Proof.
  intros Hss. induction n as [|n IH]; intros k b st; [reflexivity|].
  rewrite for_loop_m_step. unfold row_iteration at 1, fill_row.
  rewrite bind_run.
  assert (Hfill : forall body,
             while_m fuel
               (fun '(sample_idx, _) => sample_idx <? sample_size)
               body (0, b) st = (Done (0, b), st)).
  { intros body. destruct fuel; cbn [while_m]; cbv beta iota;
      destruct (Z.ltb_spec 0 sample_size); try lia; reflexivity. }
  rewrite Hfill. unfold ret at 1. cbn [snd]. apply IH.
Qed.

Lemma copy_block_nothing bootstrap_idx block_start s :
  block_size <= 0 ->
  copy_block log_returns sample_size block_size bootstrap_idx block_start s
  = s.
Proof.
  intros Hbs. unfold copy_block, for_range_cond.
  replace (Z.to_nat (block_size - 0)) with O by lia. reflexivity.
Qed.

(** With blocks of no length a row that has cells to fill is never
    filled: the loop draws a block, copies nothing, and starts again. *)
Lemma fill_row_spins bootstrap_idx bootstrap_samples st :
  block_size <= 0 ->
  1 <= n_blocks ->
  0 < sample_size ->
  fst (fill_row fuel log_returns sample_size block_size n_blocks
                bootstrap_idx bootstrap_samples st) = Timeout.
Proof.
  intros Hbs Hnb Hss. unfold fill_row. revert st.
  induction fuel as [|f IH]; intros st; cbn [while_m]; cbv beta iota;
    destruct (Z.ltb_spec 0 sample_size); try lia; [reflexivity|].
  rewrite !bind_run.
  destruct (random_int_bounds n_blocks st ltac:(lia))
    as (block_start & st1 & -> & _).
  unfold ret at 1. rewrite copy_block_nothing by lia. apply IH.
Qed.
End BootstrapRows.

(** ** Rows of the sample set *)

Section RowFacts.
Variables (bootstrap_samples : list R) (sample_size bootstrap_idx : Z).

Lemma row_length :
  0 <= bootstrap_idx * sample_size ->
  bootstrap_idx * sample_size + sample_size
  <= Z.of_nat (length bootstrap_samples) ->
  length (row bootstrap_samples sample_size bootstrap_idx)
  = Z.to_nat sample_size.
Proof.
  intros Hbase Hlen. unfold row. rewrite length_firstn, length_skipn. lia.
Qed.

Lemma row_nth u :
  0 <= bootstrap_idx * sample_size ->
  0 <= u < sample_size ->
  nth (Z.to_nat u) (row bootstrap_samples sample_size bootstrap_idx) 0%R
  = rd bootstrap_samples (bootstrap_idx * sample_size + u).
Proof.
  intros Hbase Hu. unfold row, rd, load.
  rewrite nth_firstn, nth_skipn.
  destruct (Nat.ltb_spec (Z.to_nat u) (Z.to_nat sample_size)); [|lia].
  destruct (Z.ltb_spec (bootstrap_idx * sample_size + u) 0); [lia|].
  f_equal. lia.
Qed.

Lemma in_firstn {A : Type} (n : nat) (l : list A) (x : A) :
  In x (firstn n l) -> In x l.
Proof.
  intros Hin. rewrite <- (firstn_skipn n l). apply in_or_app. now left.
Qed.
End RowFacts.

Section BlockFacts.
Variables (log_returns : list R) (block_size : Z).

Lemma blocks_length starts :
  Z.of_nat (length (concat (map (block log_returns block_size) starts)))
  = Z.of_nat (length starts) * Z.max 0 block_size.
Proof.
  induction starts as [|s starts IH]; [reflexivity|].
  cbn [map concat]. rewrite length_app, block_length. cbn [length]. lia.
Qed.

(** A row whose cells hold a sequence of blocks is, as a list, the
    blocks one after the other cut at the length of the row. *)
Lemma row_of_blocks bootstrap_samples sample_size bootstrap_idx starts :
  0 <= block_size ->
  0 <= bootstrap_idx * sample_size ->
  bootstrap_idx * sample_size + sample_size
  <= Z.of_nat (length bootstrap_samples) ->
  sample_size <= Z.of_nat (length starts) * block_size ->
  (forall u, 0 <= u < sample_size ->
     rd bootstrap_samples (bootstrap_idx * sample_size + u)
     = nth (Z.to_nat u)
           (concat (map (block log_returns block_size) starts)) 0%R) ->
  row bootstrap_samples sample_size bootstrap_idx
  = firstn (Z.to_nat sample_size)
           (concat (map (block log_returns block_size) starts)).
Proof.
  intros Hbs Hbase Hlen Hcount Hcells.
  pose proof (blocks_length starts) as Hblocks.
  apply nth_ext with (d := 0%R) (d' := 0%R).
  - rewrite row_length by auto. rewrite length_firstn. lia.
  - intros n Hn.
    destruct (Z.le_gt_cases 0 sample_size) as [Hss|Hss].
    + rewrite row_length in Hn by auto.
      replace n with (Z.to_nat (Z.of_nat n)) by lia.
      rewrite row_nth by lia. rewrite Hcells by lia.
      rewrite nth_firstn.
      destruct (Nat.ltb_spec (Z.to_nat (Z.of_nat n)) (Z.to_nat sample_size));
        [reflexivity|lia].
    + unfold row in Hn. rewrite length_firstn in Hn. lia.
Qed.

(** Every value of a sequence of blocks is a value of the series. *)
Lemma blocks_in_series n_returns starts x :
  Forall (fun s => 0 <= s <= n_returns - block_size) starts ->
  In x (concat (map (block log_returns block_size) starts)) ->
  exists j, 0 <= j < n_returns /\ x = rd log_returns j.
Proof.
  intros Hstarts Hin. apply in_concat in Hin.
  destruct Hin as (b & Hb & Hx). apply in_map_iff in Hb.
  destruct Hb as (s & <- & Hs).
  rewrite Forall_forall in Hstarts. specialize (Hstarts s Hs).
  apply block_in in Hx. destruct Hx as (i & Hi & ->).
  exists (s + i). split; [lia | reflexivity].
Qed.
End BlockFacts.

(** ** Sums and arrays, for the closed forms *)

Section SumFacts.
Open Scope R_scope.

(** Two arrays of the same length with the same cells are the same. *)
Lemma rd_ext (a b : list R) :
  length a = length b ->
  (forall j, (0 <= j < Z.of_nat (length a))%Z -> rd a j = rd b j) ->
  a = b.
Proof.
  intros Hlen Hcells. apply nth_ext with (d := 0) (d' := 0); auto.
  intros n Hn. specialize (Hcells (Z.of_nat n) ltac:(lia)).
  unfold rd, load in Hcells.
  destruct (Z.ltb_spec (Z.of_nat n) 0); [lia|].
  now rewrite Nat2Z.id in Hcells.
Qed.

Lemma rd_outside (a : list R) i :
  (i < 0 \/ Z.of_nat (length a) <= i)%Z -> rd a i = 0.
Proof. apply load_outside. Qed.

Lemma sum_upto_ext n (g g' : Z -> R) :
  (forall j, (0 <= j < Z.of_nat n)%Z -> g j = g' j) ->
  sum_upto n g = sum_upto n g'.
Proof.
  induction n as [|n IH]; intros Hg; simpl; auto.
  rewrite IH, (Hg (Z.of_nat n)); auto; try lia.
  intros j Hj. apply Hg. lia.
Qed.

Lemma sum_upto_const n (c : R) :
  sum_upto n (fun _ => c) = INR n * c.
Proof.
  induction n as [|n IH]; [simpl; lra|].
  rewrite S_INR. cbn [sum_upto]. rewrite IH. lra.
Qed.

Lemma sum_upto_zero n (g : Z -> R) :
  (forall j, (0 <= j < Z.of_nat n)%Z -> g j = 0) -> sum_upto n g = 0.
Proof.
  intros Hg. rewrite (sum_upto_ext n g (fun _ => 0)) by auto.
  rewrite sum_upto_const. lra.
Qed.

(** A sum with one term that is not zero. *)
Lemma sum_upto_single n (g : Z -> R) i :
  (0 <= i < Z.of_nat n)%Z ->
  (forall j, (0 <= j < Z.of_nat n)%Z -> j <> i -> g j = 0) ->
  sum_upto n g = g i.
Proof.
  induction n as [|n IH]; intros Hi Hg; [lia|].
  cbn [sum_upto].
  destruct (Z.eq_dec i (Z.of_nat n)) as [->|Hne].
  - rewrite sum_upto_zero; [lra|].
    intros j Hj. apply Hg; lia.
  - rewrite IH, (Hg (Z.of_nat n)) by (try lia; intros; apply Hg; lia). lra.
Qed.

Lemma vsum_sum_upto n (a : list R) : vsum n a = sum_upto n (rd a).
Proof. induction n as [|n IH]; simpl; auto. now rewrite IH. Qed.

(** A loop that adds [g i] at each [i] computes the sum. *)
Lemma for_range_sum (g : Z -> R) n :
  for_range 0 n (fun i s => s + g i) 0 = sum_upto (Z.to_nat n) g.
Proof.
  destruct (Z.le_gt_cases 0 n) as [Hn|Hn].
  - apply (for_range_inv (fun i s => s = sum_upto (Z.to_nat i) g)); auto.
    intros j s Hj ->.
    replace (Z.to_nat (j + 1)) with (S (Z.to_nat j)) by lia.
    cbn [sum_upto]. now rewrite Z2Nat.id by lia.
  - rewrite for_range_empty by lia.
    now replace (Z.to_nat n) with O by lia.
Qed.

(** The same for two sums at once. *)
Lemma for_range_sum2 (g g' : Z -> R) n :
  for_range 0 n (fun i '(s, s') => (s + g i, s' + g' i)) (0, 0)
  = (sum_upto (Z.to_nat n) g, sum_upto (Z.to_nat n) g').
Proof.
  destruct (Z.le_gt_cases 0 n) as [Hn|Hn].
  - apply (for_range_inv
             (fun i (p : R * R) =>
                p = (sum_upto (Z.to_nat i) g, sum_upto (Z.to_nat i) g')));
      auto.
    intros j [s s'] Hj Heq. injection Heq as -> ->.
    replace (Z.to_nat (j + 1)) with (S (Z.to_nat j)) by lia.
    cbn [sum_upto]. now rewrite Z2Nat.id by lia.
  - rewrite for_range_empty by lia.
    now replace (Z.to_nat n) with O by lia.
Qed.
End SumFacts.

(** ** The Sharpe ratio *)

Section SharpeFacts.
Context `{Libc}.
Open Scope R_scope.

(** What [calculate_sharpe_ratio] returns, with its two sums in closed
    form. *)
Lemma sharpe_closed_form values n_values risk_free_rate :
  calculate_sharpe_ratio values n_values risk_free_rate
  = if (n_values <=? 1)%Z then 0
    else if Req_dec_T (sqrt (variance_of values n_values)) 0 then 0
         else (mean_of values n_values - risk_free_rate)
              / sqrt (variance_of values n_values).
Proof.
  unfold calculate_sharpe_ratio, variance_of, mean_of.
  destruct (n_values <=? 1)%Z; [reflexivity|].
  pose proof (for_range_sum2 (rd values) (fun i => rd values i * rd values i)
                n_values) as Hsums.
  cbv beta in Hsums. rewrite Hsums. reflexivity.
Qed.

End SharpeFacts.

(** ** The portfolio values *)

Section PortfolioFacts.
Context `{Libc}.
Open Scope R_scope.

(** The loop over the simulations fills each cell with the value of the
    portfolio in that simulation. *)
Lemma portfolio_loop_spec weights arrival_values n_assets n_simulations
    portfolio_values :
  length portfolio_values = Z.to_nat n_simulations ->
  let filled :=
    for_range 0 n_simulations
      (fun sim portfolio_values =>
         let value :=
           for_range 0 n_assets
             (fun asset value =>
                value + rd weights asset
                        * rd arrival_values (sim * n_assets + asset))
             0 in
         store portfolio_values sim value)
      portfolio_values in
  length filled = Z.to_nat n_simulations /\
  forall sim, (0 <= sim < n_simulations)%Z ->
    rd filled sim = portfolio_value weights arrival_values n_assets sim.
Proof.
  intros Hlen. cbv zeta.
  destruct (Z.le_gt_cases 0 n_simulations) as [Hn|Hn].
  - apply (for_range_inv
             (fun i (pv : list R) =>
                length pv = Z.to_nat n_simulations /\
                forall sim, (0 <= sim < i)%Z ->
                  rd pv sim
                  = portfolio_value weights arrival_values n_assets sim));
      auto.
    + split; auto. intros sim Hsim. lia.
    + intros j pv Hj [Hl Hcells]. split; [now rewrite length_store|].
      intros sim Hsim. destruct (Z.eq_dec sim j) as [->|Hne].
      * rewrite rd_store_same by lia.
        pose proof (for_range_sum
                      (fun asset => rd weights asset
                                    * rd arrival_values (j * n_assets + asset))
                      n_assets) as Hsum.
        cbv beta in Hsum. exact Hsum.
      * rewrite rd_store_other by auto. apply Hcells. lia.
  - rewrite for_range_empty by lia. split; auto. intros sim Hsim. lia.
Qed.

Lemma portfolio_returns_spec weights arrival_values n_assets n_simulations :
  match calculate_portfolio_returns weights arrival_values n_assets
          n_simulations with
  | Some portfolio_values =>
      length portfolio_values = Z.to_nat n_simulations /\
      forall sim, (0 <= sim < n_simulations)%Z ->
        rd portfolio_values sim
        = portfolio_value weights arrival_values n_assets sim
  | None => allocate_array n_simulations = None
  end.
Proof.
  unfold calculate_portfolio_returns.
  destruct (allocate_array n_simulations) as [pv|] eqn:Halloc; auto.
  apply allocate_array_length in Halloc.
  now apply portfolio_loop_spec.
Qed.

(** Whether the values can be computed does not depend on the
    weights. *)
Lemma portfolio_returns_none weights weights' arrival_values n_assets
    n_simulations :
  calculate_portfolio_returns weights arrival_values n_assets n_simulations
  = None ->
  calculate_portfolio_returns weights' arrival_values n_assets n_simulations
  = None.
Proof.
  unfold calculate_portfolio_returns.
  destruct (allocate_array n_simulations); [discriminate | reflexivity].
Qed.
End PortfolioFacts.

(** ** Matrices *)

Section MatrixFacts.
Context `{Libc}.

(** The rows of a fresh matrix. *)
Lemma allocate_matrix_rows rows cols :
  match allocate_matrix rows cols with
  | Some matrix =>
      length matrix = Z.to_nat rows /\
      (forall i, (0 <= i < rows)%Z ->
         load [] matrix i = repeat 0%R (Z.to_nat cols)) /\
      malloc_ok (size_t (size_t rows * sizeof_pointer)) = true /\
      ((0 < rows)%Z ->
       malloc_ok (size_t (size_t cols * sizeof_double)) = true)
  | None =>
      malloc_ok (size_t (size_t rows * sizeof_pointer)) = false \/
      ((0 < rows)%Z /\
       malloc_ok (size_t (size_t cols * sizeof_double)) = false)
  end.
Proof.
  unfold allocate_matrix.
  destruct (malloc_ok (size_t (size_t rows * sizeof_pointer))) eqn:Hptr;
    [|left; reflexivity].
  unfold allocate_array.
  destruct (malloc_ok (size_t (size_t cols * sizeof_double))) eqn:Hrow.
  - assert (Hloop :
      forall n i (matrix : list (list R)),
        (0 <= i)%Z ->
        (i + Z.of_nat n = Z.of_nat (length matrix))%Z ->
        (forall j, (0 <= j < i)%Z ->
           load [] matrix j = repeat 0%R (Z.to_nat cols)) ->
        exists matrix',
          for_loop_exit n i
            (fun i matrix =>
               inl (store matrix i (repeat 0%R (Z.to_nat cols))))
            matrix = inl (B := unit) matrix' /\
          length matrix' = length matrix /\
          forall j, (0 <= j < i + Z.of_nat n)%Z ->
            load [] matrix' j = repeat 0%R (Z.to_nat cols)).
    { induction n as [|n IH]; intros i matrix Hi Hlen Hdone.
      - exists matrix. split; [reflexivity|]. split; [reflexivity|].
        intros j Hj. apply Hdone. lia.
      - cbn [for_loop_exit].
        destruct (IH (i + 1)%Z (store matrix i (repeat 0%R (Z.to_nat cols))))
          as [matrix' [Hrun [Hlen' Hcells]]].
        + lia.
        + rewrite length_store. lia.
        + intros j Hj. destruct (Z.eq_dec j i) as [->|Hne].
          * apply load_store_same. lia.
          * rewrite load_store_other by auto. apply Hdone. lia.
        + exists matrix'. split; [exact Hrun|].
          split; [now rewrite Hlen', length_store|].
          intros j Hj. apply Hcells. lia. }
    unfold for_range_exit.
    destruct (Hloop (Z.to_nat (rows - 0)) 0%Z (repeat [] (Z.to_nat rows)))
      as [matrix' [Hrun [Hlen' Hcells]]].
    + lia.
    + rewrite repeat_length. lia.
    + intros j Hj. lia.
    + rewrite Hrun. split; [now rewrite Hlen', repeat_length|].
      split; [intros i Hi; apply Hcells; lia|]. auto.
  - unfold for_range_exit.
    destruct (Z.to_nat (rows - 0)) as [|n] eqn:Hn; cbn [for_loop_exit].
    + split; [apply repeat_length|]. split; [intros i Hi; lia|].
      split; [reflexivity|]. intros Hpos. lia.
    + right. split; [lia | reflexivity].
Qed.
End MatrixFacts.

(** ** Cells written twice, matrices *)

Section StoreFacts.
Context {A : Type}.

Lemma upd_upd n (v v' : A) a : upd n v' (upd n v a) = upd n v' a.
Proof.
  revert n. induction a as [|x a IH]; intros [|n]; cbn; auto.
  now rewrite IH.
Qed.

Lemma upd_nth n (a : list A) d : upd n (nth n a d) a = a.
Proof.
  revert n. induction a as [|x a IH]; intros [|n]; cbn; auto.
  now rewrite IH.
Qed.

Lemma store_store (a : list A) i v v' :
  store (store a i v) i v' = store a i v'.
Proof.
  unfold store. destruct (i <? 0)%Z; [reflexivity | apply upd_upd].
Qed.

Lemma store_load_same d (a : list A) i : store a i (load d a i) = a.
Proof.
  unfold store, load. destruct (i <? 0)%Z; [reflexivity | apply upd_nth].
Qed.

(** A loop of which an iteration in range establishes the next
    invariant, whatever its bounds. *)
Lemma for_range_inv_max {S : Type} (P : Z -> S -> Prop) (body : Z -> S -> S)
    lo hi s :
  P lo s ->
  (forall j t, (lo <= j < hi)%Z -> P j t -> P (j + 1)%Z (body j t)) ->
  P (Z.max lo hi) (for_range lo hi body s).
Proof.
  intros Hs Hstep. destruct (Z.le_gt_cases lo hi) as [Hle|Hgt].
  - rewrite Z.max_r by lia. now apply for_range_inv.
  - rewrite Z.max_l by lia. rewrite for_range_empty by lia. exact Hs.
Qed.

Lemma for_range_fixed {S : Type} (body : Z -> S -> S) lo hi s :
  (forall j, (lo <= j < hi)%Z -> body j s = s) ->
  for_range lo hi body s = s.
Proof.
  intros Hfix.
  apply (for_range_inv_max (fun _ t => t = s)); auto.
  intros j t Hj ->. now apply Hfix.
Qed.
End StoreFacts.

Section MatrixCells.
Open Scope R_scope.

Lemma store_rd_same a i : store a i (rd a i) = a.
Proof. apply store_load_same. Qed.

(** Adding [h], taking [2 * h] off and adding [h] again: the
    weights of the backward evaluation, and the weights put back. *)
Lemma shifted_back weights i d :
  let forward := store weights i (rd weights i + d) in
  store forward i (rd forward i - 2 * d) = shifted weights i (- d).
Proof.
  cbv zeta. unfold shifted.
  destruct (Z.lt_ge_cases i 0) as [Hneg|Hpos];
    [|destruct (Z.lt_ge_cases i (Z.of_nat (length weights))) as [Hin|Hout]].
  - rewrite !(store_outside _ i) by (rewrite ?length_store; lia).
    reflexivity.
  - rewrite rd_store_same by lia. rewrite store_store. f_equal. lra.
  - rewrite !(store_outside _ i) by (rewrite ?length_store; lia).
    reflexivity.
Qed.

Lemma shifted_restored weights i d :
  let backward := shifted weights i (- d) in
  store backward i (rd backward i + d) = weights.
Proof.
  cbv zeta. unfold shifted.
  destruct (Z.lt_ge_cases i 0) as [Hneg|Hpos];
    [|destruct (Z.lt_ge_cases i (Z.of_nat (length weights))) as [Hin|Hout]].
  - rewrite !(store_outside _ i) by (rewrite ?length_store; lia).
    reflexivity.
  - rewrite rd_store_same by lia. rewrite store_store.
    replace (rd weights i + - d + d) with (rd weights i) by lra.
    apply store_rd_same.
  - rewrite !(store_outside _ i) by (rewrite ?length_store; lia).
    reflexivity.
Qed.

Lemma length_mwr m i j v : length (mwr m i j v) = length m.
Proof. unfold mwr. apply length_store. Qed.

Lemma length_row_mwr m i j v k :
  length (load [] (mwr m i j v) k) = length (load [] m k).
Proof.
  unfold mwr. destruct (Z.eq_dec i k) as [->|Hne].
  - destruct (Z.lt_ge_cases k 0) as [Hneg|Hpos];
      [|destruct (Z.lt_ge_cases k (Z.of_nat (length m))) as [Hin|Hout]].
    + rewrite store_outside by lia. reflexivity.
    + rewrite load_store_same by lia. apply length_store.
    + rewrite store_outside by lia. reflexivity.
  - now rewrite load_store_other.
Qed.

Lemma square_mwr n m i j v : square n m -> square n (mwr m i j v).
Proof.
  intros [Hlen Hrows]. split.
  - now rewrite length_mwr.
  - intros k Hk. rewrite length_row_mwr. now apply Hrows.
Qed.

Lemma mrd_mwr_same n m i j v :
  square n m -> (0 <= i < n)%Z -> (0 <= j < n)%Z ->
  mrd (mwr m i j v) i j = v.
Proof.
  intros [Hlen Hrows] Hi Hj. unfold mrd, mwr.
  rewrite load_store_same by lia.
  apply rd_store_same. rewrite Hrows by lia. lia.
Qed.

Lemma mrd_mwr_other m i j v i' j' :
  i <> i' \/ j <> j' -> mrd (mwr m i j v) i' j' = mrd m i' j'.
Proof.
  intros Hne. unfold mrd, mwr.
  destruct (Z.eq_dec i i') as [<-|Hi].
  - destruct Hne as [Hne|Hne]; [congruence|].
    destruct (Z.lt_ge_cases i 0) as [Hneg|Hpos];
      [|destruct (Z.lt_ge_cases i (Z.of_nat (length m))) as [Hin|Hout]].
    + rewrite store_outside by lia. reflexivity.
    + rewrite load_store_same by lia. now apply rd_store_other.
    + rewrite store_outside by lia. reflexivity.
  - now rewrite load_store_other.
Qed.
End MatrixCells.

(** ** The Newton direction *)

Section DirectionFacts.
Context `{Libc}.
Variables (arrival_values : list R) (n_assets n_simulations : Z)
          (risk_free_rate : R).
Open Scope R_scope.

Local Abbreviation f weights :=
  (negative_sharpe_ratio weights arrival_values n_assets n_simulations
                         risk_free_rate).

Lemma allocate_matrix_square m :
  allocate_matrix n_assets n_assets = Some m -> square n_assets m.
Proof.
  intros Halloc. pose proof (allocate_matrix_rows n_assets n_assets) as Hrows.
  rewrite Halloc in Hrows. destruct Hrows as [Hlen [Hcells _]].
  split; [exact Hlen|]. intros i Hi. rewrite Hcells by auto.
  apply repeat_length.
Qed.

Lemma differentiate_spec weights gradient hessian :
  length gradient = Z.to_nat n_assets ->
  square n_assets hessian ->
  forall w g hs,
    differentiate arrival_values n_assets n_simulations risk_free_rate
                  (weights, gradient, hessian) = (w, g, hs) ->
    w = weights /\ length g = Z.to_nat n_assets /\ square n_assets hs /\
    forall i, (0 <= i < n_assets)%Z ->
      rd g i = (f (shifted weights i h) - f (shifted weights i (- h)))
               / (2 * h) /\
      mrd hs i i = (f (shifted weights i h) + f (shifted weights i (- h))
                    - 2 * f weights) / (h * h) + 1e-6.
Proof.
  intros Hg Hsq w g hs Hrun.
  assert (Hinv :
    (fun (k : Z) (s : list R * list R * list (list R)) =>
       let '(w, g, hs) := s in
       w = weights /\ length g = Z.to_nat n_assets /\ square n_assets hs /\
       forall i, (0 <= i < k)%Z ->
         rd g i = (f (shifted weights i h) - f (shifted weights i (- h)))
                  / (2 * h) /\
         mrd hs i i = (f (shifted weights i h) + f (shifted weights i (- h))
                       - 2 * f weights) / (h * h) + 1e-6)
      (Z.max 0 n_assets)
      (differentiate arrival_values n_assets n_simulations risk_free_rate
                     (weights, gradient, hessian))).
  { unfold differentiate. apply for_range_inv_max.
    - split; [reflexivity|]. split; [exact Hg|]. split; [exact Hsq|].
      intros i Hi. lia.
    - intros j [[w0 g0] hs0] Hj [-> [Hg0 [Hsq0 Hcells]]].
      pose proof (shifted_back weights j h) as Hback. cbv zeta in Hback.
      pose proof (shifted_restored weights j h) as Hrest. cbv zeta in Hrest.
      cbv zeta. rewrite Hback, Hrest.
      fold (shifted weights j h).
      split; [reflexivity|]. split; [now rewrite length_store|].
      split; [now apply square_mwr, square_mwr|].
      intros i Hi. destruct (Z.eq_dec i j) as [->|Hne].
      + split.
        * apply rd_store_same. lia.
        * rewrite (mrd_mwr_same n_assets) by (auto using square_mwr).
          rewrite (mrd_mwr_same n_assets) by auto. reflexivity.
      + rewrite rd_store_other by auto.
        rewrite !mrd_mwr_other by auto. apply Hcells. lia. }
  rewrite Hrun in Hinv. destruct Hinv as [Hw [Hlen [Hsq' Hcells]]].
  repeat split; auto; try apply Hsq'; apply Hcells; lia.
Qed.

(** The inner loop of the second pass, for row [i]. *)
Lemma zero_row_spec i m :
  square n_assets m ->
  let m' := for_range 0 n_assets
              (fun j hessian =>
                 if (i =? j)%Z then hessian else mwr hessian i j 0)
              m in
  square n_assets m' /\
  forall a b, (0 <= b < n_assets)%Z ->
    mrd m' a b = if (a =? i)%Z && negb (b =? i)%Z then 0 else mrd m a b.
Proof.
  intros Hsq. cbv zeta.
  assert (Hinv :
    (fun (k : Z) (m' : list (list R)) =>
       square n_assets m' /\
       forall a b,
         mrd m' a b = if (a =? i)%Z && negb (b =? i)%Z && (b <? k)%Z
                                && (0 <=? b)%Z
                      then 0 else mrd m a b)
      (Z.max 0 n_assets)
      (for_range 0 n_assets
         (fun j hessian => if (i =? j)%Z then hessian else mwr hessian i j 0)
         m)).
  { apply for_range_inv_max.
    - split; [exact Hsq|]. intros a b.
      destruct (Z.ltb_spec b 0), (Z.leb_spec 0 b); try lia;
        now rewrite ?andb_false_r.
    - intros j m' Hj [Hsq' Hcells]. destruct (Z.eqb_spec i j) as [->|Hne].
      + split; [exact Hsq'|]. intros a b. rewrite Hcells.
        destruct (Z.eqb_spec a j), (Z.eqb_spec b j), (Z.ltb_spec b j),
          (Z.ltb_spec b (j + 1)), (Z.leb_spec 0 b);
          cbn [andb negb]; try reflexivity; lia.
      + split; [now apply square_mwr|]. intros a b.
        destruct (Z.eq_dec a i) as [Ha|Ha];
          [subst a; destruct (Z.eq_dec b j) as [Hb|Hb]; [subst b|]|].
        * destruct Hsq' as [Hlen Hrows].
          destruct (Z.lt_ge_cases i 0) as [Hneg|Hpos];
            [|destruct (Z.lt_ge_cases i n_assets) as [Hin|Hout]].
          -- unfold mwr. rewrite store_outside by lia. rewrite Hcells.
             rewrite Z.eqb_refl.
             destruct (Z.eqb_spec j i), (Z.ltb_spec j j),
               (Z.ltb_spec j (j + 1)), (Z.leb_spec 0 j);
               cbn [andb negb]; try reflexivity; try lia.
             unfold mrd. rewrite (load_outside _ m) by lia.
             apply rd_outside. cbn [length]. lia.
          -- rewrite (mrd_mwr_same n_assets) by (auto; split; auto).
             rewrite Z.eqb_refl.
             destruct (Z.eqb_spec j i), (Z.ltb_spec j (j + 1)),
               (Z.leb_spec 0 j); cbn [andb negb]; try reflexivity; lia.
          -- unfold mwr. rewrite store_outside by lia. rewrite Hcells.
             rewrite Z.eqb_refl.
             destruct (Z.eqb_spec j i), (Z.ltb_spec j j),
               (Z.ltb_spec j (j + 1)), (Z.leb_spec 0 j);
               cbn [andb negb]; try reflexivity; try lia.
             unfold mrd. destruct Hsq as [Hlen0 _].
             rewrite (load_outside _ m) by lia.
             apply rd_outside. cbn [length]. lia.
        * rewrite mrd_mwr_other by auto. rewrite Hcells.
          destruct (Z.eqb_spec i i), (Z.eqb_spec b i), (Z.ltb_spec b j),
            (Z.ltb_spec b (j + 1)), (Z.leb_spec 0 b);
            cbn [andb negb]; try reflexivity; lia.
        * rewrite mrd_mwr_other by auto. rewrite Hcells.
          destruct (Z.eqb_spec a i); [contradiction|]. reflexivity. }
  destruct Hinv as [Hsq' Hcells]. split; [exact Hsq'|].
  intros a b Hb. rewrite Hcells.
  destruct (Z.ltb_spec b (Z.max 0 n_assets)), (Z.leb_spec 0 b); try lia.
  now rewrite !andb_true_r.
Qed.

Lemma zero_off_diagonal_spec hessian :
  square n_assets hessian ->
  square n_assets (zero_off_diagonal n_assets hessian) /\
  forall i j, (0 <= i < n_assets)%Z -> (0 <= j < n_assets)%Z ->
    mrd (zero_off_diagonal n_assets hessian) i j
    = if (i =? j)%Z then mrd hessian i i else 0.
Proof.
  intros Hsq.
  assert (Hinv :
    (fun (k : Z) (m' : list (list R)) =>
       square n_assets m' /\
       forall a b, (0 <= b < n_assets)%Z ->
         mrd m' a b = if negb (a =? b)%Z && (a <? k)%Z && (0 <=? a)%Z
                      then 0 else mrd hessian a b)
      (Z.max 0 n_assets) (zero_off_diagonal n_assets hessian)).
  { unfold zero_off_diagonal. apply for_range_inv_max.
    - split; [exact Hsq|]. intros a b Hb.
      destruct (Z.ltb_spec a 0), (Z.leb_spec 0 a); try lia;
        now rewrite ?andb_false_r.
    - intros i m' Hi [Hsq' Hcells].
      destruct (zero_row_spec i m' Hsq') as [Hsq'' Hrow].
      split; [exact Hsq''|]. intros a b Hb.
      rewrite Hrow by auto. rewrite Hcells by auto.
      destruct (Z.eqb_spec a i), (Z.eqb_spec b i), (Z.eqb_spec a b),
        (Z.ltb_spec a i), (Z.ltb_spec a (i + 1)), (Z.leb_spec 0 a);
        cbn [andb negb]; try reflexivity; lia. }
  destruct Hinv as [Hsq' Hcells]. split; [exact Hsq'|].
  intros i j Hi Hj. rewrite Hcells by auto.
  destruct (Z.eqb_spec i j) as [Heq|Hne], (Z.ltb_spec i (Z.max 0 n_assets)),
    (Z.leb_spec 0 i); cbn [andb negb]; try lia;
    [now subst j | reflexivity].
Qed.

Lemma solve_diagonal_spec gradient hessian delta :
  length delta = Z.to_nat n_assets ->
  length (solve_diagonal n_assets gradient hessian delta)
  = Z.to_nat n_assets /\
  forall i, (0 <= i < n_assets)%Z ->
    rd (solve_diagonal n_assets gradient hessian delta) i
    = - rd gradient i / mrd hessian i i.
Proof.
  intros Hlen.
  assert (Hinv :
    (fun (k : Z) (d : list R) =>
       length d = Z.to_nat n_assets /\
       forall i, (0 <= i < k)%Z ->
         rd d i = - rd gradient i / mrd hessian i i)
      (Z.max 0 n_assets) (solve_diagonal n_assets gradient hessian delta)).
  { unfold solve_diagonal. apply for_range_inv_max.
    - split; [exact Hlen|]. intros i Hi. lia.
    - intros j d Hj [Hd Hcells]. split; [now rewrite length_store|].
      intros i Hi. destruct (Z.eq_dec i j) as [->|Hne].
      + apply rd_store_same. lia.
      + rewrite rd_store_other by auto. apply Hcells. lia. }
  destruct Hinv as [Hd Hcells]. split; [exact Hd|].
  intros i Hi. apply Hcells. lia.
Qed.

(** The direction of a round: gradient by central differences, and the
    step, the gradient over the damped second difference. *)
Lemma newton_direction_spec weights w gradient delta :
  newton_direction arrival_values n_assets n_simulations risk_free_rate
                   weights = Some (w, gradient, delta) ->
  w = weights /\
  length gradient = Z.to_nat n_assets /\
  length delta = Z.to_nat n_assets /\
  forall i, (0 <= i < n_assets)%Z ->
    rd gradient i
    = (f (shifted weights i h) - f (shifted weights i (- h))) / (2 * h) /\
    rd delta i
    = - rd gradient i
      / ((f (shifted weights i h) + f (shifted weights i (- h))
          - 2 * f weights) / (h * h) + 1e-6).
Proof.
  unfold newton_direction.
  destruct (allocate_matrix n_assets n_assets) as [hs|] eqn:Hhs;
    [|discriminate].
  destruct (allocate_array n_assets) as [g|] eqn:Hg; [|discriminate].
  pose proof (differentiate_spec weights g hs
                (allocate_array_length _ _ Hg)
                (allocate_matrix_square _ Hhs)) as Hdiff.
  destruct (differentiate _ _ _ _ _) as [[w1 g1] hs1].
  destruct (Hdiff w1 g1 hs1 eq_refl) as [-> [Hg1 [Hsq Hcells]]].
  intros Heq. injection Heq as <- <- <-.
  destruct (zero_off_diagonal_spec hs1 Hsq) as [Hsq' Hzero].
  destruct (solve_diagonal_spec g1 (zero_off_diagonal n_assets hs1) g
              (allocate_array_length _ _ Hg)) as [Hd Hdelta].
  repeat split; auto; try (now apply Hcells).
  rewrite Hdelta by auto. rewrite Hzero by auto. rewrite Z.eqb_refl.
  destruct (Hcells i H0) as [_ ->]. reflexivity.
Qed.
End DirectionFacts.

(** ** The projection, cell by cell *)

Section ProjectionFacts.
Context `{Libc}.
Variable n_assets : Z.
Open Scope R_scope.

Lemma update_weights_zero alpha delta weights :
  (forall i, (0 <= i < n_assets)%Z -> rd delta i = 0) ->
  update_weights n_assets alpha delta weights = weights.
Proof.
  intros Hzero. unfold update_weights. apply for_range_fixed.
  intros j Hj. rewrite Hzero by auto.
  rewrite Rmult_0_r, Rplus_0_r. apply store_rd_same.
Qed.

Lemma update_weights_cells alpha delta weights :
  length weights = Z.to_nat n_assets ->
  forall i, (0 <= i < n_assets)%Z ->
    rd (update_weights n_assets alpha delta weights) i
    = rd weights i + alpha * rd delta i.
Proof.
  intros Hlen.
  assert (Hinv :
    (fun (k : Z) (w : list R) =>
       length w = Z.to_nat n_assets /\
       forall i, rd w i = if (0 <=? i)%Z && (i <? k)%Z
                          then rd weights i + alpha * rd delta i
                          else rd weights i)
      (Z.max 0 n_assets) (update_weights n_assets alpha delta weights)).
  { unfold update_weights. apply for_range_inv_max.
    - split; [exact Hlen|]. intros i.
      destruct (Z.leb_spec 0 i), (Z.ltb_spec i 0); cbn [andb];
        try reflexivity; lia.
    - intros j w Hj [Hw Hcells]. split; [now rewrite length_store|].
      intros i. destruct (Z.eq_dec i j) as [Heq|Hne].
      + subst i. rewrite rd_store_same by lia. rewrite Hcells.
        destruct (Z.leb_spec 0 j), (Z.ltb_spec j j), (Z.ltb_spec j (j + 1));
          cbn [andb]; try reflexivity; lia.
      + rewrite rd_store_other by auto. rewrite Hcells.
        destruct (Z.leb_spec 0 i), (Z.ltb_spec i j), (Z.ltb_spec i (j + 1));
          cbn [andb]; try reflexivity; lia. }
  destruct Hinv as [_ Hcells]. intros i Hi. rewrite Hcells.
  destruct (Z.leb_spec 0 i), (Z.ltb_spec i (Z.max 0 n_assets));
    cbn [andb]; try reflexivity; lia.
Qed.

(** What the projection leaves in each cell: the positive part of the
    weight over the sum of the positive parts, when that sum is
    positive; zero otherwise. *)
Lemma project_simplex_cells weights :
  length weights = Z.to_nat n_assets ->
  forall i, (0 <= i < n_assets)%Z ->
    rd (project_simplex n_assets weights) i
    = if Rlt_dec 0 (positive_sum (Z.to_nat n_assets) weights)
      then Rmax (rd weights i) 0
           / positive_sum (Z.to_nat n_assets) weights
      else 0.
Proof.
  intros Hlen i Hi. unfold project_simplex.
  destruct (for_range 0 n_assets _ (weights, 0)) as [w s] eqn:Hclamp.
  apply clamp_sum_spec in Hclamp; [|exact Hlen].
  destruct Hclamp as [Hw [Hcells Hs]].
  assert (Hsum : s = positive_sum (Z.to_nat n_assets) weights).
  { rewrite Hs, vsum_sum_upto. unfold positive_sum. apply sum_upto_ext.
    intros j Hj. apply Hcells. lia. }
  rewrite <- Hsum.
  destruct (Rlt_dec 0 s) as [Hpos|Hnpos].
  - destruct (normalize_spec n_assets s w) as [_ Hnorm]; [congruence|].
    rewrite Hnorm by auto. now rewrite Hcells.
  - apply (vsum_zero (Z.to_nat n_assets) w).
    + intros j Hj. rewrite Hcells by lia. apply Rmax_r.
    + rewrite <- Hs. lra.
    + lia.
Qed.

(** One attempt of the line search, cell by cell. *)
Lemma ls_attempt_cells alpha delta weights :
  length weights = Z.to_nat n_assets ->
  forall i, (0 <= i < n_assets)%Z ->
    rd (ls_attempt n_assets alpha delta weights) i
    = if Rlt_dec 0 (sum_upto (Z.to_nat n_assets)
                      (fun j => Rmax (rd weights j + alpha * rd delta j) 0))
      then Rmax (rd weights i + alpha * rd delta i) 0
           / sum_upto (Z.to_nat n_assets)
               (fun j => Rmax (rd weights j + alpha * rd delta j) 0)
      else 0.
Proof.
  intros Hlen i Hi. unfold ls_attempt.
  rewrite project_simplex_cells
    by (rewrite ?length_update_weights; auto).
  assert (Hsum : positive_sum (Z.to_nat n_assets)
                   (update_weights n_assets alpha delta weights)
                 = sum_upto (Z.to_nat n_assets)
                     (fun j => Rmax (rd weights j + alpha * rd delta j) 0)).
  { unfold positive_sum. apply sum_upto_ext. intros j Hj.
    rewrite update_weights_cells by (auto; lia). reflexivity. }
  rewrite Hsum, update_weights_cells by auto. reflexivity.
Qed.

(** Weights that are on the simplex, or all zero, are left as they
    are. *)
Lemma project_simplex_fixed weights :
  length weights = Z.to_nat n_assets ->
  simplex_or_zero n_assets weights ->
  project_simplex n_assets weights = weights.
Proof.
  intros Hlen [Hnonneg Hsum].
  destruct (project_simplex_spec n_assets weights Hlen) as [Hlen' _].
  apply rd_ext; [exact Hlen'|].
  intros j Hj. rewrite Hlen', Hlen in Hj.
  rewrite project_simplex_cells by (auto; lia).
  assert (Hpos : positive_sum (Z.to_nat n_assets) weights
                 = vsum (Z.to_nat n_assets) weights).
  { rewrite vsum_sum_upto. unfold positive_sum. apply sum_upto_ext.
    intros k Hk. apply Rmax_left. apply Hnonneg. lia. }
  rewrite Hpos. destruct Hsum as [Hone|Hzero].
  - rewrite Hone. destruct (Rlt_dec 0 1) as [_|Hn]; [|lra].
    rewrite Rmax_left by (apply Hnonneg; lia). lra.
  - assert (Hv : vsum (Z.to_nat n_assets) weights = 0).
    { rewrite vsum_sum_upto. apply sum_upto_zero.
      intros k Hk. apply Hzero. lia. }
    rewrite Hv. destruct (Rlt_dec 0 0) as [Hn|_]; [lra|].
    symmetry. apply Hzero. lia.
Qed.

Lemma project_simplex_twice weights :
  length weights = Z.to_nat n_assets ->
  project_simplex n_assets (project_simplex n_assets weights)
  = project_simplex n_assets weights.
Proof.
  intros Hlen.
  destruct (project_simplex_spec n_assets weights Hlen) as [Hlen' Hsimplex].
  apply project_simplex_fixed; [congruence | exact Hsimplex].
Qed.
End ProjectionFacts.

(** ** An objective that does not depend on the weights *)

Section FlatObjective.
Context `{Libc}.
Variables (arrival_values : list R) (n_assets n_simulations : Z)
          (risk_free_rate tolerance : R).
Open Scope R_scope.

Local Abbreviation f weights :=
  (negative_sharpe_ratio weights arrival_values n_assets n_simulations
                         risk_free_rate).

Hypothesis Hflat : forall w w', f w = f w'.

Lemma flat_direction weights w gradient delta :
  newton_direction arrival_values n_assets n_simulations risk_free_rate
                   weights = Some (w, gradient, delta) ->
  w = weights /\
  forall i, (0 <= i < n_assets)%Z -> rd gradient i = 0 /\ rd delta i = 0.
Proof.
  intros Hdir. apply newton_direction_spec in Hdir.
  destruct Hdir as [Hw [_ [_ Hcells]]]. split; [exact Hw|].
  intros i Hi. destruct (Hcells i Hi) as [Hg Hd].
  assert (Hzero : rd gradient i = 0).
  { rewrite Hg. rewrite (Hflat (shifted weights i h) (shifted weights i (- h))).
    unfold Rdiv. rewrite Rminus_diag. apply Rmult_0_l. }
  split; [exact Hzero|].
  rewrite Hd, Hzero. unfold Rdiv. rewrite Ropp_0. apply Rmult_0_l.
Qed.

Lemma flat_attempts delta weights :
  length weights = Z.to_nat n_assets ->
  (forall i, (0 <= i < n_assets)%Z -> rd delta i = 0) ->
  forall k, cumulative_attempt n_assets k delta weights
            = project_simplex n_assets weights.
Proof.
  intros Hlen Hzero. induction k as [|k IH].
  - cbn [cumulative_attempt]. unfold ls_attempt.
    now rewrite update_weights_zero.
  - cbn [cumulative_attempt]. rewrite IH. unfold ls_attempt.
    rewrite update_weights_zero by auto.
    now apply project_simplex_twice.
Qed.

Lemma flat_grad_norm gradient :
  (forall i, (0 <= i < n_assets)%Z -> rd gradient i = 0) ->
  grad_norm n_assets gradient = 0.
Proof.
  intros Hzero. unfold grad_norm.
  pose proof (for_range_sum (fun i => rd gradient i * rd gradient i)
                n_assets) as Hsum.
  cbv beta in Hsum. rewrite Hsum.
  rewrite sum_upto_zero; [apply sqrt_0|].
  intros j Hj. rewrite Hzero by lia. apply Rmult_0_l.
Qed.

Lemma flat_round iter weights :
  length weights = Z.to_nat n_assets ->
  malloc_ok (size_t (size_t n_assets * sizeof_double)) = true ->
  newton_round arrival_values n_assets n_simulations risk_free_rate
               tolerance iter weights
  = if Rlt_dec 0 tolerance
    then inr (Some (project_simplex n_assets weights))
    else inl (project_simplex n_assets weights).
Proof.
  intros Hlen Hok. unfold newton_round.
  pose proof (newton_direction_granted arrival_values n_assets n_simulations
                risk_free_rate weights Hok) as Hdir.
  destruct (newton_direction _ _ _ _ _) as [[[w g] d]|] eqn:Heq;
    [|congruence].
  apply flat_direction in Heq. destruct Heq as [-> Hcells].
  rewrite flat_grad_norm by (intros i Hi; apply (Hcells i Hi)).
  destruct (line_search_spec arrival_values n_assets n_simulations
              risk_free_rate (f weights) d weights) as [k [_ [Hls _]]].
  rewrite Hls.
  rewrite flat_attempts by (auto; intros i Hi; apply (Hcells i Hi)).
  reflexivity.
Qed.

Lemma flat_rounds weights :
  length weights = Z.to_nat n_assets ->
  malloc_ok (size_t (size_t n_assets * sizeof_double)) = true ->
  forall n i,
    for_loop_exit (S n) i
      (newton_round arrival_values n_assets n_simulations risk_free_rate
                    tolerance)
      weights
    = if Rlt_dec 0 tolerance
      then inr (Some (project_simplex n_assets weights))
      else inl (project_simplex n_assets weights).
Proof.
  intros Hlen Hok n. revert weights Hlen.
  induction n as [|n IH]; intros weights Hlen i.
  - cbn [for_loop_exit]. rewrite flat_round by auto.
    destruct (Rlt_dec 0 tolerance); reflexivity.
  - change (for_loop_exit (S (S n)) i ?b weights)
      with (match b i weights with
            | inl s' => for_loop_exit (S n) (i + 1) b s'
            | inr e => inr e
            end).
    rewrite flat_round by auto.
    destruct (Rlt_dec 0 tolerance) as [Hpos|Hnpos] eqn:Htol; [reflexivity|].
    destruct (project_simplex_spec n_assets weights Hlen) as [Hlen' _].
    rewrite IH by congruence.
    now rewrite project_simplex_twice.
Qed.

Lemma initial_copy_cells initial_weights weights :
  length weights = Z.to_nat n_assets ->
  forall i, (0 <= i < n_assets)%Z ->
    rd (for_range 0 n_assets
          (fun i weights => store weights i (rd initial_weights i))
          weights) i
    = rd initial_weights i.
Proof.
  intros Hlen.
  assert (Hinv :
    (fun (k : Z) (w : list R) =>
       length w = Z.to_nat n_assets /\
       forall i, (0 <= i < k)%Z -> rd w i = rd initial_weights i)
      (Z.max 0 n_assets)
      (for_range 0 n_assets
         (fun i weights => store weights i (rd initial_weights i))
         weights)).
  { apply for_range_inv_max.
    - split; [exact Hlen|]. intros i Hi. lia.
    - intros j w Hj [Hw Hcells]. split; [now rewrite length_store|].
      intros i Hi. destruct (Z.eq_dec i j) as [Heq|Hne].
      + subst i. apply rd_store_same. lia.
      + rewrite rd_store_other by auto. apply Hcells. lia. }
  destruct Hinv as [_ Hcells]. intros i Hi. apply Hcells. lia.
Qed.
End FlatObjective.

(** ** When the objective is flat *)

Section FlatCases.
Context `{Libc}.
Open Scope R_scope.

(** With at most one simulation [calculate_sharpe_ratio] returns
    before it computes anything, and the objective is the same at all
    weights. *)
Lemma flat_objective arrival_values n_assets n_simulations risk_free_rate :
  (n_simulations <= 1)%Z ->
  forall w w',
    negative_sharpe_ratio w arrival_values n_assets n_simulations
                          risk_free_rate
    = negative_sharpe_ratio w' arrival_values n_assets n_simulations
                            risk_free_rate.
Proof.
  intros Hone.
  assert (Hzero : forall pv,
            calculate_sharpe_ratio pv n_simulations risk_free_rate = 0).
  { intros pv. unfold calculate_sharpe_ratio.
    destruct (Z.leb_spec n_simulations 1); [reflexivity | lia]. }
  intros w w'. unfold negative_sharpe_ratio.
  destruct (calculate_portfolio_returns w arrival_values n_assets
              n_simulations) as [pv|] eqn:Hpv.
  - destruct (calculate_portfolio_returns w' arrival_values n_assets
                n_simulations) as [pv'|] eqn:Hpv'.
    + now rewrite (Hzero pv), (Hzero pv').
    + apply (portfolio_returns_none w' w) in Hpv'. congruence.
  - apply (portfolio_returns_none w w') in Hpv. now rewrite Hpv.
Qed.

Lemma allocate_array_ok size a :
  allocate_array size = Some a ->
  malloc_ok (size_t (size_t size * sizeof_double)) = true.
Proof.
  unfold allocate_array.
  destruct (malloc_ok _); [reflexivity | discriminate].
Qed.

Lemma grad_norm_nonneg n_assets gradient : 0 <= grad_norm n_assets gradient.
Proof. unfold grad_norm. apply sqrt_pos. Qed.
End FlatCases.

(** ** What is printed, what is drawn *)

Section OutputFacts.
Context `{Libc}.

Lemma silent_ret {A : Type} (a : A) : silent (ret a).
Proof. intros st. reflexivity. Qed.

Lemma silent_timeout {A : Type} : silent (@timeout _ A).
Proof. intros st. reflexivity. Qed.

Lemma silent_random_int max_val : silent (random_int max_val).
Proof.
  intros st. unfold random_int.
  destruct (rand (gen st)) as [r g]. destruct (max_val =? 0); reflexivity.
Qed.

Lemma silent_seed_once seed : silent (seed_once seed).
Proof.
  intros st. unfold seed_once. destruct (_ && _); reflexivity.
Qed.

Lemma silent_bind {A B : Type} (m : M A) (k : A -> M B) :
  silent m -> (forall a, silent (k a)) -> silent (bind m k).
Proof.
  intros Hm Hk st. unfold bind.
  specialize (Hm st). destruct (m st) as [[a| |] st']; cbn [snd] in *; auto.
  rewrite (Hk a st'). exact Hm.
Qed.

Lemma silent_for_loop_m {S : Type} (body : Z -> S -> M S) :
  (forall i s, silent (body i s)) ->
  forall n i s, silent (for_loop_m n i body s).
Proof.
  intros Hbody. induction n as [|n IH]; intros i s; cbn [for_loop_m].
  - apply silent_ret.
  - apply silent_bind; auto.
Qed.

Lemma silent_while_m {S : Type} (cond : S -> bool) (body : S -> M S) :
  (forall s, silent (body s)) ->
  forall fuel s, silent (while_m fuel cond body s).
Proof.
  intros Hbody. induction fuel as [|fuel IH]; intros s; cbn [while_m];
    destruct (cond s);
    auto using silent_ret, silent_timeout, silent_bind.
Qed.

Lemma silent_row_iteration fuel log_returns sample_size block_size n_blocks
    bootstrap_idx bootstrap_samples :
  silent (row_iteration fuel log_returns sample_size block_size n_blocks
                        bootstrap_idx bootstrap_samples).
Proof.
  unfold row_iteration, fill_row.
  apply silent_bind; [|intros a; apply silent_ret].
  apply silent_while_m. intros s.
  apply silent_bind; [apply silent_random_int | intros a; apply silent_ret].
Qed.

Lemma silent_terminal_iteration S0 bootstrap_samples n_bootstrap sample_size
    iter final_prices :
  silent (Mbb.iteration S0 bootstrap_samples n_bootstrap sample_size iter
                        final_prices).
Proof.
  unfold Mbb.iteration.
  apply silent_bind; [apply silent_random_int | intros a; apply silent_ret].
Qed.

Lemma silent_paths_iteration S0 bootstrap_samples n_bootstrap sample_size
    iterations iter results :
  silent (Cribari.iteration S0 bootstrap_samples n_bootstrap sample_size
                            iterations iter results).
Proof.
  unfold Cribari.iteration.
  apply silent_bind; [apply silent_random_int | intros a; apply silent_ret].
Qed.

(** One call of [random_int]. *)
Lemma random_int_spec max_val st :
  let st' := snd (random_int max_val st) in
  gen st' = snd (rand (gen st)) /\
  stdout st' = stdout st /\
  match fst (random_int max_val st) with
  | Done v => max_val <> 0 /\ 0 <= v < Z.abs max_val
  | Crashed => max_val = 0
  | Timeout => False
  end.
Proof.
  unfold random_int.
  destruct (rand (gen st)) as [r g] eqn:Hrand.
  destruct (Z.eqb_spec max_val 0) as [Hz|Hnz]; cbn.
  - auto.
  - split; [reflexivity|]. split; [reflexivity|]. split; [assumption|].
    pose proof (N2Z.is_nonneg r) as Hr.
    destruct (Z.lt_trichotomy max_val 0) as [Hneg|[Hzero|Hpos]].
    + assert (Hopp : Z.rem (Z.of_N r) max_val
                     = Z.rem (Z.of_N r) (- max_val))
        by (rewrite Z.rem_opp_r; [reflexivity | lia]).
      rewrite Hopp.
      pose proof (Z.rem_bound_pos (Z.of_N r) (- max_val) Hr) as Hb. lia.
    + lia.
    + pose proof (Z.rem_bound_pos (Z.of_N r) max_val Hr) as Hb. lia.
Qed.

(** The rows [n] iterations draw, and the generator after them. *)
Lemma draw_rows_state n_bootstrap n st :
  match draw_rows n_bootstrap n st with
  | (Done idxs, st') =>
      length idxs = n /\
      Forall (fun i => 0 <= i < Z.abs n_bootstrap) idxs /\
      gen st' = rand_steps n (gen st)
  | (Crashed, _) => n_bootstrap = 0
  | (Timeout, _) => False
  end.
Proof.
  revert st. induction n as [|n IH]; intros st.
  - cbn. auto.
  - rewrite draw_rows_step.
    pose proof (random_int_spec n_bootstrap st) as Hdraw. cbv zeta in Hdraw.
    destruct (random_int n_bootstrap st) as [[v| |] st0]; cbn [fst snd] in *.
    + destruct Hdraw as [Hgen [_ [_ Hv]]].
      specialize (IH st0).
      destruct (draw_rows n_bootstrap n st0) as [[idxs| |] st1]; auto.
      destruct IH as [Hlen [Hall Hgen1]].
      split; [cbn [length]; congruence|]. split; [now constructor|].
      cbn [rand_steps]. congruence.
    + apply Hdraw.
    + apply Hdraw.
Qed.
End OutputFacts.

(** ** Compounding *)

Section CompoundFacts.
Open Scope R_scope.

(** The price after [t] steps is the start price times the
    exponential of the sum of the log-returns met. *)
Lemma price_after_exp S0 bootstrap_samples sample_size bootstrap_idx t :
  price_after S0 bootstrap_samples sample_size bootstrap_idx t
  = S0 * exp (log_return_sum bootstrap_samples sample_size bootstrap_idx t).
Proof.
  destruct (Z.le_gt_cases t 0) as [Hle|Hgt].
  - rewrite price_after_start by exact Hle. unfold log_return_sum.
    replace (Z.to_nat t) with O by lia. cbn [sum_upto].
    rewrite exp_0. lra.
  - unfold log_return_sum.
    rewrite <- (Z2Nat.id t) at 1 by lia.
    induction (Z.to_nat t) as [|n IH].
    + cbn [sum_upto]. rewrite price_after_start by (cbn; lia).
      rewrite exp_0. lra.
    + rewrite Nat2Z.inj_succ. unfold Z.succ.
      rewrite price_after_step by lia. rewrite IH.
      cbn [sum_upto]. rewrite exp_plus. lra.
Qed.
End CompoundFacts.

(** ** The draws of the bootstrap *)

Section DrawFacts.
Context `{Libc}.

Lemma rand_steps_add a b g :
  rand_steps (a + b) g = rand_steps b (rand_steps a g).
Proof.
  revert g. induction a as [|a IH]; intros g; cbn [rand_steps Nat.add].
  - reflexivity.
  - apply IH.
Qed.

(** The blocks a row still needs when [r] of its cells are left. *)
Lemma blocks_left_none r block_size :
  1 <= block_size -> r <= 0 ->
  Z.to_nat ((r + block_size - 1) / block_size) = O.
Proof.
  intros Hbs Hr.
  assert (Hq : (r + block_size - 1) / block_size < 1)
    by (apply Z.div_lt_upper_bound; lia).
  lia.
Qed.

Lemma blocks_left_step r block_size :
  1 <= block_size -> 0 < r ->
  Z.to_nat ((r + block_size - 1) / block_size)
  = S (Z.to_nat ((r - Z.min block_size r + block_size - 1) / block_size)).
Proof.
  intros Hbs Hr.
  assert (Hsplit : (r + block_size - 1) / block_size
                   = (r - 1) / block_size + 1).
  { replace (r + block_size - 1) with (r - 1 + 1 * block_size) by lia.
    apply Z.div_add. lia. }
  assert (Hrest : (r - Z.min block_size r + block_size - 1) / block_size
                  = (r - 1) / block_size).
  { destruct (Z.min_spec block_size r) as [[Hc ->]|[Hc ->]].
    - f_equal. lia.
    - replace (r - r + block_size - 1) with (block_size - 1) by lia.
      rewrite !Z.div_small by lia. reflexivity. }
  rewrite Hsplit, Hrest.
  assert (Hpos : 0 <= (r - 1) / block_size) by (apply Z.div_pos; lia).
  lia.
Qed.

Lemma fill_loop_draws log_returns sample_size block_size n_blocks
    bootstrap_idx :
  1 <= block_size ->
  forall fuel sample_idx bootstrap_samples st,
    match
      while_m fuel
        (fun '(sample_idx, _) => sample_idx <? sample_size)
        (fun s =>
           block_start <- random_int n_blocks ;;
           ret (copy_block log_returns sample_size block_size
                           bootstrap_idx block_start s))
        (sample_idx, bootstrap_samples) st
    with
    | (Done _, st') =>
        gen st'
        = rand_steps
            (Z.to_nat ((sample_size - sample_idx + block_size - 1)
                       / block_size))
            (gen st)
    | _ => True
    end.
Proof.
  intros Hbs.
  induction fuel as [|fuel IH]; intros sample_idx bootstrap_samples st.
  - cbn [while_m]. cbv beta iota.
    destruct (Z.ltb_spec sample_idx sample_size) as [Hlt|Hge].
    + exact I.
    + unfold ret. rewrite blocks_left_none by lia. reflexivity.
  - cbn [while_m]. cbv beta iota.
    destruct (Z.ltb_spec sample_idx sample_size) as [Hlt|Hge].
    + rewrite !bind_run.
      pose proof (random_int_spec n_blocks st) as Hdraw. cbv zeta in Hdraw.
      destruct (random_int n_blocks st) as [[block_start| |] st1];
        [|exact I|exact I].
      cbn [fst snd] in Hdraw. destruct Hdraw as [Hgen _].
      unfold ret at 1.
      pose proof (copy_block_spec log_returns sample_size block_size
                    bootstrap_idx block_start sample_idx bootstrap_samples
                    ltac:(lia)) as Hcopy.
      cbv zeta in Hcopy.
      destruct (copy_block log_returns sample_size block_size bootstrap_idx
                           block_start (sample_idx, bootstrap_samples))
        as [s1 b1].
      cbn [fst snd] in Hcopy. destruct Hcopy as [Hs1 _].
      specialize (IH s1 b1 st1).
      destruct (while_m fuel _ _ (s1, b1) st1) as [[r| |] st2];
        [|exact I|exact I].
      rewrite IH, Hgen.
      rewrite (blocks_left_step (sample_size - sample_idx) block_size)
        by lia.
      cbn [rand_steps]. do 3 f_equal. lia.
    + unfold ret. rewrite blocks_left_none by lia. reflexivity.
Qed.

Lemma rows_loop_draws fuel log_returns sample_size block_size n_blocks :
  1 <= block_size ->
  forall n bootstrap_idx bootstrap_samples st,
    match
      for_loop_m n bootstrap_idx
        (row_iteration fuel log_returns sample_size block_size n_blocks)
        bootstrap_samples st
    with
    | (Done _, st') =>
        gen st'
        = rand_steps
            (n * Z.to_nat ((sample_size + block_size - 1) / block_size))
            (gen st)
    | _ => True
    end.
Proof.
  intros Hbs.
  induction n as [|n IH]; intros k b st.
  - reflexivity.
  - rewrite for_loop_m_step. unfold row_iteration at 1, fill_row.
    rewrite bind_run.
    pose proof (fill_loop_draws log_returns sample_size block_size n_blocks
                  k Hbs fuel 0 b st) as Hfill.
    destruct (while_m fuel _ _ (0, b) st) as [[[s1 b1]| |] st1];
      [|exact I|exact I].
    unfold ret at 1. cbn [snd].
    specialize (IH (k + 1) b1 st1).
    destruct (for_loop_m n (k + 1) _ b1 st1) as [[b2| |] st2];
      [|exact I|exact I].
    rewrite IH, Hfill.
    replace (sample_size - 0 + block_size - 1)
      with (sample_size + block_size - 1) by lia.
    change (S n * ?k)%nat with (k + n * k)%nat.
    now rewrite rand_steps_add.
Qed.

(** A row made of copies of the block that starts at [0]. *)
Lemma nth_first_blocks log_returns block_size starts :
  1 <= block_size ->
  Forall (fun s => 0 <= s < 1) starts ->
  forall u, 0 <= u < Z.of_nat (length starts) * block_size ->
    nth (Z.to_nat u) (concat (map (block log_returns block_size) starts))
        0%R
    = rd log_returns (u mod block_size).
Proof.
  intros Hbs Hstarts. induction Hstarts as [|s starts Hs Hrest IH];
    intros u Hu.
  - cbn [length] in Hu. lia.
  - assert (Hzero : s = 0) by lia. subst s.
    cbn [map concat].
    destruct (Z.lt_ge_cases u block_size) as [Hlt|Hge].
    + rewrite app_nth1 by (rewrite block_length; lia).
      rewrite block_nth by lia. rewrite Z.mod_small by lia.
      f_equal.
    + rewrite app_nth2 by (rewrite block_length; lia).
      rewrite block_length.
      replace (Z.to_nat u - Z.to_nat block_size)%nat
        with (Z.to_nat (u - block_size)) by lia.
      rewrite IH by (cbn [length] in Hu; lia).
      f_equal.
      replace u with (u - block_size + 1 * block_size) at 2 by lia.
      now rewrite Z.mod_add by lia.
Qed.
End DrawFacts.

(** * The claims *)

(** ** Claims about the seeding and the validation of the bootstrap *)

Section BootstrapClaims.
Context `{Libc}.

(** C6.  When [block_size > n_returns], [moving_block_bootstrap]
    returns [NULL] (no sample set) whatever its other arguments, the
    fuel and the state of the process are, and what it prints is the
    one error message about the length of the series. *)
Theorem bootstrap_rejects_short_series :
  forall (fuel : nat) (log_returns : list R)
         (n_returns n_bootstrap sample_size block_size seed : Z)
         (st : process),
    n_returns < block_size ->
    exists st',
      moving_block_bootstrap fuel log_returns n_returns n_bootstrap
                             sample_size block_size seed st
      = (Done None, st') /\
      stdout st' = stdout st ++ [InvalidInput n_returns block_size].
Proof.
  intros fuel log_returns n_returns n_bootstrap sample_size block_size seed
         st Hshort.
  apply Z.ltb_lt in Hshort.
  unfold moving_block_bootstrap. rewrite Hshort.
  unfold bind, seed_once, printf, ret.
  destruct ((0 <? seed) && negb (seed_set st)); eexists; split; reflexivity.
Qed.

(** C7.  Run any sequence of calls of [moving_block_bootstrap] and of
    the two [monte_carlo_simulation] from a fresh process.  [srand] is
    called at most once, and only with the seed of the first call of
    [moving_block_bootstrap] whose seed is positive: the log of the
    calls of [srand] is empty or holds that one seed.  When every call
    of the sequence returns, the log is exactly that seed, or empty
    when no call has a positive seed. *)
Theorem seeded_at_most_once :
  forall cs : list call,
    let st := snd (run_calls cs initial_process) in
    (srand_log st = [] \/
     exists seed, first_seeding cs = Some seed /\ srand_log st = [seed]) /\
    (fst (run_calls cs initial_process) = Done tt ->
     srand_log st = match first_seeding cs with
                    | Some seed => [seed]
                    | None => []
                    end).
Proof.
  intros cs.
  exact (run_calls_unseeded cs initial_process eq_refl).
Qed.

(** C9.  A call of [moving_block_bootstrap] with a positive seed, in a
    process that was not seeded, that fails the length check: it
    returns [NULL], and yet it has called [srand] with its seed, which
    set the state of the generator, and it has set the flag.  No call
    that comes later in the process, whatever its seed, calls [srand]
    again. *)
Theorem rejected_call_consumes_seeding :
  forall (fuel : nat) (log_returns : list R)
         (n_returns n_bootstrap sample_size block_size seed : Z)
         (st : process),
    0 < seed ->
    seed_set st = false ->
    n_returns < block_size ->
    exists st',
      moving_block_bootstrap fuel log_returns n_returns n_bootstrap
                             sample_size block_size seed st
      = (Done None, st') /\
      seed_set st' = true /\
      gen st' = srand seed /\
      srand_log st' = srand_log st ++ [seed] /\
      forall later : list call,
        seed_set (snd (run_calls later st')) = true /\
        srand_log (snd (run_calls later st')) = srand_log st'.
Proof.
  intros fuel log_returns n_returns n_bootstrap sample_size block_size seed
         st Hseed Hfresh Hshort.
  apply Z.ltb_lt in Hshort. apply Z.ltb_lt in Hseed.
  unfold moving_block_bootstrap. rewrite Hshort.
  unfold bind, seed_once, printf, ret. rewrite Hseed, Hfresh. simpl.
  eexists. split; [reflexivity|]. simpl.
  split; [reflexivity|]. split; [reflexivity|]. split; [reflexivity|].
  intros later. now apply run_calls_seeded.
Qed.
End BootstrapClaims.

(** The example of the specification: a series of three returns and
    blocks of five. *)
Lemma bootstrap_rejects_short_series_witness :
  exists st',
    @moving_block_bootstrap lcg_libc 10 [0.01; -0.02; 0.015]%R 3 100 6 5 42
                            initial_process
    = (Done None, st') /\
    stdout st' = [InvalidInput 3 5].
Proof.
  apply (@bootstrap_rejects_short_series lcg_libc 10 [0.01; -0.02; 0.015]%R
           3 100 6 5 42 initial_process).
  lia.
Defined.

Lemma rejected_call_consumes_seeding_witness :
  exists st',
    @moving_block_bootstrap lcg_libc 10 [0.01; -0.02; 0.015]%R 3 100 6 5 42
                            initial_process
    = (Done None, st') /\
    seed_set st' = true /\
    gen st' = 42 /\
    srand_log st' = [42] /\
    forall later : list call,
      seed_set (snd (run_calls later st')) = true /\
      srand_log (snd (run_calls later st')) = srand_log st'.
Proof.
  apply (@rejected_call_consumes_seeding lcg_libc 10 [0.01; -0.02; 0.015]%R
           3 100 6 5 42 initial_process).
  - lia.
  - reflexivity.
  - lia.
Defined.

(** Three calls in a fresh process: one without a seed, one with the seed
    42 that fails the length check, one with the seed 7.  [srand] is
    called once, with 42. *)
Lemma seeded_at_most_once_witness :
  let cs := [CallBootstrap 6 [0.01; -0.02; 0.015]%R 3 1 2 2 0;
             CallBootstrap 6 [0.01; -0.02; 0.015]%R 3 1 2 5 42;
             CallBootstrap 6 [0.01; -0.02; 0.015]%R 3 1 2 2 7] in
  first_seeding cs = Some 42 /\
  fst (run_calls (H := lcg_libc) cs initial_process) = Done tt /\
  srand_log (snd (run_calls (H := lcg_libc) cs initial_process)) = [42].
Proof.
  intros cs.
  assert (Hdone : fst (run_calls (H := lcg_libc) cs initial_process) = Done tt)
    by reflexivity.
  split; [reflexivity|]. split; [exact Hdone|].
  exact (proj2 (@seeded_at_most_once lcg_libc cs) Hdone).
Defined.

(** ** Claims about the Monte Carlo simulation *)

Section MonteCarloClaims.
Context `{Libc}.
Open Scope R_scope.


End MonteCarloClaims.

(** C2: the code at a failing input.  One bootstrap row holding the
    log-return [0.01], one iteration, starting price 100: the first (and
    only) stored value of the path is [100 * exp 0.01], the price after
    the first step, and not the starting price, which the first step
    overwrote. *)
Theorem path_first_value_is_not_S0 :
  exists st',
    @Cribari.monte_carlo_simulation lcg_libc 100 [0.01]%R 1 1 1 0
                                    initial_process
    = (Done (Some [100 * exp 0.01; 100 * exp 0.01]%R), st') /\
    Cribari.path_price [100 * exp 0.01; 100 * exp 0.01]%R 1 1 0 0
    = (100 * exp 0.01)%R /\
    Cribari.path_price [100 * exp 0.01; 100 * exp 0.01]%R 1 1 0 0 <> 100%R.
Proof.
  eexists. split; [reflexivity|]. split; [reflexivity|].
  change (Cribari.path_price [100 * exp 0.01; 100 * exp 0.01]%R 1 1 0 0)
    with (100 * exp 0.01)%R.
  pose proof (exp_ineq1 0.01%R ltac:(lra)). lra.
Qed.

(** The same for every run that keeps paths of at least one price: the
    first stored value of the path of an iteration is the starting price
    times the exponential of the first log-return of some row. *)
Lemma first_path_value_after_first_step `{Libc} :
  forall (S0 : R) (bootstrap_samples : list R)
         (n_bootstrap sample_size iterations seed : Z) (st : process)
         (results : list R) (st' : process),
    1 <= sample_size ->
    Cribari.monte_carlo_simulation S0 bootstrap_samples n_bootstrap
      sample_size iterations seed st = (Done (Some results), st') ->
    forall iter, 0 <= iter < iterations ->
      exists bootstrap_idx,
        Cribari.path_price results iterations sample_size iter 0
        = (S0 * exp (rd bootstrap_samples (bootstrap_idx * sample_size + 0)))%R.
Proof.
  intros S0 bootstrap_samples n_bootstrap sample_size iterations seed st
         results st' Hss Hrun iter Hiter.
  destruct (paths_simulation_fits S0 bootstrap_samples n_bootstrap
              sample_size iterations seed st)
    as [Hfits Hsize]; [now rewrite Hrun|].
  pose proof (paths_simulation_spec S0 bootstrap_samples n_bootstrap
                sample_size iterations seed st ltac:(lia) Hsize)
    as Hspec.
  destruct (allocate_array _) as [a|].
  - destruct (draw_rows _ _ _) as [[idxs| |] st1].
    + destruct Hspec as (res & Hres & Hcells).
      rewrite Hrun in Hres. injection Hres as <- _.
      destruct (Hcells iter Hiter) as [_ Hpath].
      exists (nth (Z.to_nat iter) idxs 0).
      rewrite Hpath by lia.
      rewrite (price_after_step S0 bootstrap_samples sample_size _ 0)
        by lia.
      now rewrite price_after_start by lia.
    + rewrite Hrun in Hspec. discriminate.
    + rewrite Hrun in Hspec. discriminate.
  - destruct Hspec as [st1 Hnone]. rewrite Hrun in Hnone. discriminate.
Qed.



(** ** Claims about the rows of the bootstrap *)

Section RowClaims.
Context `{Libc}.

(** C5, as amended.  For a block size between 1 and [n_returns], and
    any [n_bootstrap] and [sample_size] whose product, the size of the
    buffer, is representable as an [int], [moving_block_bootstrap] never
    runs into undefined behaviour, and it ends as soon as the fuel of its
    [while] loop covers [sample_size].  It returns no sample set only when the allocation is
    refused.  The set it returns has [n_bootstrap * sample_size] cells,
    and each of its [n_bootstrap] rows has exactly [sample_size]
    elements (none when [sample_size] is negative), each of them a value
    [log_returns[j]] with [0 <= j < n_returns]; the row is a sequence of
    blocks of [block_size] consecutive values of the series, each
    starting at an index in [[0, n_returns - block_size]], all of them
    whole except the last one, which is cut where the row ends. *)
Theorem bootstrap_rows_are_blocks :
  forall (fuel : nat) (log_returns : list R)
         (n_returns n_bootstrap sample_size block_size seed : Z)
         (st : process),
    1 <= block_size <= n_returns ->
    in_int (n_bootstrap * sample_size) = true ->
    match moving_block_bootstrap fuel log_returns n_returns n_bootstrap
            sample_size block_size seed st with
    | (Done (Some bootstrap_samples), _) =>
        length bootstrap_samples = Z.to_nat (n_bootstrap * sample_size) /\
        forall bootstrap_idx, 0 <= bootstrap_idx < n_bootstrap ->
          length (row bootstrap_samples sample_size bootstrap_idx)
          = Z.to_nat sample_size /\
          (forall x, In x (row bootstrap_samples sample_size bootstrap_idx) ->
             exists j, 0 <= j < n_returns /\ x = rd log_returns j) /\
          exists starts,
            Forall (fun s => 0 <= s <= n_returns - block_size) starts /\
            (Z.of_nat (length starts) - 1) * block_size
            < Z.max 0 sample_size
            <= Z.of_nat (length starts) * block_size /\
            row bootstrap_samples sample_size bootstrap_idx
            = firstn (Z.to_nat sample_size)
                     (concat (map (block log_returns block_size) starts))
    | (Done None, _) => allocate_array (n_bootstrap * sample_size) = None
    | (Crashed, _) => False
    | (Timeout, _) => Z.of_nat fuel < sample_size
    end.
Proof.
  intros fuel log_returns n_returns n_bootstrap sample_size block_size seed
         st Hbs Hsize.
  unfold moving_block_bootstrap. rewrite bind_run.
  assert (Hseed : exists st0, seed_once seed st = (Done tt, st0)).
  { unfold seed_once. destruct (_ && _); eexists; reflexivity. }
  destruct Hseed as [st0 ->].
  destruct (Z.ltb_spec n_returns block_size) as [Hlt|_]; [lia|].
  rewrite bind_int_value by exact Hsize.
  destruct (allocate_array (n_bootstrap * sample_size)) as [b|] eqn:Halloc;
    [|reflexivity].
  apply allocate_array_length in Halloc.
  rewrite bind_run. unfold for_range_m.
  destruct (Z.le_gt_cases sample_size 0) as [Hss|Hss].
  - (* nothing to fill *)
    pose proof (rows_loop_empty fuel log_returns sample_size block_size
                  (n_returns - block_size + 1) Hss
                  (Z.to_nat (n_bootstrap - 0)) 0 b st0) as Hloop.
    match goal with
    | |- context [for_loop_m ?n ?i ?body ?s ?t] =>
        replace (for_loop_m n i body s t) with (Done b, st0)
          by (symmetry; exact Hloop)
    end.
    unfold ret. split; [exact Halloc|].
    intros k Hk.
    assert (Hrow : row b sample_size k = []).
    { unfold row. replace (Z.to_nat sample_size) with O by lia.
      reflexivity. }
    rewrite Hrow. split; [cbn [length]; lia|]. split; [intros x []|].
    exists []. split; [constructor|]. split; [cbn [length]; lia|].
    replace (Z.to_nat sample_size) with O by lia. reflexivity.
  - pose proof (rows_loop_spec fuel log_returns sample_size block_size
                  (n_returns - block_size + 1) ltac:(lia) ltac:(lia)
                  ltac:(lia) (Z.to_nat (n_bootstrap - 0)) 0 b st0
                  ltac:(lia) ltac:(nia)) as Hloop.
    match goal with
    | |- context [for_loop_m ?n ?i ?body ?s ?t] =>
        destruct (for_loop_m n i body s t) as [[b'| |] st1]
    end; [|contradiction|exact Hloop].
    destruct Hloop as (Hl & Hrows & _).
    unfold ret. split; [lia|].
    intros k Hk.
    destruct (Hrows k ltac:(lia)) as (starts & Hstarts & Hcount & Hcells).
    assert (Hrow : row b' sample_size k
                   = firstn (Z.to_nat sample_size)
                            (concat (map (block log_returns block_size)
                                         starts))).
    { apply row_of_blocks; auto; try lia; nia. }
    assert (Hrange : Forall (fun s => 0 <= s <= n_returns - block_size)
                            starts).
    { eapply Forall_impl; [|exact Hstarts]. simpl. intros s Hs. lia. }
    split; [apply row_length; nia|]. split.
    + intros x Hx. rewrite Hrow in Hx. apply in_firstn in Hx.
      eapply blocks_in_series; eauto.
    + exists starts. split; [exact Hrange|]. split; [lia | exact Hrow].
Qed.

(** With a block size of zero or less, a row to fill and a series at
    least as long as the block size, the call does not end, whatever
    the fuel. *)
Lemma bootstrap_spins :
  forall (fuel : nat) (log_returns : list R)
         (n_returns n_bootstrap sample_size block_size seed : Z)
         (st : process),
    block_size <= 0 ->
    block_size <= n_returns ->
    0 < n_bootstrap ->
    0 < sample_size ->
    in_int (n_bootstrap * sample_size) = true ->
    allocate_array (n_bootstrap * sample_size) <> None ->
    fst (moving_block_bootstrap fuel log_returns n_returns n_bootstrap
           sample_size block_size seed st) = Timeout.
Proof.
  intros fuel log_returns n_returns n_bootstrap sample_size block_size seed
         st Hbs Hlen Hnb Hss Hsize Halloc.
  unfold moving_block_bootstrap. rewrite bind_run.
  assert (Hseed : exists st0, seed_once seed st = (Done tt, st0)).
  { unfold seed_once. destruct (_ && _); eexists; reflexivity. }
  destruct Hseed as [st0 ->].
  destruct (Z.ltb_spec n_returns block_size) as [Hlt|_]; [lia|].
  rewrite bind_int_value by exact Hsize.
  destruct (allocate_array (n_bootstrap * sample_size)) as [b|];
    [|congruence].
  rewrite bind_run. unfold for_range_m.
  replace (Z.to_nat (n_bootstrap - 0))
    with (S (Z.to_nat (n_bootstrap - 1))) by lia.
  rewrite for_loop_m_step. unfold row_iteration at 1. rewrite bind_run.
  pose proof (fill_row_spins fuel log_returns sample_size block_size
                (n_returns - block_size + 1) 0 b st0 Hbs ltac:(lia) Hss)
    as Hspin.
  destruct (fill_row _ _ _ _ _ _ _ _) as [[r| |] st1];
    simpl in Hspin; try discriminate.
  reflexivity.
Qed.

(** When the product [n_bootstrap * sample_size] is not representable
    as an [int] (65536 rows of 65536 values, say), its evaluation is a
    signed overflow: the call has undefined behaviour, whatever the
    series and the block size the length check lets through. *)
Lemma bootstrap_size_overflows :
  forall (fuel : nat) (log_returns : list R)
         (n_returns n_bootstrap sample_size block_size seed : Z)
         (st : process),
    block_size <= n_returns ->
    in_int (n_bootstrap * sample_size) = false ->
    fst (moving_block_bootstrap fuel log_returns n_returns n_bootstrap
           sample_size block_size seed st) = Crashed.
Proof.
  intros fuel log_returns n_returns n_bootstrap sample_size block_size seed
         st Hlen Hsize.
  unfold moving_block_bootstrap. rewrite bind_run.
  assert (Hseed : exists st0, seed_once seed st = (Done tt, st0)).
  { unfold seed_once. destruct (_ && _); eexists; reflexivity. }
  destruct Hseed as [st0 ->].
  destruct (Z.ltb_spec n_returns block_size) as [Hlt|_]; [lia|].
  now rewrite bind_int_overflow by exact Hsize.
Qed.
End RowClaims.

(** C5 as it is stated fails for a block size of zero, which the check
    [n_returns >= block_size] lets through: a call for one row of one
    element from a series of three returns never returns a sample set. *)
Lemma bootstrap_zero_block_counterexample :
  ~ exists (fuel : nat) (bootstrap_samples : list R) st',
      @moving_block_bootstrap lcg_libc fuel [0.01; -0.02; 0.015]%R 3 1 1 0 42
                              initial_process
      = (Done (Some bootstrap_samples), st').
Proof.
  intros (fuel & bootstrap_samples & st' & Hrun).
  pose proof (@bootstrap_spins lcg_libc fuel [0.01; -0.02; 0.015]%R 3 1 1 0 42
                initial_process ltac:(lia) ltac:(lia) ltac:(lia) ltac:(lia)
                eq_refl)
    as Hspin.
  rewrite Hrun in Hspin. cbn [fst] in Hspin.
  assert (Halloc : @allocate_array lcg_libc (1 * 1) <> None) by discriminate.
  specialize (Hspin Halloc). discriminate.
Qed.

(** The example of the specification, with two rows: six returns, blocks
    of two, rows of six. *)
Lemma bootstrap_rows_are_blocks_witness :
  exists bootstrap_samples st',
    @moving_block_bootstrap lcg_libc 6
      [0.01; -0.02; 0.015; 0.005; -0.01; 0.02]%R 6 2 6 2 42 initial_process
    = (Done (Some bootstrap_samples), st') /\
    length bootstrap_samples = Z.to_nat (2 * 6) /\
    forall bootstrap_idx, 0 <= bootstrap_idx < 2 ->
      length (row bootstrap_samples 6 bootstrap_idx) = Z.to_nat 6 /\
      (forall x, In x (row bootstrap_samples 6 bootstrap_idx) ->
         exists j, 0 <= j < 6 /\
           x = rd [0.01; -0.02; 0.015; 0.005; -0.01; 0.02]%R j) /\
      exists starts,
        Forall (fun s => 0 <= s <= 6 - 2) starts /\
        (Z.of_nat (length starts) - 1) * 2 < Z.max 0 6
        <= Z.of_nat (length starts) * 2 /\
        row bootstrap_samples 6 bootstrap_idx
        = firstn (Z.to_nat 6)
                 (concat (map (block [0.01; -0.02; 0.015; 0.005; -0.01; 0.02]%R
                                     2) starts)).
Proof.
  pose proof (@bootstrap_rows_are_blocks lcg_libc 6
                [0.01; -0.02; 0.015; 0.005; -0.01; 0.02]%R 6 2 6 2 42
                initial_process ltac:(lia) eq_refl) as Hrows.
  destruct (@moving_block_bootstrap lcg_libc 6 _ 6 2 6 2 42 initial_process)
    as [[[bootstrap_samples|]| |] st'].
  - exists bootstrap_samples, st'. split; [reflexivity | exact Hrows].
  - discriminate Hrows.
  - contradiction.
  - simpl in Hrows. lia.
Defined.

(** ** Claims about the optimizer *)

Section OptimizerClaims.
Context `{Libc}.
Open Scope R_scope.

(** C1, as amended.  When [optimize_portfolio_newton_raphson] runs at
    least one round ([max_iterations >= 1]) it returns a weight vector as
    soon as the allocator grants arrays of [n_assets] cells, and every
    weight vector it returns, for any arrival values, risk-free rate,
    tolerance and initial weights, has [n_assets] cells, none of them
    negative, which sum to one (exactly, in real arithmetic) unless all
    of them are zero. *)
Theorem optimize_returns_simplex_or_zero :
  forall (arrival_values : list R) (n_assets n_simulations : Z)
         (initial_weights : list R) (risk_free_rate : R)
         (max_iterations : Z) (tolerance : R),
    (1 <= max_iterations)%Z ->
    (malloc_ok (size_t (size_t n_assets * sizeof_double)) = true ->
     exists weights,
       optimize_portfolio_newton_raphson arrival_values n_assets
         n_simulations initial_weights risk_free_rate max_iterations
         tolerance = Some weights) /\
    (forall weights,
       optimize_portfolio_newton_raphson arrival_values n_assets
         n_simulations initial_weights risk_free_rate max_iterations
         tolerance = Some weights ->
       length weights = Z.to_nat n_assets /\
       (forall i, (0 <= i < n_assets)%Z -> 0 <= rd weights i) /\
       (vsum (Z.to_nat n_assets) weights = 1 \/
        forall i, (0 <= i < n_assets)%Z -> rd weights i = 0)).
Proof.
  intros arrival_values n_assets n_simulations initial_weights risk_free_rate
         max_iterations tolerance Hmax.
  unfold optimize_portfolio_newton_raphson. split.
  - intros Hok. rewrite (allocate_array_granted n_assets Hok).
    destruct (for_range_exit 0 max_iterations _ _) as [w|[w|]] eqn:Hloop;
      eauto.
    exfalso. unfold for_range_exit in Hloop.
    apply (for_loop_exit_inr (fun e => e <> None)) in Hloop; auto.
    intros j s e Hround He. subst e.
    now apply newton_round_granted in Hround.
  - intros weights.
    destruct (allocate_array n_assets) as [w0|] eqn:Halloc; [|discriminate].
    apply allocate_array_length in Halloc.
    pose proof (initial_copy_length n_assets initial_weights w0 Halloc)
      as Hlen0.
    unfold for_range_exit.
    destruct (for_loop_exit_last
                (fun w : list R => length w = Z.to_nat n_assets)
                (newton_round arrival_values n_assets n_simulations
                              risk_free_rate tolerance))
      with (n := Z.to_nat (max_iterations - 0)) (i := 0%Z)
           (s := for_range 0 n_assets
                   (fun i weights => store weights i (rd initial_weights i))
                   w0)
      as (j & s0 & Hs0 & Hlast); auto; try lia.
    { intros j s s' Hs Hround.
      apply (newton_round_simplex _ _ _ _ _ _ _ _ Hs Hround). }
    pose proof (newton_round_simplex _ _ _ _ _ _ _ _ Hs0 Hlast) as Hres.
    destruct (for_loop_exit _ _ _ _) as [w|[w|]];
      intros Heq; inversion Heq; subst; exact Hres.
Qed.

(** C3.  Take a round of [optimize_portfolio_newton_raphson] whose
    scratch allocations succeed, and let [before] be the weights as they
    are when [f_current] is computed (cell by cell the weights the round
    started with).  The round ends with weights [kept].  If some
    backtracking attempt is accepted (its negated Sharpe value is below
    the one at [before]), the negated Sharpe value at [kept] is at most
    the one at [before].  If the value at [kept] is worse than at
    [before], then none of the ten attempts was accepted and [kept] is
    what the tenth attempt left. *)
Theorem accepted_round_does_not_worsen :
  forall (arrival_values : list R) (n_assets n_simulations : Z)
         (risk_free_rate tolerance : R) (iter : Z)
         (weights before gradient delta : list R),
    newton_direction arrival_values n_assets n_simulations risk_free_rate
                     weights = Some (before, gradient, delta) ->
    let f := fun w => negative_sharpe_ratio w arrival_values n_assets
                                            n_simulations risk_free_rate in
    (forall j, rd before j = rd weights j) /\
    exists kept,
      round_weights (newton_round arrival_values n_assets n_simulations
                                  risk_free_rate tolerance iter weights)
      = Some kept /\
      ((exists k, (k < 10)%nat /\
                  f (cumulative_attempt n_assets k delta before) < f before) ->
       f kept <= f before) /\
      (f before < f kept ->
       kept = cumulative_attempt n_assets 9 delta before /\
       forall k, (k < 10)%nat ->
         ~ f (cumulative_attempt n_assets k delta before) < f before).
Proof.
  intros arrival_values n_assets n_simulations risk_free_rate tolerance iter
         weights before gradient delta Hdir f.
  split; [eapply newton_direction_weights; eauto|].
  unfold newton_round. rewrite Hdir.
  destruct (line_search_spec arrival_values n_assets n_simulations
              risk_free_rate (f before) delta before)
    as (k & Hk & Hkept & Hnone & Hlast).
  subst f. cbv beta in *.
  eexists. split; [destruct (Rlt_dec _ tolerance); reflexivity|].
  rewrite Hkept. split.
  - intros (k' & Hk' & Hacc).
    destruct Hlast as [Hlt|[-> Hrej]]; [lra|].
    destruct (Nat.eq_dec k' 9) as [->|Hne]; [contradiction|].
    exfalso. apply (Hnone k'); [lia | exact Hacc].
  - intros Hworse.
    destruct Hlast as [Hlt|[-> Hrej]]; [lra|].
    split; [reflexivity|].
    intros k' Hk'. destruct (Nat.eq_dec k' 9) as [->|Hne]; auto.
    apply Hnone. lia.
Qed.

(** C4.  The line search of a round is cumulative.  On an array of
    [n_assets] weights, attempt [0] adds [1 * delta] to the weights of the
    start of the round, clamps at zero and divides by the sum when it is
    positive; attempt [k + 1] does the same with the scale of attempt [k]
    halved, [0.5 ^ (k + 1)], starting from the weights attempt [k] left,
    clamped and possibly renormalized, never from the weights of the
    start of the round.  The loop of the source ends with the weights of
    this chain at the first attempt [k] that improves on [f_current], or
    at the tenth attempt when none does.  That a retry does not start
    afresh shows with one asset, the weight 1 and the step -1.5: every
    attempt leaves the weight 0, and so does the line search whatever the
    objective is, where a retry from the weights of the start of the
    round would leave 1. *)
Theorem line_search_is_cumulative :
  forall (arrival_values : list R) (n_assets n_simulations : Z)
         (risk_free_rate f_current : R) (delta weights : list R),
    length weights = Z.to_nat n_assets ->
    let f := fun w => negative_sharpe_ratio w arrival_values n_assets
                                            n_simulations risk_free_rate in
    let attempt := fun k => cumulative_attempt n_assets k delta weights in
    let stepped := fun (alpha : R) (from : list R) (i : Z) =>
      let moved := fun j => Rmax (rd from j + alpha * rd delta j) 0 in
      if Rlt_dec 0 (sum_upto (Z.to_nat n_assets) moved)
      then moved i / sum_upto (Z.to_nat n_assets) moved
      else 0 in
    (forall i, (0 <= i < n_assets)%Z ->
       rd (attempt 0%nat) i = stepped 1 weights i) /\
    (forall k,
       0.5 ^ S k = 0.5 ^ k * 0.5 /\
       length (attempt k) = Z.to_nat n_assets /\
       forall i, (0 <= i < n_assets)%Z ->
         rd (attempt (S k)) i = stepped (0.5 ^ S k) (attempt k) i) /\
    (exists k, (k < 10)%nat /\
       line_search arrival_values n_assets n_simulations risk_free_rate
                   f_current delta weights
       = attempt k /\
       (forall j, (j < k)%nat -> ~ f (attempt j) < f_current) /\
       (f (attempt k) < f_current \/ k = 9%nat)) /\
    ((forall k, rd (cumulative_attempt 1 k [-1.5] [1]) 0 = 0) /\
     rd (line_search arrival_values 1 n_simulations risk_free_rate
                     f_current [-1.5] [1]) 0 = 0 /\
     forall k, (1 <= k)%nat ->
       rd (rolled_back_attempt 1 k [-1.5] [1]) 0 = 1).
Proof.
  intros arrival_values n_assets n_simulations risk_free_rate f_current
         delta weights Hlen f attempt stepped.
  split; [|split; [|split]].
  - intros i Hi. unfold attempt, stepped. cbn [cumulative_attempt].
    now apply ls_attempt_cells.
  - intros k. split; [simpl; lra|].
    assert (Hk : length (attempt k) = Z.to_nat n_assets).
    { unfold attempt. rewrite length_cumulative_attempt; auto. }
    split; [exact Hk|].
    intros i Hi. unfold attempt, stepped.
    change (cumulative_attempt n_assets (S k) delta weights)
      with (ls_attempt n_assets (0.5 ^ S k) delta
              (cumulative_attempt n_assets k delta weights)).
    now apply ls_attempt_cells.
  - destruct (line_search_spec arrival_values n_assets n_simulations
                risk_free_rate f_current delta weights)
      as (k & Hk & Hkept & Hnone & Hlast).
    exists k. split; [exact Hk|]. split; [exact Hkept|].
    split; [exact Hnone|]. destruct Hlast as [Hlt|[Hk9 _]]; auto.
  - assert (Hchain : forall k, rd (cumulative_attempt 1 k [-1.5] [1]) 0 = 0).
    { intros k.
      destruct (cumulative_attempt_collapse (-1.5) 1 k) as (v & -> & ->);
        [lra | lra | reflexivity]. }
    split; [exact Hchain|]. split.
    + destruct (line_search_spec arrival_values 1 n_simulations
                  risk_free_rate f_current [-1.5] [1])
        as (k & _ & -> & _).
      apply Hchain.
    + intros k Hk. unfold rolled_back_attempt.
      destruct (ls_attempt_one_asset (0.5 ^ k) (-1.5) 1)
        as (v & -> & _ & Hone).
      rewrite Hone; [reflexivity|].
      assert (Hpow : 0.5 ^ k <= 0.5).
      { destruct k as [|k]; [lia|]. clear Hk.
        induction k as [|k IH]; [simpl; lra|].
        change (0.5 ^ S (S k)) with (0.5 * 0.5 ^ S k). nra. }
      lra.
Qed.
End OptimizerClaims.

(** C1 as it is stated fails when no round runs: with
    [max_iterations = 0] the initial weights, here [2; 3], are returned as
    they are. *)
Lemma optimize_without_round_counterexample :
  (0 < vsum 2 [2; 3])%R /\
  @optimize_portfolio_newton_raphson lcg_libc [1; 2; 3; 4]%R 2 2 [2; 3]%R 0 0
                                     1e-4
  = Some [2; 3]%R /\
  ~ (Rabs (vsum 2 [2; 3] - 1) <= 1e-9)%R.
Proof.
  assert (Hsum : vsum 2 [2; 3]%R = 5%R).
  { cbn [vsum]. change (rd [2; 3]%R (Z.of_nat 0)) with 2%R.
    change (rd [2; 3]%R (Z.of_nat 1)) with 3%R. lra. }
  rewrite Hsum. split; [lra|]. split; [reflexivity|].
  rewrite Rabs_right by lra. lra.
Qed.

Lemma optimize_returns_simplex_or_zero_witness :
  exists weights,
    @optimize_portfolio_newton_raphson lcg_libc [1; 2; 3; 4]%R 2 2
      [0.5; 0.5]%R 0 50 1e-4 = Some weights /\
    length weights = Z.to_nat 2 /\
    (forall i, 0 <= i < 2 -> (0 <= rd weights i)%R) /\
    (vsum (Z.to_nat 2) weights = 1%R \/
     forall i, 0 <= i < 2 -> rd weights i = 0%R).
Proof.
  destruct (@optimize_returns_simplex_or_zero lcg_libc [1; 2; 3; 4]%R 2 2
              [0.5; 0.5]%R 0%R 50 1e-4%R ltac:(lia)) as [Hreturns Hsimplex].
  destruct (Hreturns eq_refl) as [weights Hweights].
  exists weights. split; [exact Hweights | exact (Hsimplex weights Hweights)].
Defined.

(** A round with an accepted step: one asset with the outcomes 0 and 2,
    the risk-free rate [-1], the weight 2.  The first attempt leaves the
    weight 1, where the negated Sharpe ratio is [-2], below the [-1.5] of
    the start of the round. *)
Lemma accepted_round_does_not_worsen_witness :
  let f := fun w => @negative_sharpe_ratio lcg_libc w [0; 2]%R 1 2 (-1)%R in
  exists before gradient delta kept,
    @newton_direction lcg_libc [0; 2]%R 1 2 (-1)%R [2]%R
    = Some (before, gradient, delta) /\
    round_weights (@newton_round lcg_libc [0; 2]%R 1 2 (-1)%R 1e-4%R 0 [2]%R)
    = Some kept /\
    (f (cumulative_attempt 1 0 delta before) < f before)%R /\
    (f kept <= f before)%R.
Proof.
  intros f.
  pose proof (direction_one_asset (-1)%R 2%R) as Hdir. cbv zeta in Hdir.
  pose proof direction_accept_values as Hstep. cbv zeta in Hstep.
  match type of Hdir with
  | _ = Some (?b, ?g, ?d) =>
      destruct (@accepted_round_does_not_worsen lcg_libc [0; 2]%R 1 2 (-1)%R
                  1e-4%R 0 [2]%R b g d Hdir)
        as (_ & kept & Hkept & Haccepted & _);
      assert (Hfirst : (f (cumulative_attempt 1 0 d b) < f b)%R)
  end.
  { cbn [cumulative_attempt].
    match goal with
    | |- context [ls_attempt 1 1 [?d] [?x]] =>
        destruct (ls_attempt_one_asset 1%R d x) as (v & -> & _ & Hone)
    end.
    rewrite Hone by (unfold h in *; lra).
    unfold f. rewrite !nsr_one_asset_pos by (unfold h; lra).
    unfold Rdiv.
    replace (/ (2 + h - 2 * h + h))%R with (1 / 2)%R by (unfold h; field).
    unfold h. lra. }
  do 4 eexists. split; [exact Hdir|]. split; [exact Hkept|].
  split; [exact Hfirst|].
  apply Haccepted. exists 0%nat. split; [lia | exact Hfirst].
Defined.

(** The difference from a line search that goes back to the start of
    the round: with one asset, the weight 1 and the direction [-1.5], the
    first attempt leaves the weight 0; the second, at half the step,
    starts from that 0 and leaves 0, whereas from the weight 1 it would
    reach 0.25 and renormalize to 1. *)
Lemma cumulative_differs_from_rolled_back :
  rd (cumulative_attempt 1 1 [-1.5]%R [1]%R) 0 = 0%R /\
  rd (rolled_back_attempt 1 1 [-1.5]%R [1]%R) 0 = 1%R.
Proof.
  split.
  - destruct (cumulative_attempt_collapse (-1.5)%R 1%R 1) as (v & -> & ->);
      [lra | lra | reflexivity].
  - unfold rolled_back_attempt.
    destruct (ls_attempt_one_asset (0.5 ^ 1)%R (-1.5)%R 1%R)
      as (v & -> & _ & Hone).
    rewrite Hone by (simpl; lra). reflexivity.
Qed.

(** Two assets, the weights [1; 1] and the step [2; -4]. *)
Lemma line_search_is_cumulative_witness :
  let attempt := fun k => cumulative_attempt 2 k [2; -4]%R [1; 1]%R in
  let stepped := fun (alpha : R) (from : list R) (i : Z) =>
    let moved := fun j => Rmax (rd from j + alpha * rd [2; -4]%R j) 0 in
    if Rlt_dec 0 (sum_upto (Z.to_nat 2) moved)
    then (moved i / sum_upto (Z.to_nat 2) moved)%R
    else 0%R in
  length [1; 1]%R = Z.to_nat 2 /\
  (forall i, 0 <= i < 2 -> rd (attempt 0%nat) i = stepped 1%R [1; 1]%R i) /\
  (forall k i, 0 <= i < 2 ->
     rd (attempt (S k)) i = stepped (0.5 ^ S k)%R (attempt k) i) /\
  exists k, (k < 10)%nat /\
    @line_search lcg_libc [1; 2; 3; 5]%R 2 2 0%R 0%R [2; -4]%R [1; 1]%R
    = attempt k.
Proof.
  intros attempt stepped.
  assert (Hlen : length [1; 1]%R = Z.to_nat 2) by reflexivity.
  destruct (@line_search_is_cumulative lcg_libc [1; 2; 3; 5]%R 2 2 0%R 0%R
              [2; -4]%R [1; 1]%R Hlen)
    as (Hfirst & Hnext & (k & Hk & Hkept & _) & _).
  split; [exact Hlen|]. split; [exact Hfirst|]. split.
  - intros j i Hi. exact (proj2 (proj2 (Hnext j)) i Hi).
  - exists k. split; [exact Hk | exact Hkept].
Defined.

(** * Further properties of the code *)

(** ** The Sharpe ratio and the portfolio values *)

Section SharpeProperties.
Context `{Libc}.
Open Scope R_scope.

(** X1.  [calculate_sharpe_ratio] returns the mean of the [n_values]
    values less the risk-free rate, over their population standard
    deviation (the square root of the mean of the squares less the square
    of the mean: the divisor is [n_values], not [n_values - 1]); it
    returns 0 for fewer than two values and when the standard deviation is
    zero. *)
Theorem sharpe_ratio_formula :
  forall (portfolio_values : list R) (n_values : Z) (risk_free_rate : R),
    calculate_sharpe_ratio portfolio_values n_values risk_free_rate
    = if (n_values <=? 1)%Z then 0
      else if Req_dec_T (sqrt (variance_of portfolio_values n_values)) 0
           then 0
           else (mean_of portfolio_values n_values - risk_free_rate)
                / sqrt (variance_of portfolio_values n_values).
Proof.
  intros portfolio_values n_values risk_free_rate.
  apply sharpe_closed_form.
Qed.

(** X5.  [calculate_portfolio_returns] returns [NULL] only when its
    allocation is refused; otherwise it returns [n_simulations] values,
    the one of simulation [sim] being the sum over the assets of
    [weights[asset] * arrival_values[sim * n_assets + asset]].  The
    weights are used as they are: nothing is normalized. *)
Theorem portfolio_returns_are_weighted_sums :
  forall (weights arrival_values : list R) (n_assets n_simulations : Z),
    match calculate_portfolio_returns weights arrival_values n_assets
            n_simulations with
    | Some portfolio_values =>
        length portfolio_values = Z.to_nat n_simulations /\
        forall sim, (0 <= sim < n_simulations)%Z ->
          rd portfolio_values sim
          = sum_upto (Z.to_nat n_assets)
              (fun asset =>
                 rd weights asset
                 * rd arrival_values (sim * n_assets + asset))
    | None => allocate_array n_simulations = None
    end.
Proof.
  intros weights arrival_values n_assets n_simulations.
  exact (portfolio_returns_spec weights arrival_values n_assets
           n_simulations).
Qed.

End SharpeProperties.

(** ** The utility functions *)

Section UtilityProperties.
Context `{Libc}.

(** X7.  [random_int(max_val)] draws one value from [rand] and prints
    nothing.  For every non-zero [max_val], negative ones included, it
    returns a value in [[0, |max_val|)]; for [max_val = 0] it divides by
    zero. *)
Theorem random_int_range :
  forall (max_val : Z) (st : process),
    let st' := snd (random_int max_val st) in
    gen st' = snd (rand (gen st)) /\
    stdout st' = stdout st /\
    match fst (random_int max_val st) with
    | Done v => max_val <> 0 /\ 0 <= v < Z.abs max_val
    | Crashed => max_val = 0
    | Timeout => False
    end.
Proof.
  intros max_val st. exact (random_int_spec max_val st).
Qed.

(** X8.  When [rand] keeps its promise of a value in [[0, RAND_MAX]],
    [random_double] returns a value in [[0, 1]], both ends included: it
    returns [1] exactly when [rand] returns [RAND_MAX]. *)
Theorem random_double_range :
  forall (RAND_MAX : Z) (st : process),
    0 < RAND_MAX ->
    (forall g, Z.of_N (fst (rand g)) <= RAND_MAX) ->
    exists v st',
      random_double RAND_MAX st = (Done v, st') /\
      gen st' = snd (rand (gen st)) /\
      (0 <= v <= 1)%R /\
      (v = 1%R <-> Z.of_N (fst (rand (gen st))) = RAND_MAX).
Proof.
  intros RAND_MAX st Hmax Hrand. unfold random_double.
  specialize (Hrand (gen st)).
  destruct (rand (gen st)) as [r g]. cbn [fst snd] in *.
  eexists. eexists. split; [reflexivity|]. cbn [gen].
  split; [reflexivity|].
  assert (Hpos : (0 < IZR RAND_MAX)%R) by (apply IZR_lt; lia).
  assert (Hr : (0 <= IZR (Z.of_N r))%R) by (apply IZR_le; lia).
  assert (Hle : (IZR (Z.of_N r) <= IZR RAND_MAX)%R) by (apply IZR_le; lia).
  split; [split|split].
  - apply Rmult_le_pos; [assumption|].
    apply Rlt_le, Rinv_0_lt_compat; assumption.
  - apply (Rmult_le_reg_r (IZR RAND_MAX)); [assumption|].
    unfold Rdiv. rewrite Rmult_assoc, Rinv_l by lra. lra.
  - intros Hone. apply eq_IZR.
    apply (Rmult_eq_compat_r (IZR RAND_MAX)) in Hone.
    unfold Rdiv in Hone. rewrite Rmult_assoc, Rinv_l in Hone by lra. lra.
  - intros ->. unfold Rdiv. apply Rinv_r. lra.
Qed.

(** X9.  [allocate_matrix] returns [rows] arrays of [cols] cells each;
    it returns [NULL] exactly when [malloc] refuses the array of row
    pointers or, there being a row to allocate, refuses a row. *)
Theorem allocate_matrix_shape :
  forall rows cols : Z,
    match allocate_matrix rows cols with
    | Some matrix =>
        length matrix = Z.to_nat rows /\
        (forall i, 0 <= i < rows ->
           length (load [] matrix i) = Z.to_nat cols) /\
        malloc_ok (size_t (size_t rows * sizeof_pointer)) = true /\
        (0 < rows ->
         malloc_ok (size_t (size_t cols * sizeof_double)) = true)
    | None =>
        malloc_ok (size_t (size_t rows * sizeof_pointer)) = false \/
        (0 < rows /\
         malloc_ok (size_t (size_t cols * sizeof_double)) = false)
    end.
Proof.
  intros rows cols.
  pose proof (allocate_matrix_rows rows cols) as Hrows.
  destruct (allocate_matrix rows cols) as [matrix|]; [|exact Hrows].
  destruct Hrows as [Hlen [Hcells Hgranted]]. split; [exact Hlen|].
  split; [|exact Hgranted].
  intros i Hi. rewrite (Hcells i Hi). apply repeat_length.
Qed.
End UtilityProperties.

Lemma random_double_range_witness :
  exists v st',
    random_double (H := lcg_libc) 32767 initial_process = (Done v, st') /\
    gen st' = snd (rand (gen initial_process)) /\
    (0 <= v <= 1)%R /\
    (v = 1%R <-> Z.of_N (fst (rand (gen initial_process))) = 32767).
Proof.
  apply (random_double_range (H := lcg_libc) 32767 initial_process).
  - lia.
  - intros g. cbn [rand lcg_libc fst].
    pose proof (Z.mod_pos_bound (lcg_next g / 65536) 32768) as Hb.
    rewrite Z2N.id by lia. lia.
Defined.

(** ** The optimizer *)

Section OptimizerProperties.
Context `{Libc}.
Open Scope R_scope.

(** X10.  With [max_iterations <= 0] no round is run: the optimizer
    returns a fresh array that holds the [n_assets] initial weights as
    they were given, neither clamped nor normalized, and [NULL] only when
    that array cannot be allocated. *)
Theorem no_round_returns_initial_weights :
  forall (arrival_values : list R) (n_assets n_simulations : Z)
         (initial_weights : list R) (risk_free_rate : R)
         (max_iterations : Z) (tolerance : R),
    (max_iterations <= 0)%Z ->
    match optimize_portfolio_newton_raphson arrival_values n_assets
            n_simulations initial_weights risk_free_rate max_iterations
            tolerance with
    | Some weights =>
        length weights = Z.to_nat n_assets /\
        forall i, (0 <= i < n_assets)%Z -> rd weights i = rd initial_weights i
    | None => allocate_array n_assets = None
    end.
Proof.
  intros arrival_values n_assets n_simulations initial_weights risk_free_rate
         max_iterations tolerance Hmax.
  unfold optimize_portfolio_newton_raphson.
  destruct (allocate_array n_assets) as [weights|] eqn:Halloc;
    [|reflexivity].
  apply allocate_array_length in Halloc.
  unfold for_range_exit.
  replace (Z.to_nat (max_iterations - 0)) with O by lia.
  cbn [for_loop_exit]. split.
  - now apply initial_copy_length.
  - now apply initial_copy_cells.
Qed.

(** X11.  The projection of the line search, cell by cell: each
    weight becomes its positive part divided by the sum of the positive
    parts when that sum is positive, and zero otherwise.  Projecting
    twice is projecting once. *)
Theorem projection_closed_form :
  forall (n_assets : Z) (weights : list R),
    length weights = Z.to_nat n_assets ->
    (forall i, (0 <= i < n_assets)%Z ->
       rd (project_simplex n_assets weights) i
       = if Rlt_dec 0 (positive_sum (Z.to_nat n_assets) weights)
         then Rmax (rd weights i) 0
              / positive_sum (Z.to_nat n_assets) weights
         else 0) /\
    project_simplex n_assets (project_simplex n_assets weights)
    = project_simplex n_assets weights.
Proof.
  intros n_assets weights Hlen. split.
  - now apply project_simplex_cells.
  - now apply project_simplex_twice.
Qed.

(** X12.  One attempt of the line search, cell by cell: from the
    weights [w], the step [delta] and the factor [alpha], the attempt
    leaves in cell [i] the positive part of [w_i + alpha * delta_i]
    divided by the sum of these positive parts over the assets, when that
    sum is positive, and zero otherwise. *)
Theorem line_search_attempt_closed_form :
  forall (n_assets : Z) (alpha : R) (delta weights : list R),
    length weights = Z.to_nat n_assets ->
    let moved := fun j => Rmax (rd weights j + alpha * rd delta j) 0 in
    forall i, (0 <= i < n_assets)%Z ->
      rd (ls_attempt n_assets alpha delta weights) i
      = if Rlt_dec 0 (sum_upto (Z.to_nat n_assets) moved)
        then moved i / sum_upto (Z.to_nat n_assets) moved
        else 0.
Proof.
  intros n_assets alpha delta weights Hlen moved i Hi.
  unfold ls_attempt.
  rewrite project_simplex_cells
    by (rewrite ?length_update_weights; auto).
  assert (Hsum : positive_sum (Z.to_nat n_assets)
                   (update_weights n_assets alpha delta weights)
                 = sum_upto (Z.to_nat n_assets) moved).
  { unfold positive_sum. apply sum_upto_ext. intros j Hj.
    rewrite update_weights_cells by (auto; lia). reflexivity. }
  rewrite Hsum, update_weights_cells by auto. reflexivity.
Qed.

(** X13.  The direction of a round.  The gradient is the central
    difference of the objective at the weights the round starts with,
    [(f(w + h e_i) - f(w - h e_i)) / (2 h)], and the step of weight [i] is
    minus the gradient over the second difference
    [(f(w + h e_i) + f(w - h e_i) - 2 f(w)) / h^2] plus [1e-6]; the
    weights are what they were (in exact arithmetic) when the line search
    starts. *)
Theorem newton_direction_formula :
  forall (arrival_values : list R) (n_assets n_simulations : Z)
         (risk_free_rate : R) (weights before gradient delta : list R),
    newton_direction arrival_values n_assets n_simulations risk_free_rate
                     weights = Some (before, gradient, delta) ->
    let f := fun w => negative_sharpe_ratio w arrival_values n_assets
                                            n_simulations risk_free_rate in
    before = weights /\
    forall i, (0 <= i < n_assets)%Z ->
      let forward := store weights i (rd weights i + h) in
      let backward := store weights i (rd weights i - h) in
      rd gradient i = (f forward - f backward) / (2 * h) /\
      rd delta i
      = - rd gradient i
        / ((f forward + f backward - 2 * f weights) / (h * h) + 1e-6).
Proof.
  intros arrival_values n_assets n_simulations risk_free_rate weights before
         gradient delta Hdir f.
  apply newton_direction_spec in Hdir.
  destruct Hdir as [Hw [_ [_ Hcells]]]. split; [exact Hw|].
  intros i Hi. exact (Hcells i Hi).
Qed.

(** X14.  The linear system of a round.  Once the off-diagonal
    entries of the Hessian are zeroed, the step the code computes solves
    [H * delta = - gradient] on every row whose diagonal entry is not
    zero. *)
Theorem diagonal_system_solved :
  forall (n_assets : Z) (gradient delta : list R) (hessian : list (list R)),
    square n_assets hessian ->
    length delta = Z.to_nat n_assets ->
    let H' := zero_off_diagonal n_assets hessian in
    let d := solve_diagonal n_assets gradient H' delta in
    forall i, (0 <= i < n_assets)%Z ->
      mrd hessian i i <> 0 ->
      (forall j, (0 <= j < n_assets)%Z -> j <> i -> mrd H' i j = 0) /\
      row_times H' d n_assets i = - rd gradient i.
Proof.
  intros n_assets gradient delta hessian Hsq Hlen H' d i Hi Hdiag.
  destruct (zero_off_diagonal_spec n_assets hessian Hsq) as [_ Hzero].
  destruct (solve_diagonal_spec n_assets gradient H' delta Hlen)
    as [_ Hdelta].
  fold d in Hdelta. fold H' in Hzero.
  assert (Hoff : forall j, (0 <= j < n_assets)%Z -> j <> i ->
                           mrd H' i j = 0).
  { intros j Hj Hne. rewrite Hzero by auto.
    destruct (Z.eqb_spec i j); [congruence | reflexivity]. }
  split; [exact Hoff|].
  unfold row_times.
  rewrite (sum_upto_single _ _ i) by
    (try lia; intros j Hj Hne; rewrite Hoff by (auto; lia);
     apply Rmult_0_l).
  rewrite Hdelta by auto. rewrite Hzero by auto. rewrite Z.eqb_refl.
  field. exact Hdiag.
Qed.

(** X15.  With a tolerance that is not positive the convergence test
    never stops the loop over the rounds: it is left only after
    [max_iterations] rounds or by a failed allocation. *)
Theorem nonpositive_tolerance_never_stops :
  forall (arrival_values : list R) (n_assets n_simulations : Z)
         (risk_free_rate : R) (max_iterations : Z) (tolerance : R)
         (weights : list R),
    tolerance <= 0 ->
    match for_range_exit 0 max_iterations
            (newton_round arrival_values n_assets n_simulations
                          risk_free_rate tolerance)
            weights with
    | inl _ | inr None => True
    | inr (Some _) => False
    end.
Proof.
  intros arrival_values n_assets n_simulations risk_free_rate max_iterations
         tolerance weights Htol.
  destruct (for_range_exit 0 max_iterations _ weights) as [w|[w|]] eqn:Hrun;
    auto.
  unfold for_range_exit in Hrun.
  apply (for_loop_exit_inr (fun e : option (list R) => e = None)) in Hrun;
    [discriminate|].
  intros j s e. unfold newton_round.
  destruct (newton_direction _ _ _ _ _) as [[[w0 g] d0]|].
  - pose proof (grad_norm_nonneg n_assets g) as Hnorm.
    destruct (Rlt_dec (grad_norm n_assets g) tolerance) as [Hlt|_];
      [lra | discriminate].
  - intros Heq. now injection Heq as <-.
Qed.

(** X16.  With at most one simulation [calculate_sharpe_ratio] returns
    0 before any arithmetic and the objective cannot tell weights apart:
    the optimizer run for at least one round then returns (in exact
    arithmetic) the projection of the initial weights, their positive
    parts divided by the sum of the positive parts, or all zeros when no
    initial weight is positive.  It returns them whenever [malloc] grants
    the requests of [n_assets] doubles. *)
Theorem optimize_flat_objective :
  forall (arrival_values : list R) (n_assets n_simulations : Z)
         (initial_weights : list R) (risk_free_rate : R)
         (max_iterations : Z) (tolerance : R),
    (1 <= max_iterations)%Z ->
    (n_simulations <= 1)%Z ->
    (malloc_ok (size_t (size_t n_assets * sizeof_double)) = true ->
     exists weights,
       optimize_portfolio_newton_raphson arrival_values n_assets
         n_simulations initial_weights risk_free_rate max_iterations
         tolerance = Some weights) /\
    (forall weights,
       optimize_portfolio_newton_raphson arrival_values n_assets
         n_simulations initial_weights risk_free_rate max_iterations
         tolerance = Some weights ->
       length weights = Z.to_nat n_assets /\
       forall i, (0 <= i < n_assets)%Z ->
         rd weights i
         = if Rlt_dec 0 (positive_sum (Z.to_nat n_assets) initial_weights)
           then Rmax (rd initial_weights i) 0
                / positive_sum (Z.to_nat n_assets) initial_weights
           else 0).
Proof.
  intros arrival_values n_assets n_simulations initial_weights risk_free_rate
         max_iterations tolerance Hmax Hone.
  unfold optimize_portfolio_newton_raphson.
  destruct (allocate_array n_assets) as [fresh|] eqn:Halloc.
  - pose proof (allocate_array_ok _ _ Halloc) as Hok.
    apply allocate_array_length in Halloc.
    pose proof (initial_copy_length n_assets initial_weights fresh Halloc)
      as Hlen.
    pose proof (initial_copy_cells n_assets initial_weights fresh Halloc)
      as Hcopy.
    set (weights := for_range 0 n_assets _ fresh) in *.
    unfold for_range_exit.
    destruct (Z.to_nat (max_iterations - 0)) as [|n] eqn:Hn; [lia|].
    rewrite (flat_rounds arrival_values n_assets n_simulations
               risk_free_rate tolerance
               (flat_objective arrival_values n_assets n_simulations
                               risk_free_rate Hone)
               weights Hlen Hok n 0%Z).
    assert (Hresult :
      length (project_simplex n_assets weights) = Z.to_nat n_assets /\
      forall i, (0 <= i < n_assets)%Z ->
        rd (project_simplex n_assets weights) i
        = if Rlt_dec 0 (positive_sum (Z.to_nat n_assets) initial_weights)
          then Rmax (rd initial_weights i) 0
               / positive_sum (Z.to_nat n_assets) initial_weights
          else 0).
    { destruct (project_simplex_spec n_assets weights Hlen) as [Hlen' _].
      split; [congruence|]. intros i Hi.
      rewrite project_simplex_cells by auto.
      assert (Hsum : positive_sum (Z.to_nat n_assets) weights
                     = positive_sum (Z.to_nat n_assets) initial_weights).
      { unfold positive_sum. apply sum_upto_ext. intros j Hj.
        rewrite Hcopy by lia. reflexivity. }
      rewrite Hsum, Hcopy by auto. reflexivity. }
    split.
    + intros _. destruct (Rlt_dec 0 tolerance); eexists; reflexivity.
    + intros w Hw.
      destruct (Rlt_dec 0 tolerance); injection Hw as <-; exact Hresult.
  - split.
    + intros Hok. unfold allocate_array in Halloc. rewrite Hok in Halloc.
      discriminate.
    + intros w Hw. discriminate.
Qed.
End OptimizerProperties.

Lemma no_round_returns_initial_weights_witness :
  exists weights,
    @optimize_portfolio_newton_raphson lcg_libc [1; 2; 3; 4]%R 2 2
      [2; 3]%R 0 0 1e-4 = Some weights /\
    length weights = Z.to_nat 2 /\
    forall i, 0 <= i < 2 -> rd weights i = rd [2; 3]%R i.
Proof.
  pose proof (@no_round_returns_initial_weights lcg_libc [1; 2; 3; 4]%R 2 2
                [2; 3]%R 0 0 1e-4 ltac:(lia)) as Hrun.
  destruct (@optimize_portfolio_newton_raphson lcg_libc _ 2 2 _ 0 0 1e-4)
    as [weights|].
  - exists weights. split; [reflexivity | exact Hrun].
  - discriminate Hrun.
Defined.

Lemma projection_closed_form_witness :
  length [2; -1; 2]%R = Z.to_nat 3 /\
  (forall i, 0 <= i < 3 ->
     rd (project_simplex 3 [2; -1; 2]%R) i
     = if Rlt_dec 0 (positive_sum (Z.to_nat 3) [2; -1; 2]%R)
       then (Rmax (rd [2; -1; 2]%R i) 0
             / positive_sum (Z.to_nat 3) [2; -1; 2]%R)%R
       else 0%R) /\
  project_simplex 3 (project_simplex 3 [2; -1; 2]%R)
  = project_simplex 3 [2; -1; 2]%R.
Proof.
  assert (Hlen : length [2; -1; 2]%R = Z.to_nat 3) by reflexivity.
  split; [exact Hlen|].
  exact (projection_closed_form 3 [2; -1; 2]%R Hlen).
Defined.

Lemma line_search_attempt_closed_form_witness :
  let moved := fun j => Rmax (rd [1; 1]%R j + (1 / 2) * rd [2; -4]%R j) 0 in
  length [1; 1]%R = Z.to_nat 2 /\
  forall i, 0 <= i < 2 ->
    rd (ls_attempt 2 (1 / 2) [2; -4]%R [1; 1]%R) i
    = if Rlt_dec 0 (sum_upto (Z.to_nat 2) moved)
      then (moved i / sum_upto (Z.to_nat 2) moved)%R
      else 0%R.
Proof.
  intros moved.
  assert (Hlen : length [1; 1]%R = Z.to_nat 2) by reflexivity.
  split; [exact Hlen|].
  exact (line_search_attempt_closed_form 2 (1 / 2) [2; -4]%R [1; 1]%R Hlen).
Defined.

Lemma newton_direction_formula_witness :
  let f := fun w => @negative_sharpe_ratio lcg_libc w [0; 2]%R 1 2 (-1)%R in
  exists before gradient delta,
    @newton_direction lcg_libc [0; 2]%R 1 2 (-1)%R [2]%R
    = Some (before, gradient, delta) /\
    before = [2]%R /\
    forall i, 0 <= i < 1 ->
      let forward := store [2]%R i (rd [2]%R i + h)%R in
      let backward := store [2]%R i (rd [2]%R i - h)%R in
      rd gradient i = ((f forward - f backward) / (2 * h))%R /\
      rd delta i
      = (- rd gradient i
         / ((f forward + f backward - 2 * f [2]%R) / (h * h) + 1e-6))%R.
Proof.
  intros f.
  pose proof (direction_one_asset (-1)%R 2%R) as Hdir. cbv zeta in Hdir.
  match type of Hdir with
  | _ = Some (?b, ?g, ?d) =>
      exists b, g, d; split; [exact Hdir|];
      exact (@newton_direction_formula lcg_libc [0; 2]%R 1 2 (-1)%R [2]%R
               b g d Hdir)
  end.
Defined.

Lemma diagonal_system_solved_witness :
  let hessian := [[2; 7]; [9; 4]]%R in
  let H' := zero_off_diagonal 2 hessian in
  let d := solve_diagonal 2 [1; 2]%R H' [0; 0]%R in
  square 2 hessian /\
  mrd hessian 0 0 <> 0%R /\
  row_times H' d 2 0 = (- rd [1; 2]%R 0)%R.
Proof.
  intros hessian H' d.
  assert (Hsq : square 2 hessian).
  { split; [reflexivity|]. intros i Hi.
    assert (Hcases : i = 0 \/ i = 1) by lia.
    destruct Hcases as [-> | ->]; reflexivity. }
  assert (Hlen : length [0; 0]%R = Z.to_nat 2) by reflexivity.
  assert (Hi : 0 <= 0 < 2) by lia.
  assert (Hdiag : mrd hessian 0 0 <> 0%R).
  { unfold hessian, mrd, rd, load. cbn. lra. }
  split; [exact Hsq|]. split; [exact Hdiag|].
  exact (proj2 (diagonal_system_solved 2 [1; 2]%R [0; 0]%R hessian Hsq Hlen
                  0 Hi Hdiag)).
Defined.

Lemma nonpositive_tolerance_never_stops_witness :
  (0 <= 0)%R /\
  match for_range_exit 0 3
          (@newton_round lcg_libc [0; 2]%R 1 2 (-1)%R 0%R) [2]%R with
  | inl _ | inr None => True
  | inr (Some _) => False
  end.
Proof.
  assert (Htol : (0 <= 0)%R) by lra.
  split; [exact Htol|].
  exact (@nonpositive_tolerance_never_stops lcg_libc [0; 2]%R 1 2 (-1)%R 3
           0%R [2]%R Htol).
Defined.

Lemma optimize_flat_objective_witness :
  exists weights,
    @optimize_portfolio_newton_raphson lcg_libc [1; 2]%R 2 1
      [1; 3]%R 0 5 1e-4 = Some weights /\
    length weights = Z.to_nat 2 /\
    forall i, 0 <= i < 2 ->
      rd weights i
      = if Rlt_dec 0 (positive_sum (Z.to_nat 2) [1; 3]%R)
        then (Rmax (rd [1; 3]%R i) 0
              / positive_sum (Z.to_nat 2) [1; 3]%R)%R
        else 0%R.
Proof.
  destruct (@optimize_flat_objective lcg_libc [1; 2]%R 2 1 [1; 3]%R 0 5 1e-4
              ltac:(lia) ltac:(lia)) as [Hruns Hcells].
  destruct (Hruns eq_refl) as [weights Hrun].
  exists weights. split; [exact Hrun | exact (Hcells weights Hrun)].
Defined.

(** ** The simulation *)

Section SimulationProperties.
Context `{Libc}.
Open Scope R_scope.

(** X17.  Each terminal price is the start price compounded along one
    whole row of the sample set: [S0 * exp] of the sum of the
    [sample_size] log-returns of a row whose index lies in
    [[0, n_bootstrap)].  The call draws exactly [iterations] values from
    [rand], one per price, and none when the allocation is refused. *)
Theorem terminal_prices_compound_rows :
  forall (S0 : R) (bootstrap_samples : list R)
         (n_bootstrap sample_size iterations : Z) (st : process),
    (0 < n_bootstrap)%Z ->
    match Mbb.monte_carlo_simulation S0 bootstrap_samples n_bootstrap
            sample_size iterations st with
    | (Done (Some final_prices), st') =>
        gen st' = rand_steps (Z.to_nat iterations) (gen st) /\
        forall iter, (0 <= iter < iterations)%Z ->
          exists bootstrap_idx,
            (0 <= bootstrap_idx < n_bootstrap)%Z /\
            rd final_prices iter
            = S0 * exp (log_return_sum bootstrap_samples sample_size
                                       bootstrap_idx sample_size)
    | (Done None, st') =>
        allocate_array iterations = None /\ gen st' = gen st
    | (Crashed, _) | (Timeout, _) => False
    end.
Proof.
  intros S0 bootstrap_samples n_bootstrap sample_size iterations st Hnb.
  assert (Hwarn : gen (snd (warn_iterations iterations n_bootstrap st))
                  = gen st).
  { unfold warn_iterations. destruct (n_bootstrap <? iterations)%Z;
      reflexivity. }
  pose proof (terminal_simulation_spec S0 bootstrap_samples n_bootstrap
                sample_size iterations st) as Hspec.
  destruct (allocate_array iterations) as [fp|] eqn:Halloc.
  - pose proof (draw_rows_state n_bootstrap (Z.to_nat iterations)
                  (snd (warn_iterations iterations n_bootstrap st)))
      as Hdraw.
    destruct (draw_rows n_bootstrap (Z.to_nat iterations) _)
      as [[idxs| |] st1].
    + destruct Hspec as (final_prices & -> & Hcells).
      destruct Hdraw as (Hlen & Hall & Hgen).
      split; [congruence|]. intros iter Hiter.
      exists (nth (Z.to_nat iter) idxs 0%Z). split.
      * rewrite Forall_forall in Hall.
        assert (Hin : In (nth (Z.to_nat iter) idxs 0%Z) idxs)
          by (apply nth_In; lia).
        specialize (Hall _ Hin). cbv beta in Hall. lia.
      * rewrite Hcells by exact Hiter. apply price_after_exp.
    + lia.
    + contradiction.
  - unfold Mbb.monte_carlo_simulation. rewrite Halloc.
    rewrite bind_run.
    destruct (warn_iterations_done n_bootstrap iterations st) as [st0 Hst0].
    rewrite Hst0 in Hwarn. rewrite Hst0. cbn [snd] in Hwarn.
    split; [reflexivity|]. cbn. exact Hwarn.
Qed.


(** X19.  What the simulation prints: the warning, first, exactly when
    [iterations > n_bootstrap], and the allocation error exactly when
    the allocation is refused; nothing else, however the call ends.  For
    the version that keeps the paths this is stated of the calls whose
    buffer size [iterations + iterations * sample_size] is evaluated
    without overflow. *)
Theorem simulation_output :
  forall (S0 : R) (bootstrap_samples : list R)
         (n_bootstrap sample_size iterations seed : Z) (st : process),
    let warning :=
      if (n_bootstrap <? iterations)%Z
      then [Warning iterations n_bootstrap] else [] in
    stdout (snd (Mbb.monte_carlo_simulation S0 bootstrap_samples n_bootstrap
                   sample_size iterations st))
    = stdout st ++ warning
      ++ match allocate_array iterations with
         | None => [AllocationError]
         | Some _ => []
         end /\
    (in_int (iterations * sample_size) = true ->
     in_int (iterations + iterations * sample_size) = true ->
     stdout (snd (Cribari.monte_carlo_simulation S0 bootstrap_samples
                    n_bootstrap sample_size iterations seed st))
     = stdout st ++ warning
       ++ match allocate_array (iterations + iterations * sample_size) with
          | None => [AllocationError]
          | Some _ => []
          end).
Proof.
  intros S0 bootstrap_samples n_bootstrap sample_size iterations seed st
         warning.
  assert (Hwarn : exists st0,
            warn_iterations iterations n_bootstrap st = (Done tt, st0) /\
            stdout st0 = stdout st ++ warning).
  { unfold warn_iterations, warning.
    destruct (n_bootstrap <? iterations)%Z; eexists; split;
      try reflexivity.
    cbn. now rewrite app_nil_r. }
  destruct Hwarn as (st0 & Hrun & Hout).
  split.
  - unfold Mbb.monte_carlo_simulation. rewrite bind_run, Hrun.
    destruct (allocate_array iterations) as [fp|].
    + rewrite silent_bind.
      * now rewrite app_nil_r.
      * apply silent_for_loop_m. intros i s.
        apply silent_terminal_iteration.
      * intros a. apply silent_ret.
    + cbn. rewrite Hout. now rewrite <- app_assoc.
  - intros Hpaths Hsize.
    unfold Cribari.monte_carlo_simulation. rewrite bind_run, Hrun.
    rewrite bind_int_value by exact Hpaths.
    rewrite bind_int_value by exact Hsize.
    destruct (allocate_array (iterations + iterations * sample_size))
      as [fp|].
    + rewrite silent_bind.
      * now rewrite app_nil_r.
      * apply silent_for_loop_m. intros i s.
        apply silent_paths_iteration.
      * intros a. apply silent_ret.
    + cbn. rewrite Hout. now rewrite <- app_assoc.
Qed.
End SimulationProperties.

Lemma terminal_prices_compound_rows_witness :
  exists final_prices st',
    @Mbb.monte_carlo_simulation lcg_libc 100 [0.01; -0.02]%R 1 2 2
                                initial_process
    = (Done (Some final_prices), st') /\
    gen st' = rand_steps (H := lcg_libc) 2 1 /\
    forall iter, 0 <= iter < 2 ->
      exists bootstrap_idx,
        0 <= bootstrap_idx < 1 /\
        rd final_prices iter
        = (100 * exp (log_return_sum [0.01; -0.02]%R 2 bootstrap_idx 2))%R.
Proof.
  pose proof (@terminal_prices_compound_rows lcg_libc 100%R
                [0.01; -0.02]%R 1 2 2 initial_process ltac:(lia)) as Hrows.
  destruct (@Mbb.monte_carlo_simulation lcg_libc 100 _ 1 2 2 initial_process)
    as [[[final_prices|]| |] st'].
  - exists final_prices, st'. split; [reflexivity | exact Hrows].
  - destruct Hrows as [Hnone _]. discriminate Hnone.
  - contradiction.
  - contradiction.
Defined.


(** ** The bootstrap *)

Section BootstrapProperties.
Context `{Libc}.

(** X20.  What the bootstrap prints and when it returns [NULL], for the
    calls that the length check rejects and for those whose buffer size
    [n_bootstrap * sample_size] is representable as an [int]: the call
    returns [NULL] exactly when the series is shorter than the block or
    the allocation is refused, and it then prints the one message of that
    error; in every other case, however the call ends, it prints
    nothing. *)
Theorem bootstrap_output :
  forall (fuel : nat) (log_returns : list R)
         (n_returns n_bootstrap sample_size block_size seed : Z)
         (st : process),
    n_returns < block_size \/ in_int (n_bootstrap * sample_size) = true ->
    let r := moving_block_bootstrap fuel log_returns n_returns n_bootstrap
               sample_size block_size seed st in
    stdout (snd r)
    = stdout st
      ++ (if n_returns <? block_size
          then [InvalidInput n_returns block_size]
          else match allocate_array (n_bootstrap * sample_size) with
               | None => [AllocationError]
               | Some _ => []
               end) /\
    (fst r = Done None <->
     n_returns < block_size \/
     allocate_array (n_bootstrap * sample_size) = None).
Proof.
  intros fuel log_returns n_returns n_bootstrap sample_size block_size seed
         st Hsize r. subst r.
  unfold moving_block_bootstrap. rewrite bind_run.
  assert (Hseed : exists st0, seed_once seed st = (Done tt, st0) /\
                              stdout st0 = stdout st).
  { pose proof (silent_seed_once seed st) as Hsilent.
    unfold seed_once in *. destruct (_ && _); eexists; split;
      try reflexivity; exact Hsilent. }
  destruct Hseed as (st0 & -> & Hout).
  destruct (Z.ltb_spec n_returns block_size) as [Hlt|Hge].
  - cbn. rewrite Hout. split; [reflexivity|]. split; auto.
  - destruct Hsize as [Hlt|Hsize]; [lia|].
    rewrite bind_int_value by exact Hsize.
    destruct (allocate_array (n_bootstrap * sample_size)) as [b|].
    + split.
      * rewrite silent_bind.
        -- rewrite app_nil_r. exact Hout.
        -- apply silent_for_loop_m. intros i s.
           apply silent_row_iteration.
        -- intros a. apply silent_ret.
      * rewrite bind_run.
        destruct (for_range_m 0 n_bootstrap _ b st0) as [[b'| |] st1];
          cbn [fst ret]; split; try discriminate;
          intros [Hlt|Hnone]; try lia; discriminate.
    + cbn. rewrite Hout. split; [reflexivity|]. split; auto.
Qed.

(** X21.  With a block as long as the series there is one block to
    draw, and the samples do not depend on the generator: every row is
    the series repeated from its start, cut at [sample_size].  Stated of
    the calls whose buffer size [n_bootstrap * sample_size] is
    representable as an [int]. *)
Theorem bootstrap_whole_series_block :
  forall (fuel : nat) (log_returns : list R)
         (n_returns n_bootstrap sample_size seed : Z) (st : process),
    1 <= n_returns ->
    in_int (n_bootstrap * sample_size) = true ->
    match moving_block_bootstrap fuel log_returns n_returns n_bootstrap
            sample_size n_returns seed st with
    | (Done (Some bootstrap_samples), _) =>
        forall bootstrap_idx u,
          0 <= bootstrap_idx < n_bootstrap -> 0 <= u < sample_size ->
          rd bootstrap_samples (bootstrap_idx * sample_size + u)
          = rd log_returns (u mod n_returns)
    | (Done None, _) => allocate_array (n_bootstrap * sample_size) = None
    | (Crashed, _) => False
    | (Timeout, _) => Z.of_nat fuel < sample_size
    end.
Proof.
  intros fuel log_returns n_returns n_bootstrap sample_size seed st Hn
         Hsize.
  unfold moving_block_bootstrap. rewrite bind_run.
  assert (Hseed : exists st0, seed_once seed st = (Done tt, st0)).
  { unfold seed_once. destruct (_ && _); eexists; reflexivity. }
  destruct Hseed as [st0 ->].
  destruct (Z.ltb_spec n_returns n_returns) as [Hlt|_]; [lia|].
  rewrite bind_int_value by exact Hsize.
  destruct (allocate_array (n_bootstrap * sample_size)) as [b|] eqn:Halloc;
    [|reflexivity].
  apply allocate_array_length in Halloc.
  rewrite bind_run. unfold for_range_m.
  destruct (Z.le_gt_cases sample_size 0) as [Hss|Hss].
  - pose proof (rows_loop_empty fuel log_returns sample_size n_returns
                  (n_returns - n_returns + 1) Hss
                  (Z.to_nat (n_bootstrap - 0)) 0 b st0) as Hloop.
    match goal with
    | |- context [for_loop_m ?n ?i ?body ?s ?t] =>
        replace (for_loop_m n i body s t) with (Done b, st0)
          by (symmetry; exact Hloop)
    end.
    unfold ret. intros k u Hk Hu. lia.
  - pose proof (rows_loop_spec fuel log_returns sample_size n_returns
                  (n_returns - n_returns + 1) ltac:(lia) ltac:(lia)
                  ltac:(lia) (Z.to_nat (n_bootstrap - 0)) 0 b st0
                  ltac:(lia) ltac:(nia)) as Hloop.
    match goal with
    | |- context [for_loop_m ?n ?i ?body ?s ?t] =>
        destruct (for_loop_m n i body s t) as [[b'| |] st1]
    end; [|contradiction|exact Hloop].
    destruct Hloop as (_ & Hrows & _).
    unfold ret. intros k u Hk Hu.
    destruct (Hrows k ltac:(lia)) as (starts & Hstarts & Hcount & Hcells).
    rewrite Hcells by exact Hu.
    apply nth_first_blocks; [lia| |lia].
    eapply Forall_impl; [|exact Hstarts]. cbv beta. intros s Hs. lia.
Qed.

(** X22.  The draws of the bootstrap.  For a block size between 1 and
    [n_returns] and a buffer size [n_bootstrap * sample_size] that is
    representable as an [int], a call that returns a sample set has drawn
    exactly
    [ceil(sample_size / block_size)] values from [rand] for each of its
    [n_bootstrap] rows, starting from the generator that [seed] set, if
    it is positive and no earlier call has seeded, and from the generator
    as the call found it otherwise. *)
Theorem bootstrap_draws :
  forall (fuel : nat) (log_returns : list R)
         (n_returns n_bootstrap sample_size block_size seed : Z)
         (st : process),
    1 <= block_size <= n_returns ->
    in_int (n_bootstrap * sample_size) = true ->
    let start :=
      if (0 <? seed) && negb (seed_set st) then srand seed else gen st in
    match moving_block_bootstrap fuel log_returns n_returns n_bootstrap
            sample_size block_size seed st with
    | (Done (Some _), st') =>
        gen st'
        = rand_steps
            (Z.to_nat n_bootstrap
             * Z.to_nat ((sample_size + block_size - 1) / block_size))
            start
    | (Done None, st') =>
        allocate_array (n_bootstrap * sample_size) = None /\ gen st' = start
    | (Crashed, _) => False
    | (Timeout, _) => Z.of_nat fuel < sample_size
    end.
Proof.
  intros fuel log_returns n_returns n_bootstrap sample_size block_size seed
         st Hbs Hsize start.
  unfold moving_block_bootstrap. rewrite bind_run.
  assert (Hseed : exists st0, seed_once seed st = (Done tt, st0) /\
                              gen st0 = start).
  { unfold seed_once, start. destruct (_ && _); eexists; split;
      reflexivity. }
  destruct Hseed as (st0 & -> & Hstart).
  destruct (Z.ltb_spec n_returns block_size) as [Hlt|_]; [lia|].
  rewrite bind_int_value by exact Hsize.
  destruct (allocate_array (n_bootstrap * sample_size)) as [b|] eqn:Halloc;
    [|split; [reflexivity | exact Hstart]].
  apply allocate_array_length in Halloc.
  rewrite bind_run. unfold for_range_m.
  pose proof (rows_loop_draws fuel log_returns sample_size block_size
                (n_returns - block_size + 1) ltac:(lia)
                (Z.to_nat (n_bootstrap - 0)) 0 b st0) as Hloop.
  assert (Hends :
    match
      for_loop_m (Z.to_nat (n_bootstrap - 0)) 0
        (row_iteration fuel log_returns sample_size block_size
                       (n_returns - block_size + 1))
        b st0
    with
    | (Done _, _) => True
    | (Crashed, _) => False
    | (Timeout, _) => Z.of_nat fuel < sample_size
    end).
  { destruct (Z.le_gt_cases sample_size 0) as [Hss|Hss].
    - rewrite (rows_loop_empty fuel log_returns sample_size block_size
                 (n_returns - block_size + 1) Hss).
      exact I.
    - pose proof (rows_loop_spec fuel log_returns sample_size block_size
                    (n_returns - block_size + 1) ltac:(lia) ltac:(lia)
                    ltac:(lia) (Z.to_nat (n_bootstrap - 0)) 0 b st0
                    ltac:(lia) ltac:(nia)) as Hspec.
      destruct (for_loop_m _ _ _ b st0) as [[b'| |] st1]; auto. }
  match goal with
  | |- context [for_loop_m ?n ?i ?body ?s ?t] =>
      destruct (for_loop_m n i body s t) as [[b'| |] st1]
  end; [|exact Hends|exact Hends].
  unfold ret. rewrite Hloop, Hstart.
  replace (Z.to_nat (n_bootstrap - 0)) with (Z.to_nat n_bootstrap) by lia.
  reflexivity.
Qed.
End BootstrapProperties.

Lemma bootstrap_whole_series_block_witness :
  exists bootstrap_samples st',
    @moving_block_bootstrap lcg_libc 4 [0.01; -0.02; 0.015]%R 3 2 4 3 42
                            initial_process
    = (Done (Some bootstrap_samples), st') /\
    forall bootstrap_idx u,
      0 <= bootstrap_idx < 2 -> 0 <= u < 4 ->
      rd bootstrap_samples (bootstrap_idx * 4 + u)
      = rd [0.01; -0.02; 0.015]%R (u mod 3).
Proof.
  pose proof (@bootstrap_whole_series_block lcg_libc 4
                [0.01; -0.02; 0.015]%R 3 2 4 42 initial_process
                ltac:(lia) eq_refl) as Hrows.
  destruct (@moving_block_bootstrap lcg_libc 4 _ 3 2 4 3 42 initial_process)
    as [[[bootstrap_samples|]| |] st'].
  - exists bootstrap_samples, st'. split; [reflexivity | exact Hrows].
  - discriminate Hrows.
  - contradiction.
  - simpl in Hrows. lia.
Defined.

Lemma bootstrap_draws_witness :
  exists bootstrap_samples st',
    @moving_block_bootstrap lcg_libc 6
      [0.01; -0.02; 0.015; 0.005; -0.01; 0.02]%R 6 2 5 2 42 initial_process
    = (Done (Some bootstrap_samples), st') /\
    gen st' = rand_steps (H := lcg_libc) 6 42.
Proof.
  pose proof (@bootstrap_draws lcg_libc 6
                [0.01; -0.02; 0.015; 0.005; -0.01; 0.02]%R 6 2 5 2 42
                initial_process ltac:(lia) eq_refl) as Hdraws.
  destruct (@moving_block_bootstrap lcg_libc 6 _ 6 2 5 2 42 initial_process)
    as [[[bootstrap_samples|]| |] st'].
  - exists bootstrap_samples, st'. split; [reflexivity | exact Hdraws].
  - destruct Hdraws as [Hnone _]. discriminate Hnone.
  - contradiction.
  - simpl in Hdraws. lia.
Defined.

Lemma simulation_output_witness :
  in_int (3 * 2) = true /\
  in_int (3 + 3 * 2) = true /\
  stdout (snd (@Mbb.monte_carlo_simulation lcg_libc 100 [0.01; -0.02]%R 1 2
                 3 initial_process))
  = [Warning 3 1] /\
  stdout (snd (@Cribari.monte_carlo_simulation lcg_libc 100 [0.01; -0.02]%R
                 1 2 3 42 initial_process))
  = [Warning 3 1].
Proof.
  destruct (@simulation_output lcg_libc 100%R [0.01; -0.02]%R 1 2 3 42
              initial_process) as [Hterminal Hpaths].
  split; [reflexivity|]. split; [reflexivity|]. split.
  - exact Hterminal.
  - exact (Hpaths eq_refl eq_refl).
Defined.

Lemma bootstrap_output_witness :
  let r := @moving_block_bootstrap lcg_libc 6
             [0.01; -0.02; 0.015; 0.005; -0.01; 0.02]%R 6 2 5 2 42
             initial_process in
  in_int (2 * 5) = true /\
  stdout (snd r) = [] /\
  (fst r = Done None <->
   6 < 2 \/ allocate_array (H := lcg_libc) (2 * 5) = None).
Proof.
  intros r.
  split; [reflexivity|].
  exact (@bootstrap_output lcg_libc 6
           [0.01; -0.02; 0.015; 0.005; -0.01; 0.02]%R 6 2 5 2 42
           initial_process (or_intror eq_refl)).
Defined.
